(** * Recamán sequence visualisation: a shallow embedding of [main.py]

    The development follows the three classes of the program:
    [RecamanSequence] (the generator), [ArcVisualizer] (colour gradient and
    arc geometry) and [RecamanVisualization] (screen transform, playback
    state).

    Python integers are [Z]; the seen-set is a finite set [gset Z]; Python
    floats are IEEE 754 binary64 values, every operation being the exact
    rational result rounded to nearest, ties to even; a Python exception is
    an explicit [Raise] outcome.  The libraries the program calls are not
    part of it: the C library's [cos] and [sin] are parameters, and so is
    pygame, as a function that tells for each call whether pygame accepts it
    or which exception it raises; the drawing surface is the list of the
    calls pygame accepted, oldest first.

    Part I gives the embedding, Part II the properties, Part III further
    properties of the sequence, the input handling, the frames and the run
    loop. *)

From Stdlib Require Import ZArith QArith Qround Qabs Qpower Qreduction Qcanon.
From Stdlib Require Import Lia Lqa List Bool SpecFloat.
From stdpp Require Import gmap list strings pretty.
From Equations Require Import Equations.

Local Open Scope Z_scope.

(** * Part I. The embedding *)

(** ** Outcomes of a Python computation *)

Inductive exn : Set :=
| IndexError
| ZeroDivisionError
| OverflowError
| ValueError
| TypeError
| OSError
| PygameError.

Inductive result (A : Type) : Type :=
| Ok (a : A)
| Raise (e : exn).
Arguments Ok {A} a.
Arguments Raise {A} e.

Definition bind {A B : Type} (m : result A) (k : A -> result B) : result B :=
  match m with
  | Ok a => k a
  | Raise e => Raise e
  end.

Notation "'let!' x ':=' m 'in' k" := (bind m (fun x => k))
  (at level 10, x pattern, m at level 100, k at level 200).

(** [for x in l: ...] collecting one value per iteration; the first
    exception ends the loop. *)
Fixpoint for_each {A B : Type} (f : A -> result B) (l : list A)
  : result (list B) :=
  match l with
  | [] => Ok []
  | x :: l' =>
      let! y := f x in
      let! ys := for_each f l' in
      Ok (y :: ys)
  end.

(** [for x in l: ...] updating a state; the first exception ends the
    loop. *)
Fixpoint for_fold {A S : Type} (f : S -> A -> result S) (l : list A) (s : S)
  : result S :=
  match l with
  | [] => Ok s
  | x :: l' => let! s' := f s x in for_fold f l' s'
  end.

(** A call of a library: the library, a parameter, tells the exception it
    raises on that call, if any; a call it accepts is added to the calls
    made so far. *)
Definition emit {C : Type} (library : C -> option exn) (c : C)
    (made : list C) : result (list C) :=
  match library c with
  | None => Ok (made ++ [c])
  | Some e => Raise e
  end.

(** Calls in a row; the first one refused ends them. *)
Definition emit_all {C : Type} (library : C -> option exn) (cs : list C)
    (made : list C) : result (list C) :=
  for_fold (fun made c => emit library c made) cs made.

(** Case analysis that keeps the equation of the value analysed. *)
Definition inspect {A : Type} (x : A) : {y : A | x = y} := exist _ x eq_refl.

(** ** IEEE 754 binary64, the Python [float]

    A finite float is the rational number it denotes (the two zeros are
    identified: nothing in this program tells them apart).  [round] maps a
    rational to the nearest value with a 53-bit significand and an exponent
    not below that of the subnormals, ties to even; a result of magnitude
    [2^1024] or more is an overflow. *)

Module Binary64.

Definition prec : Z := 53.
Definition emin : Z := -1074.
Definition emax : Z := 1024.

Definition pow2 (e : Z) : Q := (2 ^ e)%Q.

(** [ilog2 x], for [0 < x]: the [k] with [2^k <= x < 2^(k+1)]. *)
Definition ilog2 (x : Q) : Z :=
  let l := Z.log2 (Qnum x) - Z.log2 (Zpos (Qden x)) in
  if Qle_bool (pow2 l) x then l else l - 1.

(** Nearest integer, ties to even. *)
Definition rne (x : Q) : Z :=
  let f := Qfloor x in
  match (x - inject_Z f ?= 1 # 2)%Q with
  | Lt => f
  | Gt => f + 1
  | Eq => if Z.even f then f else f + 1
  end.

(** The exponent of the unit in the last place of [x]. *)
Definition exponent (x : Q) : Z := Z.max (ilog2 (Qabs x) - (prec - 1)) emin.

Definition round (x : Q) : Q :=
  if Qeq_bool x 0 then 0%Q
  else Qred (inject_Z (rne (x / pow2 (exponent x))) * pow2 (exponent x)).

Inductive float : Set :=
| Fin (q : Q)
| Inf (negative : bool)
| NaN.

Definition negative (q : Q) : bool := negb (Qle_bool 0 q).

(** The float nearest to a rational. *)
Definition rnd (x : Q) : float :=
  let r := round x in
  if Qle_bool (pow2 emax) (Qabs r) then Inf (negative r) else Fin r.

Definition is_zero (x : float) : bool :=
  match x with Fin q => Qeq_bool q 0 | _ => false end.

Definition is_nan (x : float) : bool :=
  match x with NaN => true | _ => false end.

Definition is_inf (x : float) : bool :=
  match x with Inf _ => true | _ => false end.

Definition is_finite (x : float) : bool :=
  match x with Fin _ => true | _ => false end.

Definition neg (x : float) : float :=
  match x with
  | Fin q => Fin (- q)
  | Inf s => Inf (negb s)
  | NaN => NaN
  end.

Definition add (x y : float) : float :=
  match x, y with
  | Fin a, Fin b => rnd (a + b)
  | Fin _, Inf s => Inf s
  | Inf s, Fin _ => Inf s
  | Inf s, Inf s' => if eqb s s' then Inf s else NaN
  | _, _ => NaN
  end.

Definition sub (x y : float) : float := add x (neg y).

Definition mul (x y : float) : float :=
  match x, y with
  | Fin a, Fin b => rnd (a * b)
  | Fin a, Inf s => if Qeq_bool a 0 then NaN else Inf (xorb (negative a) s)
  | Inf s, Fin b => if Qeq_bool b 0 then NaN else Inf (xorb s (negative b))
  | Inf s, Inf s' => Inf (xorb s s')
  | _, _ => NaN
  end.

(** Division; Python raises [ZeroDivisionError] before dividing by zero, so
    the zero-divisor cases are never reached. *)
Definition div (x y : float) : float :=
  match x, y with
  | Fin a, Fin b =>
      if Qeq_bool b 0
      then (if Qeq_bool a 0 then NaN else Inf (negative a))
      else rnd (a / b)
  | Fin _, Inf _ => Fin 0
  | Inf s, Fin b => Inf (xorb s (negative b))
  | _, _ => NaN
  end.

(** Truncation toward zero. *)
Definition trunc (q : Q) : Z :=
  if Qle_bool 0 q then Qfloor q else Qceiling q.

End Binary64.

(** ** Python numbers: [int] and [float] with their arithmetic *)

Module Py.
Import Binary64.

Inductive num : Set :=
| Int (z : Z)
| Float (f : float).

(** Conversion of an operand to [float]; an [int] too large for a float
    raises [OverflowError]. *)
Definition to_float (x : num) : result float :=
  match x with
  | Float f => Ok f
  | Int z =>
      match rnd (inject_Z z) with
      | Inf _ => Raise OverflowError
      | f => Ok f
      end
  end.

(** [x + y] *)
Definition add (x y : num) : result num :=
  match x, y with
  | Int a, Int b => Ok (Int (a + b))
  | _, _ =>
      let! a := to_float x in
      let! b := to_float y in
      Ok (Float (Binary64.add a b))
  end.

(** [x - y] *)
Definition sub (x y : num) : result num :=
  match x, y with
  | Int a, Int b => Ok (Int (a - b))
  | _, _ =>
      let! a := to_float x in
      let! b := to_float y in
      Ok (Float (Binary64.sub a b))
  end.

(** [x * y] *)
Definition mul (x y : num) : result num :=
  match x, y with
  | Int a, Int b => Ok (Int (a * b))
  | _, _ =>
      let! a := to_float x in
      let! b := to_float y in
      Ok (Float (Binary64.mul a b))
  end.

(** [x / y]: true division.  On two ints it is the correctly rounded
    quotient, [OverflowError] when that is too large for a float. *)
Definition truediv (x y : num) : result num :=
  match x, y with
  | Int a, Int b =>
      if b =? 0 then Raise ZeroDivisionError
      else
        match rnd (inject_Z a / inject_Z b) with
        | Inf _ => Raise OverflowError
        | f => Ok (Float f)
        end
  | _, _ =>
      let! a := to_float x in
      let! b := to_float y in
      if is_zero b then Raise ZeroDivisionError
      else Ok (Float (Binary64.div a b))
  end.

(** [-x] *)
Definition neg (x : num) : num :=
  match x with
  | Int a => Int (- a)
  | Float f => Float (Binary64.neg f)
  end.

(** [int(x)] *)
Definition int (x : num) : result Z :=
  match x with
  | Int a => Ok a
  | Float (Fin q) => Ok (trunc q)
  | Float (Inf _) => Raise OverflowError
  | Float NaN => Raise ValueError
  end.

(** [l[k]] *)
Definition getitem {A : Type} (l : list A) (k : nat) : result A :=
  match l !! k with
  | Some x => Ok x
  | None => Raise IndexError
  end.

(** [range(n)] *)
Definition range (n : Z) : list Z := seqZ 0 n.

(** [math.pi], the float nearest to pi: [0x1.921fb54442d18p+1]. *)
Definition math_pi : float := Fin (884279719003555 # 281474976710656).

(** A function of the [math] module built on the C library function [f],
    as CPython wraps it: a NaN result on a non-NaN argument, or an infinite
    result on a finite argument, is a [ValueError]. *)
Definition math_1 (f : float -> float) (x : num) : result num :=
  let! a := to_float x in
  let r := f a in
  if is_nan r && negb (is_nan a) then Raise ValueError
  else if is_inf r && is_finite a then Raise ValueError
  else Ok (Float r).

End Py.

(** ** class RecamanSequence *)

Module RecamanSequence.

Record t : Type := Build {
  sequence : list Z;
  seen : gset Z;
  currentStep : Z
}.

(** [__init__] *)
Definition init : t :=
  {| sequence := [0]; seen := {[ 0 ]}; currentStep := 1 |}.

(** [len(self.sequence)] *)
Definition len (s : t) : Z := Z.of_nat (length (sequence s)).

(** [self.sequence[-1]]: the last element, [IndexError] on the empty list. *)
Definition lastValue (s : t) : result Z :=
  match last (sequence s) with
  | Some v => Ok v
  | None => Raise IndexError
  end.

(** The branch of [generateNext]: [candidate] when it is positive and not in
    the seen-set, [lastValue + currentStep] otherwise. *)
Definition select (seen : gset Z) (lastValue step : Z) : Z :=
  let candidate := lastValue - step in
  if (0 <? candidate) && negb (bool_decide (candidate ∈ seen))
  then candidate
  else lastValue + step.

(** [generateNext]: returns the new term together with the updated object. *)
Definition generateNext (s : t) : result (Z * t) :=
  let! lastValue := lastValue s in
  let nextValue := select (seen s) lastValue (currentStep s) in
  Ok (nextValue,
      {| sequence := sequence s ++ [nextValue];
         seen := {[ nextValue ]} ∪ seen s;
         currentStep := currentStep s + 1 |}).

Lemma generateNext_len s v s' :
  generateNext s = Ok (v, s') -> len s' = len s + 1.
Proof.
  unfold generateNext, bind. destruct (lastValue s); [|discriminate].
  intros [= _ <-]. unfold len. simpl. rewrite length_app. simpl. lia.
Qed.

(** [generateTerms]: the [while] loop, recursive on the distance to
    [numTerms], which every iteration shrinks. *)
Equations? generateTerms (s : t) (numTerms : Z) : result t
  by wf (Z.to_nat (numTerms - len s)) lt :=
  generateTerms s numTerms with inspect (len s <? numTerms) => {
    | exist _ false _ := Ok s
    | exist _ true Hlt with inspect (generateNext s) => {
        | exist _ (Ok r) Hnext := generateTerms (snd r) numTerms
        | exist _ (Raise e) _ := Raise e } }.
Proof.
  apply generateNext_len in Hnext. apply Z.ltb_lt in Hlt. lia.
Qed.

(** [getMaxValue]: [max(self.sequence) if self.sequence else 0] *)
Definition getMaxValue (s : t) : Z :=
  match sequence s with
  | [] => 0
  | x :: l => fold_left Z.max l x
  end.

(** [calls k s]: [k] successive calls of [generateNext] on [s]. *)
Fixpoint calls (k : nat) (s : t) : result t :=
  match k with
  | O => Ok s
  | S k' => let! r := generateNext s in calls k' (snd r)
  end.

(** The states an object goes through: the constructor's, then one call
    of [generateNext] after another. *)
Inductive reachable : t -> Prop :=
| reach_init : reachable init
| reach_next s v s' :
    reachable s -> generateNext s = Ok (v, s') -> reachable s'.

End RecamanSequence.

(** ** class ArcVisualizer *)

Module ArcVisualizer.
Import Binary64 Py.

(** [config["arcSettings"]] *)
Record ArcSettings : Type := {
  colorStart : list num;
  colorEnd : list num;
  segments : Z;
  strokeWeight : Z
}.

(** [pygame.draw.lines(surface, color, closed, points, width)]; a surface
    is the list of the calls drawn on it, oldest first. *)
Inductive draw_call : Type :=
| Lines (color : Z * Z * Z) (closed : bool) (points : list (num * num))
        (width : Z).

Definition surface : Type := list draw_call.

(** One channel of [interpolateColor]:
    [int(colorStart[k] + (colorEnd[k] - colorStart[k]) * ratio)] *)
Definition channel (a : ArcSettings) (k : nat) (ratio : num) : result Z :=
  let! s := getitem (colorStart a) k in
  let! e := getitem (colorEnd a) k in
  let! d := Py.sub e s in
  let! p := Py.mul d ratio in
  let! v := Py.add s p in
  Py.int v.

Definition interpolateColor (a : ArcSettings) (index totalArcs : Z)
  : result (Z * Z * Z) :=
  let! ratio := Py.truediv (Int index) (Int (Z.max (totalArcs - 1) 1)) in
  let! r := channel a 0 ratio in
  let! g := channel a 1 ratio in
  let! b := channel a 2 ratio in
  Ok (r, g, b).

Section Arc.

(** The C library's [cos] and [sin], on which [math.cos] and [math.sin]
    are built. *)
Variables libm_cos libm_sin : float -> float.

(** [pygame.draw.lines]: the exception it raises on a call, if any. *)
Variable draw_lines : draw_call -> option exn.

(** [direction = 1 if arcIndex % 2 == 0 else -1] *)
Definition direction (arcIndex : Z) : Z :=
  if arcIndex mod 2 =? 0 then 1 else -1.

(** The angle of sample [i]: [math.pi * i / segments], negated when
    [direction == -1]. *)
Definition angle (dir segments i : Z) : result num :=
  let! a := Py.mul (Float math_pi) (Int i) in
  let! a := Py.truediv a (Int segments) in
  Ok (if dir =? -1 then Py.neg a else a).

(** The body of the loop of [drawArc]. *)
Definition arcPoint (screenCenterX screenCenterY screenRadius : num)
    (dir segments i : Z) : result (num * num) :=
  let! a := angle dir segments i in
  let! c := math_1 libm_cos a in
  let! rc := Py.mul screenRadius c in
  let! x := Py.add screenCenterX rc in
  let! s := math_1 libm_sin a in
  let! rs := Py.mul screenRadius s in
  let! y := Py.add screenCenterY rs in
  Ok (x, y).

Definition drawArc (a : ArcSettings) (surf : surface)
    (startVal endVal arcIndex totalArcs : Z) (scale offsetX offsetY : num)
  : result surface :=
  if startVal =? endVal then Ok surf
  else
    let! center := Py.truediv (Int (startVal + endVal)) (Float (Fin 2)) in
    let! radius := Py.truediv (Int (Z.abs (endVal - startVal))) (Float (Fin 2)) in
    let dir := direction arcIndex in
    let! cs := Py.mul center scale in
    let! screenCenterX := Py.add offsetX cs in
    let screenCenterY := offsetY in
    let! screenRadius := Py.mul radius scale in
    let! points :=
      for_each (arcPoint screenCenterX screenCenterY screenRadius dir
                  (segments a))
               (range (segments a + 1)) in
    if 1 <? Z.of_nat (length points) then
      let! color := interpolateColor a arcIndex totalArcs in
      emit draw_lines (Lines color false points (strokeWeight a)) surf
    else Ok surf.

End Arc.

End ArcVisualizer.

(** ** class RecamanVisualization *)

Module RecamanVisualization.
Import Binary64 Py.

(** The settings read from [config.json] that the modelled methods use. *)
Record Config : Type := {
  windowWidth : Z;
  windowHeight : Z;
  cfg_maxTerms : Z;
  autoScaling_enabled : bool;
  autoScaling_padding : num;
  numberLine_yPosition : num;
  arcSettings : ArcVisualizer.ArcSettings
}.

Record t : Type := Build {
  config : Config;
  width : Z;
  height : Z;
  sequence : RecamanSequence.t;
  currentArc : Z;
  maxTerms : Z;
  running : bool;
  paused : bool;
  scale : num;
  offsetX : num;
  offsetY : num
}.

Definition set_currentArc (v : t) (n : Z) : t :=
  {| config := config v; width := width v; height := height v;
     sequence := sequence v; currentArc := n; maxTerms := maxTerms v;
     running := running v; paused := paused v;
     scale := scale v; offsetX := offsetX v; offsetY := offsetY v |}.

Definition set_running (v : t) (b : bool) : t :=
  {| config := config v; width := width v; height := height v;
     sequence := sequence v; currentArc := currentArc v;
     maxTerms := maxTerms v; running := b; paused := paused v;
     scale := scale v; offsetX := offsetX v; offsetY := offsetY v |}.

Definition set_paused (v : t) (b : bool) : t :=
  {| config := config v; width := width v; height := height v;
     sequence := sequence v; currentArc := currentArc v;
     maxTerms := maxTerms v; running := running v; paused := b;
     scale := scale v; offsetX := offsetX v; offsetY := offsetY v |}.

Definition set_scaling (v : t) (s x : num) : t :=
  {| config := config v; width := width v; height := height v;
     sequence := sequence v; currentArc := currentArc v;
     maxTerms := maxTerms v; running := running v; paused := paused v;
     scale := s; offsetX := x; offsetY := offsetY v |}.

(** [(self.width - 2 * padding) / maxValue] *)
Definition fitScale (width : Z) (padding : num) (maxValue : Z) : result num :=
  let! p2 := Py.mul (Int 2) padding in
  let! w := Py.sub (Int width) p2 in
  Py.truediv w (Int maxValue).

(** [calculateScaling] *)
Definition calculateScaling (v : t) : result t :=
  if negb (autoScaling_enabled (config v)) then Ok v
  else
    let maxValue := RecamanSequence.getMaxValue (sequence v) in
    let padding := autoScaling_padding (config v) in
    if 0 <? maxValue then
      let! s := fitScale (width v) padding maxValue in
      Ok (set_scaling v s padding)
    else Ok v.

(** [__init__] from the generated sequence on (lines 109 to 113): the
    default transform, then [calculateScaling]. *)
Definition initTransform (cfg : Config) (seq : RecamanSequence.t)
  : result t :=
  let! oy := Py.mul (Int (windowHeight cfg)) (numberLine_yPosition cfg) in
  calculateScaling
    {| config := cfg; width := windowWidth cfg; height := windowHeight cfg;
       sequence := seq; currentArc := 0; maxTerms := cfg_maxTerms cfg;
       running := true; paused := false;
       scale := Float (Fin 1); offsetX := Float (Fin 0); offsetY := oy |}.

(** [__init__] from line 98 on, the clock apart: the state of the object
    for the loaded configuration [cfg].  Reading the file and the calls of
    pygame (lines 89 to 96 and 103) come with [Rendering.construct]. *)
Definition init (cfg : Config) : result t :=
  let! seq := RecamanSequence.generateTerms RecamanSequence.init
                (cfg_maxTerms cfg) in
  initTransform cfg seq.

(** The input events the program tells apart. *)
Inductive key : Set := K_SPACE | K_r | K_ESCAPE | K_other.

Inductive event : Set :=
| QUIT
| KEYDOWN (k : key)
| OtherEvent.

(** [reset] *)
Definition reset (v : t) : t := set_currentArc v 0.

(** The body of the loop of [handleEvents]. *)
Definition handleEvent (v : t) (e : event) : t :=
  match e with
  | QUIT => set_running v false
  | KEYDOWN K_SPACE => set_paused v (negb (paused v))
  | KEYDOWN K_r => reset v
  | KEYDOWN K_ESCAPE => set_running v false
  | KEYDOWN K_other => v
  | OtherEvent => v
  end.

(** [handleEvents], on the events [pygame.event.get()] returns. *)
Definition handleEvents (v : t) (events : list event) : t :=
  fold_left handleEvent events v.

(** [len(self.sequence.sequence) - 1] *)
Definition totalArcs (v : t) : Z := RecamanSequence.len (sequence v) - 1.

(** [update]: one tick. *)
Definition update (v : t) : t :=
  if negb (paused v) && (currentArc v <? totalArcs v)
  then set_currentArc v (currentArc v + 1)
  else v.

(** [n] ticks in a row. *)
Fixpoint ticks (n : nat) (v : t) : t :=
  match n with
  | O => v
  | S n' => ticks n' (update v)
  end.

(** The frames of [run], as far as the playback state goes: the events of
    a frame are handled, then one tick follows. *)
Definition frames (v : t) (batches : list (list event)) : t :=
  fold_left (fun v events => update (handleEvents v events)) batches v.

End RecamanVisualization.

(** ** Rendering: the window, the frame and the run loop *)

Module Rendering.
Import Binary64 Py ArcVisualizer RecamanVisualization.

(** The settings of [config.json] that the drawing methods read besides
    those of [Config]. *)
Record DrawSettings : Type := {
  backgroundColor : list num;
  numberLine_color : list num;
  numberLine_markerSize : num;
  animationSpeed : num
}.

(** The calls of pygame that the program makes, [pygame.event.get] apart,
    which is its input: [pygame.init], [pygame.display.set_mode],
    [pygame.display.set_caption], [pygame.time.Clock], [screen.fill],
    [pygame.draw.line], [pygame.draw.circle], the [pygame.draw.lines] of an
    arc, [pygame.font.Font(None, size)], [font.render], [screen.blit] of a
    rendered text, [pygame.display.flip], [clock.tick] and [pygame.quit]. *)
Inductive call : Type :=
| PygameInit
| SetMode (size : Z * Z)
| SetCaption (title : string)
| NewClock
| Fill (color : list num)
| Line (color : list num) (start stop : num * num) (width : Z)
| Circle (color : list num) (center : Z * Z) (radius : num)
| Arc (polyline : draw_call)
| Font (size : Z)
| Render (text : string) (antialias : bool) (color : Z * Z * Z)
| Blit (text : string) (pos : Z * Z)
| Flip
| Tick (framerate : num)
| Quit.

(** The screen: the calls pygame accepted, oldest first. *)
Definition screen : Type := list call.

(** [l[:n]] *)
Definition slice_to {A : Type} (l : list A) (n : Z) : list A :=
  if 0 <=? n then take (Z.to_nat n) l
  else take (Z.to_nat (Z.of_nat (length l) + n)) l.

(** The title of the window. *)
Definition caption : string := "Recamán's Sequence Visualization".

(** The four lines of [drawInstructions]. *)
Definition instructions (v : RecamanVisualization.t) : list string :=
  [ "SPACE: Pause/Resume"; "R: Reset"; "ESC: Exit";
    "Arc: " +:+ pretty (currentArc v) +:+ "/"
      +:+ pretty (RecamanSequence.len (sequence v) - 1) ]%string.

Section Draw.

Variables libm_cos libm_sin : float -> float.

(** pygame: the exception it raises on a call, if any. *)
Variable pygame : call -> option exn.

(** The body of the loop of [drawNumberLine]: the marker of one value, a
    circle centred at [(int(offsetX + value * scale), int(lineY))]. *)
Definition marker (d : DrawSettings) (v : RecamanVisualization.t)
    (scr : screen) (value : Z) : result screen :=
  let! vs := Py.mul (Int value) (scale v) in
  let! x := Py.add (offsetX v) vs in
  let! px := Py.int x in
  let! py := Py.int (offsetY v) in
  emit pygame
    (Circle (numberLine_color d) (px, py) (numberLine_markerSize d)) scr.

(** [drawNumberLine] *)
Definition drawNumberLine (d : DrawSettings) (v : RecamanVisualization.t)
    (scr : screen) : result screen :=
  let lineY := offsetY v in
  let color := numberLine_color d in
  let! scr :=
    emit pygame (Line color (Int 0, lineY) (Int (width v), lineY) 2) scr in
  for_fold (marker d v)
    (slice_to (RecamanSequence.sequence (sequence v)) (currentArc v + 1)) scr.

(** The body of the loop of [drawInstructions]: one line of text, rendered
    and copied to the screen at [(10, y)]. *)
Definition instruction (state : screen * Z) (text : string)
  : result (screen * Z) :=
  let '(scr, y) := state in
  let! scr := emit pygame (Render text true (200, 200, 200)) scr in
  let! scr := emit pygame (Blit text (10, y)) scr in
  Ok (scr, y + 25).

(** [drawInstructions] *)
Definition drawInstructions (v : RecamanVisualization.t) (scr : screen)
  : result screen :=
  let! scr := emit pygame (Font 24) scr in
  let! state := for_fold instruction (instructions v) (scr, 10) in
  Ok (fst state).

(** The body of the loop of [draw]: arc [i], drawn on the screen. *)
Definition drawArcAt (v : RecamanVisualization.t) (scr : screen) (i : Z)
  : result screen :=
  let seq := RecamanSequence.sequence (sequence v) in
  let! startVal := getitem seq (Z.to_nat i) in
  let! endVal := getitem seq (Z.to_nat (i + 1)) in
  let totalArcs := RecamanSequence.len (sequence v) - 1 in
  let! added :=
    drawArc libm_cos libm_sin (fun c => pygame (Arc c))
            (arcSettings (config v)) []
            startVal endVal i totalArcs (scale v) (offsetX v) (offsetY v) in
  Ok (scr ++ map Arc added).

(** [draw] *)
Definition draw (d : DrawSettings) (v : RecamanVisualization.t)
    (scr : screen) : result screen :=
  let! scr := emit pygame (Fill (backgroundColor d)) scr in
  let! scr := drawNumberLine d v scr in
  let! scr := for_fold (drawArcAt v) (range (currentArc v)) scr in
  let! scr := drawInstructions v scr in
  emit pygame Flip scr.

(** [run], on the event batches that the successive calls of
    [pygame.event.get()] return; when they are used up the run is left
    where it stands. *)
Fixpoint run (d : DrawSettings) (batches : list (list event))
    (v : RecamanVisualization.t) (scr : screen)
  : result (RecamanVisualization.t * screen) :=
  if running v then
    match batches with
    | [] => Ok (v, scr)
    | events :: rest =>
        let v := update (handleEvents v events) in
        let! scr := draw d v scr in
        let! scr := emit pygame (Tick (animationSpeed d)) scr in
        run d rest v scr
    end
  else
    let! scr := emit pygame Quit scr in
    Ok (v, scr).

(** [__init__] in full.  [loaded] is the outcome of reading the
    configuration file (lines 89 and 90), a configuration or the exception
    raised; the window and the clock are made before the sequence is
    generated and the transform computed. *)
Definition construct (loaded : result Config)
  : result (RecamanVisualization.t * screen) :=
  let! cfg := loaded in
  let! scr := emit pygame PygameInit [] in
  let! scr :=
    emit pygame (SetMode (windowWidth cfg, windowHeight cfg)) scr in
  let! scr := emit pygame (SetCaption caption) scr in
  let! scr := emit pygame NewClock scr in
  let! v := RecamanVisualization.init cfg in
  Ok (v, scr).

(** The module's last two lines: the object is built and run. *)
Definition main (loaded : result Config) (d : DrawSettings)
    (batches : list (list event))
  : result (RecamanVisualization.t * screen) :=
  let! built := construct loaded in
  run d batches (fst built) (snd built).

End Draw.

End Rendering.

(** * Part II. Properties *)

(** ** Binary64: rounding *)

Section Binary64Properties.
Import Binary64.
Local Open Scope Q_scope.

(** *** Rounding to the nearest integer, ties to even *)

Lemma rne_cases (x : Q) :
  (x - inject_Z (Qfloor x) < 1 # 2 /\ rne x = Qfloor x) \/
  (1 # 2 < x - inject_Z (Qfloor x) /\ rne x = (Qfloor x + 1)%Z) \/
  (x - inject_Z (Qfloor x) == 1 # 2 /\
   rne x = (if Z.even (Qfloor x) then Qfloor x else Qfloor x + 1)%Z).
Proof.
  unfold rne.
  destruct (Qcompare_spec (x - inject_Z (Qfloor x)) (1 # 2)) as [H|H|H].
  - right. right. split; [exact H | reflexivity].
  - left. split; [exact H | reflexivity].
  - right. left. split; [exact H | reflexivity].
Qed.

Lemma Qfloor_bounds (x : Q) :
  inject_Z (Qfloor x) <= x /\ x < inject_Z (Qfloor x) + 1.
Proof.
  split; [apply Qfloor_le|].
  pose proof (Qlt_floor x) as H. rewrite inject_Z_plus in H. exact H.
Qed.

Lemma rne_le (x y : Q) : x <= y -> (rne x <= rne y)%Z.
Proof.
  intros Hxy. pose proof (Qfloor_resp_le _ _ Hxy) as Hf.
  destruct (Z.eq_dec (Qfloor x) (Qfloor y)) as [He|Hne].
  - destruct (rne_cases x) as [[Hx ->]|[[Hx ->]|[Hx ->]]];
    destruct (rne_cases y) as [[Hy ->]|[[Hy ->]|[Hy ->]]];
    rewrite <- ?He in *; try lia; try (exfalso; lra);
    destruct (Z.even (Qfloor x)); lia.
  - assert (Hlt : (Qfloor x + 1 <= Qfloor y)%Z) by lia.
    destruct (rne_cases x) as [[_ ->]|[[_ ->]|[_ ->]]];
    destruct (rne_cases y) as [[_ ->]|[[_ ->]|[_ ->]]];
    try destruct (Z.even (Qfloor x)); try destruct (Z.even (Qfloor y)); lia.
Qed.

Lemma rne_Z (n : Z) : rne (inject_Z n) = n.
Proof.
  destruct (rne_cases (inject_Z n)) as [[H ->]|[[H ->]|[H ->]]];
    rewrite Qfloor_Z in *; try reflexivity; exfalso; lra.
Qed.

Lemma rne_proper (x y : Q) : x == y -> rne x = rne y.
Proof.
  intros H. apply Z.le_antisymm; apply rne_le; rewrite H; apply Qle_refl.
Qed.

Lemma Qfloor_opp_frac (x : Q) :
  ~ x == inject_Z (Qfloor x) -> Qfloor (- x) = (- Qfloor x - 1)%Z.
Proof.
  intros Hne. destruct (Qfloor_bounds x) as [H1 H2].
  destruct (Qfloor_bounds (- x)) as [H3 H4].
  assert (Hlt : inject_Z (Qfloor x) < x).
  { apply Qle_lteq in H1. destruct H1 as [H1|H1]; [exact H1|].
    exfalso. apply Hne. symmetry. exact H1. }
  assert (Ha : inject_Z (Qfloor (- x)) < inject_Z (- Qfloor x)).
  { rewrite inject_Z_opp. lra. }
  assert (Hb : inject_Z (- (Qfloor x + 2)) < inject_Z (Qfloor (- x))).
  { rewrite inject_Z_opp, inject_Z_plus. change (inject_Z 2) with 2. lra. }
  rewrite <- Zlt_Qlt in Ha, Hb. lia.
Qed.

Lemma rne_opp (x : Q) : rne (- x) = (- rne x)%Z.
Proof.
  destruct (Qeq_dec x (inject_Z (Qfloor x))) as [He|Hne].
  - rewrite (rne_proper x _ He).
    rewrite (rne_proper (- x) (inject_Z (- Qfloor x))).
    + rewrite !rne_Z. reflexivity.
    + rewrite inject_Z_opp, <- He. reflexivity.
  - pose proof (Qfloor_opp_frac x Hne) as Hf.
    assert (Hfq : inject_Z (Qfloor (- x)) == - inject_Z (Qfloor x) - 1).
    { rewrite Hf. unfold Z.sub. rewrite inject_Z_plus, inject_Z_opp.
      reflexivity. }
    destruct (rne_cases x) as [[Hx ->]|[[Hx ->]|[Hx ->]]];
    destruct (rne_cases (- x)) as [[Hy ->]|[[Hy ->]|[Hy ->]]];
    rewrite ?Hfq in Hy; try (exfalso; lra); rewrite Hf; try lia.
    replace (- Qfloor x - 1)%Z with (- (Qfloor x + 1))%Z by lia.
    rewrite Z.even_opp, Z.even_add. simpl.
    destruct (Z.even (Qfloor x)); simpl; lia.
Qed.


(** *** Powers of two *)

Lemma pow2_pos (e : Z) : 0 < pow2 e.
Proof. apply Qpower_0_lt. reflexivity. Qed.

Lemma pow2_add (a b : Z) : pow2 (a + b) == pow2 a * pow2 b.
Proof. apply Qpower_plus. discriminate. Qed.

Lemma pow2_sub (a b : Z) : pow2 (a - b) == pow2 a / pow2 b.
Proof. apply Qpower_minus. discriminate. Qed.

Lemma pow2_le (a b : Z) : (a <= b)%Z -> pow2 a <= pow2 b.
Proof. intros H. apply Qpower_le_compat_l; [exact H | discriminate]. Qed.

Lemma pow2_lt (a b : Z) : (a < b)%Z -> pow2 a < pow2 b.
Proof. intros H. apply Qpower_lt_compat_l; [exact H | reflexivity]. Qed.

Lemma pow2_lt_inv (a b : Z) : pow2 a < pow2 b -> (a < b)%Z.
Proof. intros H. eapply Qpower_lt_compat_l_inv; [exact H | reflexivity]. Qed.

Lemma pow2_Z (e : Z) : (0 <= e)%Z -> pow2 e == inject_Z (2 ^ e).
Proof. intros H. symmetry. apply (Zpower_Qpower 2 e H). Qed.

Lemma pow2_succ (a : Z) : pow2 (a + 1) == 2 * pow2 a.
Proof. rewrite pow2_add. change (pow2 1) with 2. ring. Qed.

(** *** The binary logarithm *)

Lemma ilog2_spec (x : Q) :
  0 < x -> pow2 (ilog2 x) <= x /\ x < pow2 (ilog2 x + 1).
Proof.
  intros Hx. destruct x as [n d].
  assert (Hn : (0 < n)%Z).
  { unfold Qlt in Hx. simpl in Hx. lia. }
  unfold ilog2. cbn [Qnum Qden].
  set (ln := Z.log2 n). set (ld := Z.log2 (Z.pos d)).
  destruct (Z.log2_spec n Hn) as [Hn1 Hn2]. fold ln in Hn1, Hn2.
  destruct (Z.log2_spec (Z.pos d) (Pos2Z.is_pos d)) as [Hd1 Hd2].
  fold ld in Hd1, Hd2.
  assert (Hln : (0 <= ln)%Z) by apply Z.log2_nonneg.
  assert (Hld : (0 <= ld)%Z) by apply Z.log2_nonneg.
  assert (Hx' : n # d == inject_Z n / inject_Z (Z.pos d)) by apply Qmake_Qdiv.
  assert (Hdpos : 0 < inject_Z (Z.pos d)) by reflexivity.
  assert (Hmul : (n # d) * inject_Z (Z.pos d) == inject_Z n).
  { rewrite Hx'. field. discriminate. }
  rewrite Zle_Qle, <- pow2_Z in Hn1, Hd1 by lia.
  rewrite Zlt_Qlt, <- pow2_Z in Hn2, Hd2 by lia.
  replace (Z.succ ln) with (ln + 1)%Z in Hn2 by lia.
  replace (Z.succ ld) with (ld + 1)%Z in Hd2 by lia.
  rewrite pow2_succ in Hn2, Hd2.
  assert (Hl : pow2 (ln - ld) * pow2 ld == pow2 ln).
  { rewrite <- pow2_add. replace (ln - ld + ld)%Z with ln by lia. reflexivity. }
  pose proof (pow2_pos (ln - ld)) as Hp. pose proof (pow2_pos ld) as Hpd.
  assert (Hupper : n # d < 2 * pow2 (ln - ld)).
  { apply (Qmult_lt_r _ _ (inject_Z (Z.pos d))); [exact Hdpos|].
    rewrite Hmul. apply Qlt_le_trans with (2 * pow2 ln); [exact Hn2|].
    rewrite <- Hl. rewrite <- !Qmult_assoc. apply Qmult_le_l; [reflexivity|].
    apply Qmult_le_l; [exact Hp | exact Hd1]. }
  assert (Hlower : pow2 (ln - ld) <= 2 * (n # d)).
  { apply (Qmult_le_r _ _ (pow2 ld)); [exact Hpd|]. rewrite Hl.
    apply Qle_trans with (inject_Z n); [exact Hn1|]. rewrite <- Hmul.
    apply Qle_trans with ((n # d) * (2 * pow2 ld)).
    - apply Qmult_le_l; [exact Hx|]. apply Qlt_le_weak. exact Hd2.
    - apply Qle_lteq. right. ring. }
  destruct (Qle_bool (pow2 (ln - ld)) (n # d)) eqn:Hb.
  - apply Qle_bool_iff in Hb. split; [exact Hb|]. rewrite pow2_succ. exact Hupper.
  - assert (Hlt : n # d < pow2 (ln - ld)).
    { apply Qnot_le_lt. intros H. apply Qle_bool_iff in H. congruence. }
    replace (ln - ld - 1 + 1)%Z with (ln - ld)%Z by lia. split; [|exact Hlt].
    assert (Hs : pow2 (ln - ld) == 2 * pow2 (ln - ld - 1)).
    { rewrite <- pow2_succ. replace (ln - ld - 1 + 1)%Z with (ln - ld)%Z by lia.
      reflexivity. }
    lra.
Qed.

Lemma ilog2_unique (x : Q) (k : Z) :
  pow2 k <= x -> x < pow2 (k + 1) -> ilog2 x = k.
Proof.
  intros H1 H2.
  assert (Hx : 0 < x) by (pose proof (pow2_pos k); lra).
  destruct (ilog2_spec x Hx) as [H3 H4].
  assert (Ha : (ilog2 x < k + 1)%Z) by (apply pow2_lt_inv; lra).
  assert (Hb : (k < ilog2 x + 1)%Z) by (apply pow2_lt_inv; lra).
  lia.
Qed.

Lemma ilog2_le (x y : Q) : 0 < x -> x <= y -> (ilog2 x <= ilog2 y)%Z.
Proof.
  intros Hx Hxy.
  destruct (ilog2_spec x Hx) as [H1 _].
  destruct (ilog2_spec y) as [_ H2]; [lra|].
  assert (Ha : (ilog2 x < ilog2 y + 1)%Z) by (apply pow2_lt_inv; lra).
  lia.
Qed.

Lemma ilog2_proper (x y : Q) : 0 < x -> x == y -> ilog2 x = ilog2 y.
Proof.
  intros Hx He. apply Z.le_antisymm; apply ilog2_le; lra.
Qed.


(** *** Rounding to the format *)

Lemma Qeq_bool_false (x y : Q) : ~ x == y -> Qeq_bool x y = false.
Proof.
  intros H. destruct (Qeq_bool x y) eqn:Hb; [|reflexivity].
  apply Qeq_bool_iff in Hb. contradiction.
Qed.

Lemma Qeq_bool_true (x y : Q) : x == y -> Qeq_bool x y = true.
Proof. apply Qeq_bool_iff. Qed.

Lemma round_zero (x : Q) : x == 0 -> round x = 0.
Proof. intros H. unfold round. rewrite (Qeq_bool_true _ _ H). reflexivity. Qed.

Lemma round_nonzero (x : Q) :
  ~ x == 0 ->
  round x = Qred (inject_Z (rne (x / pow2 (exponent x))) * pow2 (exponent x)).
Proof. intros H. unfold round. rewrite (Qeq_bool_false _ _ H). reflexivity. Qed.

Lemma round_value (x : Q) :
  ~ x == 0 ->
  round x == inject_Z (rne (x / pow2 (exponent x))) * pow2 (exponent x).
Proof. intros H. rewrite (round_nonzero x H). apply Qred_correct. Qed.

Lemma Qabs_pos_lt (x : Q) : ~ x == 0 -> 0 < Qabs x.
Proof.
  intros H. destruct (Qlt_le_dec 0 x) as [Hx|Hx].
  - rewrite Qabs_pos by lra. exact Hx.
  - rewrite Qabs_neg by exact Hx.
    apply Qle_lteq in Hx. destruct Hx as [Hx|Hx]; [lra | contradiction].
Qed.

Lemma exponent_proper (x y : Q) : ~ x == 0 -> x == y -> exponent x = exponent y.
Proof.
  intros Hx He. unfold exponent. f_equal. f_equal.
  apply ilog2_proper; [apply Qabs_pos_lt; exact Hx | rewrite He; reflexivity].
Qed.

Lemma exponent_opp (x : Q) : ~ x == 0 -> exponent (- x) = exponent x.
Proof.
  intros Hx. unfold exponent. f_equal. f_equal.
  apply ilog2_proper; [|apply Qabs_opp].
  apply Qabs_pos_lt. intros H. apply Hx. lra.
Qed.

Lemma exponent_le (x y : Q) : 0 < x -> x <= y -> (exponent x <= exponent y)%Z.
Proof.
  intros Hx Hxy. unfold exponent.
  assert (H : (ilog2 (Qabs x) <= ilog2 (Qabs y))%Z).
  { apply ilog2_le; rewrite !Qabs_pos by lra; assumption. }
  lia.
Qed.

Lemma round_proper (x y : Q) : x == y -> round x = round y.
Proof.
  intros He. destruct (Qeq_dec x 0) as [Hz|Hnz].
  - rewrite !round_zero; [reflexivity | rewrite <- He; exact Hz | exact Hz].
  - assert (Hnz' : ~ y == 0) by (rewrite <- He; exact Hnz).
    rewrite (round_nonzero x Hnz), (round_nonzero y Hnz').
    rewrite <- (exponent_proper x y Hnz He).
    apply Qred_complete.
    rewrite (rne_proper (x / pow2 (exponent x)) (y / pow2 (exponent x))).
    + reflexivity.
    + unfold Qdiv. apply Qmult_comp; [exact He | reflexivity].
Qed.

Lemma round_opp (x : Q) : round (- x) = - round x.
Proof.
  destruct (Qeq_dec x 0) as [Hz|Hnz].
  - rewrite (round_zero x Hz). apply round_zero. rewrite Hz. reflexivity.
  - assert (Hnz' : ~ - x == 0) by (intros H; apply Hnz; lra).
    rewrite (round_nonzero x Hnz), (round_nonzero _ Hnz').
    rewrite (exponent_opp x Hnz), <- Qred_opp.
    apply Qred_complete.
    rewrite (rne_proper (- x / pow2 (exponent x)) (- (x / pow2 (exponent x)))).
    + rewrite rne_opp, inject_Z_opp. ring.
    + field. pose proof (pow2_pos (exponent x)). lra.
Qed.

(** A power of two that is a multiple of the unit in the last place of [x]
    bounds [round x] whenever it bounds [x]. *)
Lemma round_le_pow2 (x : Q) (k : Z) :
  0 < x -> x <= pow2 k -> (exponent x <= k)%Z -> round x <= pow2 k.
Proof.
  intros Hx Hk He. rewrite round_value by lra.
  set (e := exponent x) in *. pose proof (pow2_pos e) as Hp.
  assert (Hq : pow2 k == inject_Z (2 ^ (k - e)) * pow2 e).
  { rewrite <- pow2_Z by lia. rewrite <- pow2_add.
    replace (k - e + e)%Z with k by lia. reflexivity. }
  rewrite Hq. apply Qmult_le_r; [exact Hp|]. rewrite <- Zle_Qle.
  rewrite <- (rne_Z (2 ^ (k - e))). apply rne_le.
  apply Qle_shift_div_r; [exact Hp|]. rewrite <- Hq. exact Hk.
Qed.

Lemma round_ge_pow2 (x : Q) (k : Z) :
  pow2 k <= x -> (exponent x <= k)%Z -> pow2 k <= round x.
Proof.
  intros Hk He. pose proof (pow2_pos k) as Hpk.
  rewrite round_value by lra.
  set (e := exponent x) in *. pose proof (pow2_pos e) as Hp.
  assert (Hq : pow2 k == inject_Z (2 ^ (k - e)) * pow2 e).
  { rewrite <- pow2_Z by lia. rewrite <- pow2_add.
    replace (k - e + e)%Z with k by lia. reflexivity. }
  rewrite Hq. apply Qmult_le_r; [exact Hp|]. rewrite <- Zle_Qle.
  rewrite <- (rne_Z (2 ^ (k - e))) at 1. apply rne_le.
  apply Qle_shift_div_l; [exact Hp|]. rewrite <- Hq. exact Hk.
Qed.

Lemma round_nonneg (x : Q) : 0 <= x -> 0 <= round x.
Proof.
  intros Hx. destruct (Qeq_dec x 0) as [Hz|Hnz].
  - rewrite (round_zero x Hz). lra.
  - rewrite round_value by exact Hnz.
    pose proof (pow2_pos (exponent x)) as Hp.
    apply Qmult_le_0_compat; [|lra].
    change 0 with (inject_Z 0). rewrite <- Zle_Qle.
    rewrite <- (rne_Z 0). apply rne_le.
    apply Qle_shift_div_l; [exact Hp|].
    change (inject_Z 0) with 0. rewrite Qmult_0_l. exact Hx.
Qed.

Lemma round_le_pos (x y : Q) : 0 < x -> x <= y -> round x <= round y.
Proof.
  intros Hx Hxy.
  pose proof (exponent_le x y Hx Hxy) as He.
  destruct (Z.eq_dec (exponent x) (exponent y)) as [Heq|Hne].
  - rewrite !round_value by lra. rewrite <- Heq.
    pose proof (pow2_pos (exponent x)) as Hp.
    apply Qmult_le_r; [exact Hp|]. rewrite <- Zle_Qle. apply rne_le.
    apply Qmult_le_r; [apply Qinv_lt_0_compat; exact Hp | exact Hxy].
  - assert (Hy : 0 < y) by lra.
    assert (Hax : Qabs x == x) by (apply Qabs_pos; lra).
    assert (Hay : Qabs y == y) by (apply Qabs_pos; lra).
    destruct (ilog2_spec x Hx) as [_ Hx2].
    destruct (ilog2_spec y Hy) as [Hy1 _].
    assert (Hkx : ilog2 (Qabs x) = ilog2 x) by (apply ilog2_proper; lra).
    assert (Hky : ilog2 (Qabs y) = ilog2 y) by (apply ilog2_proper; lra).
    unfold exponent in He, Hne |- *. rewrite Hkx, Hky in *.
    unfold prec, emin in *.
    apply Qle_trans with (pow2 (ilog2 y)).
    + apply round_le_pow2; [exact Hx| |].
      * apply Qle_trans with (pow2 (ilog2 x + 1)); [lra|]. apply pow2_le. lia.
      * unfold exponent, prec, emin. rewrite Hkx. lia.
    + apply round_ge_pow2; [exact Hy1|].
      unfold exponent, prec, emin. rewrite Hky. lia.
Qed.

Theorem round_le (x y : Q) : x <= y -> round x <= round y.
Proof.
  intros Hxy.
  destruct (Qlt_le_dec 0 x) as [Hx|Hx].
  - apply round_le_pos; assumption.
  - destruct (Qlt_le_dec y 0) as [Hy|Hy].
    + assert (H : round (- y) <= round (- x)) by (apply round_le_pos; lra).
      rewrite !round_opp in H. lra.
    + apply Qle_trans with 0.
      * assert (H : 0 <= round (- x)) by (apply round_nonneg; lra).
        rewrite round_opp in H. lra.
      * apply round_nonneg. exact Hy.
Qed.

(** *** Exactly representable values *)

Lemma pow2_le_inv (a b : Z) : pow2 a <= pow2 b -> (a <= b)%Z.
Proof. intros H. eapply Qpower_le_compat_l_inv; [exact H | reflexivity]. Qed.

Lemma round_canonical (x : Q) : Qred (round x) = round x.
Proof.
  unfold round. destruct (Qeq_bool x 0); [reflexivity|].
  apply Qred_involutive.
Qed.

Lemma Qred_inject_Z (n : Z) : Qred (inject_Z n) = inject_Z n.
Proof. apply Qred_identity. simpl. apply Z.gcd_1_r. Qed.

(** A multiple of its own unit in the last place is not changed. *)
Lemma round_exact (x : Q) (m : Z) :
  x == inject_Z m * pow2 (exponent x) -> round x == x.
Proof.
  intros Hm. destruct (Qeq_dec x 0) as [Hz|Hnz].
  - rewrite (round_zero x Hz). symmetry. exact Hz.
  - rewrite round_value by exact Hnz.
    pose proof (pow2_pos (exponent x)) as Hp.
    rewrite (rne_proper (x / pow2 (exponent x)) (inject_Z m)).
    + rewrite rne_Z. symmetry. exact Hm.
    + rewrite Hm at 1. field. lra.
Qed.

Lemma ilog2_inject_Z (n : Z) : (0 < n)%Z -> ilog2 (inject_Z n) = Z.log2 n.
Proof.
  intros Hn. destruct (Z.log2_spec n Hn) as [H1 H2].
  pose proof (Z.log2_nonneg n) as H0.
  apply ilog2_unique.
  - rewrite pow2_Z by lia. rewrite <- Zle_Qle. exact H1.
  - rewrite pow2_Z by lia. rewrite <- Zlt_Qlt.
    replace (Z.log2 n + 1)%Z with (Z.succ (Z.log2 n)) by lia. exact H2.
Qed.

Lemma round_Z_pos (n : Z) :
  (0 < n <= 2 ^ 53)%Z -> round (inject_Z n) == inject_Z n.
Proof.
  intros [Hn Hle].
  assert (Hx : 0 < inject_Z n).
  { change 0 with (inject_Z 0). rewrite <- Zlt_Qlt. exact Hn. }
  assert (He : exponent (inject_Z n) = (Z.log2 n - 52)%Z).
  { unfold exponent, prec, emin.
    rewrite (ilog2_proper (Qabs (inject_Z n)) (inject_Z n)).
    - rewrite ilog2_inject_Z by exact Hn. pose proof (Z.log2_nonneg n). lia.
    - rewrite Qabs_pos by lra. exact Hx.
    - apply Qabs_pos. lra. }
  assert (Hl : (Z.log2 n <= 53)%Z).
  { rewrite <- (Z.log2_pow2 53%Z) by lia. apply Z.log2_le_mono. exact Hle. }
  destruct (Z.log2_spec n Hn) as [Hs1 Hs2].
  destruct (Z.eq_dec (Z.log2 n) 53%Z) as [H53|H53].
  - assert (Hn53 : n = (2 ^ 53)%Z) by (rewrite H53 in Hs1; lia).
    apply (round_exact _ (2 ^ 52)%Z). rewrite He, H53, Hn53. reflexivity.
  - apply (round_exact _ (n * 2 ^ (52 - Z.log2 n))%Z). rewrite He.
    rewrite inject_Z_mult, <- pow2_Z by lia. rewrite <- Qmult_assoc, <- pow2_add.
    replace (52 - Z.log2 n + (Z.log2 n - 52))%Z with 0%Z by lia.
    change (pow2 0) with 1. ring.
Qed.

Theorem round_Z (n : Z) :
  (Z.abs n <= 2 ^ 53)%Z -> round (inject_Z n) = inject_Z n.
Proof.
  intros Hn.
  transitivity (Qred (round (inject_Z n))); [symmetry; apply round_canonical|].
  transitivity (Qred (inject_Z n)); [|apply Qred_inject_Z].
  apply Qred_complete.
  destruct (Z.lt_trichotomy n 0%Z) as [Hneg|[->|Hpos]].
  - assert (H : round (inject_Z (- n)) == inject_Z (- n)).
    { apply round_Z_pos. lia. }
    rewrite inject_Z_opp, round_opp in H. lra.
  - reflexivity.
  - apply round_Z_pos. lia.
Qed.

(** *** Bounds *)

Lemma round_abs_le_pow2 (x : Q) (k : Z) :
  (emin <= k)%Z -> Qabs x <= pow2 k -> Qabs (round x) <= pow2 k.
Proof.
  intros Hk Hx. pose proof (pow2_pos k) as Hpk.
  assert (Hpos : forall y, 0 < y -> y <= pow2 k -> round y <= pow2 k).
  { intros y Hy Hyk. apply round_le_pow2; [exact Hy | exact Hyk |].
    assert (Ha : Qabs y == y) by (apply Qabs_pos; lra).
    unfold exponent. destruct (ilog2_spec (Qabs y)) as [Hl _]; [lra|].
    assert (ilog2 (Qabs y) <= k)%Z by (apply pow2_le_inv; lra).
    unfold prec. lia. }
  apply Qabs_Qle_condition in Hx. destruct Hx as [Hx1 Hx2].
  apply Qabs_Qle_condition.
  destruct (Qlt_le_dec 0 x) as [H0|H0].
  - split; [|apply Hpos; assumption].
    pose proof (round_nonneg x). lra.
  - destruct (Qeq_dec x 0) as [Hz|Hnz].
    + rewrite (round_zero x Hz). lra.
    + assert (Hlt : x < 0).
      { apply Qle_lteq in H0. destruct H0; [assumption | contradiction]. }
      assert (H : round (- x) <= pow2 k) by (apply Hpos; lra).
      assert (H' : 0 <= round (- x)) by (apply round_nonneg; lra).
      rewrite round_opp in H, H'. lra.
Qed.

Lemma rnd_finite (x : Q) (k : Z) :
  (emin <= k < emax)%Z -> Qabs x <= pow2 k -> rnd x = Fin (round x).
Proof.
  intros [Hk1 Hk2] Hx. unfold rnd.
  pose proof (round_abs_le_pow2 x k Hk1 Hx) as Hr.
  pose proof (pow2_lt k emax Hk2) as Hlt.
  destruct (Qle_bool (pow2 emax) (Qabs (round x))) eqn:Hb; [|reflexivity].
  apply Qle_bool_iff in Hb. exfalso. lra.
Qed.

Lemma rnd_Z (n : Z) : (Z.abs n <= 2 ^ 53)%Z -> rnd (inject_Z n) = Fin (inject_Z n).
Proof.
  intros Hn. rewrite (rnd_finite _ 53%Z).
  - rewrite round_Z by exact Hn. reflexivity.
  - unfold emin, emax. lia.
  - rewrite pow2_Z by lia.
    change (Qabs (inject_Z n)) with (inject_Z (Z.abs n)).
    rewrite <- Zle_Qle. exact Hn.
Qed.

(** *** Truncation *)

Lemma trunc_le (x y : Q) : x <= y -> (trunc x <= trunc y)%Z.
Proof.
  intros Hxy. unfold trunc.
  destruct (Qle_bool 0 x) eqn:Hx; destruct (Qle_bool 0 y) eqn:Hy.
  - apply Qfloor_resp_le. exact Hxy.
  - apply Qle_bool_iff in Hx.
    assert (~ 0 <= y) by (intros H; apply Qle_bool_iff in H; congruence).
    exfalso. lra.
  - assert (Hx' : x < 0).
    { apply Qnot_le_lt. intros H. apply Qle_bool_iff in H. congruence. }
    apply Qle_bool_iff in Hy.
    apply Z.le_trans with 0%Z.
    + rewrite <- (Qceiling_Z 0). apply Qceiling_resp_le.
      change (inject_Z 0) with 0. lra.
    + rewrite <- (Qfloor_Z 0). apply Qfloor_resp_le. exact Hy.
  - apply Qceiling_resp_le. exact Hxy.
Qed.

Lemma trunc_Z (n : Z) : trunc (inject_Z n) = n.
Proof.
  unfold trunc. destruct (Qle_bool 0 (inject_Z n));
    [apply Qfloor_Z | apply Qceiling_Z].
Qed.

Lemma trunc_proper (x y : Q) : x == y -> trunc x = trunc y.
Proof.
  intros H. apply Z.le_antisymm; apply trunc_le; lra.
Qed.

(** *** Sign symmetry *)

Lemma negative_opp (q : Q) : ~ q == 0 -> negative (- q) = negb (negative q).
Proof.
  intros Hq. unfold negative.
  destruct (Qle_bool 0 q) eqn:H1; destruct (Qle_bool 0 (- q)) eqn:H2;
    try reflexivity; exfalso.
  - apply Qle_bool_iff in H1, H2. apply Hq. lra.
  - assert (Ha : ~ 0 <= q).
    { intros Hc. apply Qle_bool_iff in Hc. congruence. }
    assert (Hb : ~ 0 <= - q).
    { intros Hc. apply Qle_bool_iff in Hc. congruence. }
    lra.
Qed.

Lemma rnd_opp (q : Q) : rnd (- q) = neg (rnd q).
Proof.
  unfold rnd. rewrite round_opp.
  assert (Ha : Qabs (- round q) == Qabs (round q)) by apply Qabs_opp.
  assert (Hb : Qle_bool (pow2 emax) (Qabs (- round q))
               = Qle_bool (pow2 emax) (Qabs (round q))).
  { destruct (Qle_bool (pow2 emax) (Qabs (round q))) eqn:H1.
    - apply Qle_bool_iff. apply Qle_bool_iff in H1. lra.
    - destruct (Qle_bool (pow2 emax) (Qabs (- round q))) eqn:H2;
        [|reflexivity].
      apply Qle_bool_iff in H2.
      assert (Hc : pow2 emax <= Qabs (round q)) by lra.
      apply Qle_bool_iff in Hc. congruence. }
  rewrite Hb. destruct (Qle_bool (pow2 emax) (Qabs (round q))) eqn:H1;
    [|reflexivity].
  simpl. f_equal. apply negative_opp. intros H0.
  apply Qle_bool_iff in H1. rewrite H0 in H1.
  pose proof (pow2_pos emax). change (Qabs 0) with 0 in H1. lra.
Qed.

Lemma Qeq_bool_opp (q : Q) : Qeq_bool (- q) 0 = Qeq_bool q 0.
Proof.
  destruct (Qeq_bool q 0) eqn:H.
  - apply Qeq_bool_iff. apply Qeq_bool_iff in H. lra.
  - apply Qeq_bool_false. apply Qeq_bool_neq in H. intros H'. apply H. lra.
Qed.

Lemma rnd_proper (x y : Q) : x == y -> rnd x = rnd y.
Proof. intros H. unfold rnd. rewrite (round_proper x y H). reflexivity. Qed.

(** [x * (-y) = -(x * y)] *)
Lemma mul_neg_r (x y : float) :
  Binary64.mul x (neg y) = neg (Binary64.mul x y).
Proof.
  destruct x as [a|s|], y as [b|s'|]; simpl; try reflexivity.
  - rewrite <- rnd_opp. apply rnd_proper. ring.
  - destruct (Qeq_bool a 0); [reflexivity|]. simpl.
    destruct (negative a), s'; reflexivity.
  - rewrite Qeq_bool_opp. destruct (Qeq_bool b 0) eqn:Hb; [reflexivity|].
    simpl. rewrite negative_opp by (apply Qeq_bool_neq; exact Hb).
    destruct s, (negative b); reflexivity.
  - destruct s, s'; reflexivity.
Qed.

End Binary64Properties.

(** ** RecamanSequence *)

Section SequenceProperties.
Import RecamanSequence.

(** *** Loop unfolding and successive calls *)

Lemma generateTerms_unfold s n :
  generateTerms s n =
  if len s <? n then let! r := generateNext s in generateTerms (snd r) n
  else Ok s.
Proof.
  funelim (generateTerms s n).
  - rewrite e. reflexivity.
  - rewrite Hlt, Hnext. reflexivity.
  - match goal with
    | Hl : (len _ <? _) = true, Hn : generateNext _ = Raise _ |- _ =>
        rewrite Hl, Hn
    end.
    reflexivity.
Qed.

Lemma generateTerms_calls s n :
  generateTerms s n = calls (Z.to_nat (n - len s)) s.
Proof.
  remember (Z.to_nat (n - len s)) as k eqn:Hk.
  revert s Hk. induction k as [|k IH]; intros s Hk;
    rewrite generateTerms_unfold.
  - destruct (Z.ltb_spec (len s) n); [lia | reflexivity].
  - destruct (Z.ltb_spec (len s) n); [|lia].
    simpl. destruct (generateNext s) as [[v s']|e] eqn:Hnext; [|reflexivity].
    simpl. apply IH. apply generateNext_len in Hnext. lia.
Qed.

Lemma calls_snoc k s :
  calls (S k) s =
  let! s0 := calls k s in let! r := generateNext s0 in Ok (snd r).
Proof.
  revert s. induction k as [|k IH]; intros s.
  - simpl. destruct (generateNext s); reflexivity.
  - transitivity
      (let! r := generateNext s in
       let! s0 := calls k (snd r) in let! r := generateNext s0 in Ok (snd r)).
    + change (calls (S (S k)) s)
        with (let! r := generateNext s in calls (S k) (snd r)).
      destruct (generateNext s) as [[v s']|e]; [|reflexivity].
      apply IH.
    + simpl. destruct (generateNext s); reflexivity.
Qed.

Lemma generateNext_ok s :
  sequence s <> [] ->
  exists a, last (sequence s) = Some a /\
    generateNext s =
    Ok (select (seen s) a (currentStep s),
        {| sequence := sequence s ++ [select (seen s) a (currentStep s)];
           seen := {[ select (seen s) a (currentStep s) ]} ∪ seen s;
           currentStep := currentStep s + 1 |}).
Proof.
  intros Hne. unfold generateNext, lastValue.
  destruct (last (sequence s)) as [a|] eqn:Hlast.
  - exists a. split; reflexivity.
  - apply last_None in Hlast. contradiction.
Qed.

Lemma generateNext_inv s v s' :
  generateNext s = Ok (v, s') ->
  exists a, last (sequence s) = Some a /\
    v = select (seen s) a (currentStep s) /\
    sequence s' = sequence s ++ [v] /\
    seen s' = {[ v ]} ∪ seen s /\
    currentStep s' = currentStep s + 1.
Proof.
  unfold generateNext, lastValue.
  destruct (last (sequence s)) as [a|]; [|discriminate].
  simpl. intros [= <- <-]. exists a. simpl. repeat split.
Qed.

Lemma calls_reachable k s s' :
  reachable s -> calls k s = Ok s' -> reachable s'.
Proof.
  revert s. induction k as [|k IH]; intros s Hr; simpl.
  - intros [= <-]. exact Hr.
  - destruct (generateNext s) as [[v s1]|e] eqn:Hn; [|discriminate].
    simpl. apply IH. exact (reach_next _ _ _ Hr Hn).
Qed.

Lemma calls_ok k s :
  sequence s <> [] ->
  exists s', calls k s = Ok s' /\ sequence s' <> [] /\
    len s' = len s + Z.of_nat k.
Proof.
  revert s. induction k as [|k IH]; intros s Hne.
  - exists s. repeat split; [assumption | lia].
  - destruct (generateNext_ok s Hne) as (a & _ & Hn).
    simpl. rewrite Hn. simpl.
    match goal with |- context [calls k ?s1] =>
      destruct (IH s1) as (s' & Hc & Hne' & Hlen)
    end.
    { simpl. intros H. apply app_eq_nil in H. destruct H. discriminate. }
    exists s'. repeat split; [assumption | assumption |].
    rewrite Hlen. unfold len. simpl. rewrite length_app. simpl. lia.
Qed.

(** ** The selection rule, as a proposition *)

(** [rule earlier a n b]: [b] is [a - n] when that is strictly positive and
    not among [earlier], and [a + n] otherwise. *)
Definition rule (earlier : list Z) (a n b : Z) : Prop :=
  (0 < a - n /\ (a - n ∉ earlier) /\ b = a - n) \/
  ((a - n <= 0 \/ (a - n ∈ earlier)) /\ b = a + n).

Lemma select_rule (earlier : list Z) (a n : Z) :
  rule earlier a n (select (list_to_set earlier) a n).
Proof.
  unfold rule, select. destruct (Z.ltb_spec 0 (a - n)); simpl.
  - case_bool_decide as Hin; simpl; rewrite elem_of_list_to_set in Hin.
    + right. split; [right; assumption | reflexivity].
    + left. repeat split; assumption.
  - right. split; [left; assumption | reflexivity].
Qed.

Lemma select_pos (sn : gset Z) (a n : Z) :
  0 <= a -> 0 < n -> 0 < select sn a n.
Proof.
  intros Ha Hn. unfold select.
  destruct (Z.ltb_spec 0 (a - n)); simpl; [|lia].
  case_bool_decide; simpl; lia.
Qed.

(** ** Invariant of the generator *)

Record invariant (s : t) : Prop := {
  inv_nonempty : sequence s <> [];
  inv_step : currentStep s = len s;
  inv_seen : seen s = list_to_set (sequence s);
  inv_head : sequence s !! 0%nat = Some 0;
  inv_rule : forall (i : nat) (a b : Z),
      sequence s !! i = Some a -> sequence s !! S i = Some b ->
      rule (take (S i) (sequence s)) a (Z.of_nat (S i)) b;
  inv_nonneg : Forall (fun x => 0 <= x) (sequence s);
  inv_pos : forall (i : nat) (x : Z),
      sequence s !! S i = Some x -> 0 < x
}.

Lemma invariant_init : invariant init.
Proof.
  split; simpl; try done.
  repeat constructor. lia.
Qed.

Lemma invariant_next s v s' :
  invariant s -> generateNext s = Ok (v, s') -> invariant s'.
Proof.
  intros [Hne Hstep Hseen Hhead Hrule Hnn Hpos] Hnext.
  destruct (generateNext_inv _ _ _ Hnext) as (a & Hlast & Hv & Hseq & Hsn & Hst).
  assert (Hla : sequence s !! pred (length (sequence s)) = Some a).
  { rewrite <- Hlast. symmetry. apply last_lookup. }
  assert (Hlen : (0 < length (sequence s))%nat).
  { destruct (sequence s); [contradiction | simpl; lia]. }
  assert (Ha : 0 <= a).
  { eapply Forall_lookup_1 in Hnn; [exact Hnn | exact Hla]. }
  assert (Hvpos : 0 < v).
  { rewrite Hv. apply select_pos; [assumption|]. rewrite Hstep. unfold len. lia. }
  split.
  - rewrite Hseq. intros H. apply app_eq_nil in H. destruct H. discriminate.
  - rewrite Hst, Hstep. unfold len. rewrite Hseq, length_app. simpl. lia.
  - rewrite Hsn, Hseq, Hseen. rewrite list_to_set_app_L. simpl.
    rewrite (right_id_L ∅ (∪)). apply (comm_L (∪)).
  - rewrite Hseq. rewrite lookup_app_l by assumption. exact Hhead.
  - intros i x y. rewrite Hseq. intros Hx Hy.
    destruct (decide (S i < length (sequence s))%nat) as [Hi|Hi].
    + rewrite lookup_app_l in Hx by lia. rewrite lookup_app_l in Hy by lia.
      rewrite take_app_le by lia. eauto.
    + assert (Hie : S i = length (sequence s)).
      { apply lookup_lt_Some in Hy. rewrite length_app in Hy. simpl in Hy. lia. }
      rewrite lookup_app_l in Hx by lia.
      rewrite Hie in Hy. rewrite list_lookup_middle in Hy by reflexivity.
      injection Hy as <-.
      replace i with (pred (length (sequence s))) in Hx by lia.
      rewrite Hla in Hx. injection Hx as <-.
      rewrite Hie. rewrite take_app_length.
      rewrite Hv, Hseen, Hstep. apply select_rule.
  - rewrite Hseq. apply Forall_app. split; [assumption|].
    repeat constructor. lia.
  - intros i x. rewrite Hseq. intros Hx.
    destruct (decide (S i < length (sequence s))%nat) as [Hi|Hi].
    + rewrite lookup_app_l in Hx by lia. eauto.
    + assert (Hie : S i = length (sequence s)).
      { apply lookup_lt_Some in Hx. rewrite length_app in Hx. simpl in Hx. lia. }
      rewrite Hie in Hx. rewrite list_lookup_middle in Hx by reflexivity.
      injection Hx as <-. exact Hvpos.
Qed.

Lemma reachable_invariant s : reachable s -> invariant s.
Proof.
  induction 1 as [|s v s' _ IH Hnext].
  - exact invariant_init.
  - exact (invariant_next _ _ _ IH Hnext).
Qed.

Lemma generateTerms_init_calls (n : Z) :
  1 <= n -> generateTerms init n = calls (Z.to_nat (n - 1)) init.
Proof. intros _. rewrite generateTerms_calls. reflexivity. Qed.

Lemma fold_max_ge (l : list Z) (x : Z) :
  x <= fold_left Z.max l x /\ Forall (fun y => y <= fold_left Z.max l x) l.
Proof.
  revert x. induction l as [|y l IH]; intros x; simpl.
  - split; [lia | constructor].
  - destruct (IH (Z.max x y)) as [H1 H2]. split; [lia|].
    constructor; [lia | exact H2].
Qed.

(** ** Properties of the generator *)

(** C1. For every n >= 1, generating from the initial state to n+1 terms
    succeeds; the sequence starts with 0 and its term n is obtained from term
    n-1 by the selection rule with step n against the earlier terms
    [sequence[0..n-1]].  Equivalently, the call of [generateNext] that
    appends term n starts from the state holding n terms, whose step counter
    is n and whose seen-set is the set of those n terms. *)
Theorem selection_rule_holds (n : Z) :
  1 <= n ->
  exists (s0 s : t) (a b : Z),
    generateTerms init n = Ok s0 /\
    generateTerms init (n + 1) = Ok s /\
    len s = n + 1 /\
    sequence s !! 0%nat = Some 0 /\
    sequence s !! Z.to_nat (n - 1) = Some a /\
    sequence s !! Z.to_nat n = Some b /\
    rule (take (Z.to_nat n) (sequence s)) a n b /\
    (forall (i : nat) (x y : Z),
        sequence s !! i = Some x -> sequence s !! S i = Some y ->
        rule (take (S i) (sequence s)) x (Z.of_nat (S i)) y) /\
    currentStep s0 = n /\
    sequence s0 = take (Z.to_nat n) (sequence s) /\
    seen s0 = list_to_set (sequence s0) /\
    generateNext s0 = Ok (b, s) /\
    b = select (seen s0) a (currentStep s0).
Proof.
  intros Hn.
  destruct (calls_ok (Z.to_nat (n - 1)) init) as (s0 & Hc0 & Hne0 & Hlen0);
    [discriminate|].
  assert (Hr0 : reachable s0) by exact (calls_reachable _ _ _ reach_init Hc0).
  destruct (reachable_invariant _ Hr0) as [_ Hstep Hseen _ _ _ _].
  destruct (generateNext_ok s0 Hne0) as (a & Hlast & Hnext).
  set (b := select (seen s0) a (currentStep s0)) in *.
  set (s := {| sequence := sequence s0 ++ [b];
               seen := {[ b ]} ∪ seen s0;
               currentStep := currentStep s0 + 1 |}) in *.
  assert (Hr : reachable s) by exact (reach_next _ _ _ Hr0 Hnext).
  destruct (reachable_invariant _ Hr) as [_ _ _ Hhead Hrule _ _].
  assert (Hl0 : length (sequence s0) = Z.to_nat n).
  { unfold len in Hlen0. change (length (sequence init)) with 1%nat in Hlen0. lia. }
  assert (Ha : sequence s !! Z.to_nat (n - 1) = Some a).
  { simpl. rewrite lookup_app_l by lia. rewrite <- Hlast, last_lookup.
    f_equal. lia. }
  assert (Hb : sequence s !! Z.to_nat n = Some b).
  { simpl. rewrite <- Hl0. apply list_lookup_middle. reflexivity. }
  exists s0, s, a, b. repeat split.
  - rewrite generateTerms_init_calls by lia. exact Hc0.
  - rewrite generateTerms_init_calls by lia.
    replace (Z.to_nat (n + 1 - 1)) with (S (Z.to_nat (n - 1))) by lia.
    rewrite calls_snoc, Hc0. simpl. rewrite Hnext. reflexivity.
  - unfold len. simpl. rewrite length_app. simpl. lia.
  - exact Hhead.
  - exact Ha.
  - exact Hb.
  - specialize (Hrule (Z.to_nat (n - 1)) a b).
    replace (S (Z.to_nat (n - 1))) with (Z.to_nat n) in Hrule by lia.
    replace (Z.of_nat (Z.to_nat n)) with n in Hrule by lia.
    apply Hrule; assumption.
  - exact Hrule.
  - rewrite Hstep. unfold len. lia.
  - simpl. rewrite <- Hl0. symmetry. apply take_app_length.
  - exact Hseen.
  - exact Hnext.
Qed.

Lemma selection_rule_holds_witness :
  exists (s0 s : t) (a b : Z),
    generateTerms init 3 = Ok s0 /\
    generateTerms init (3 + 1) = Ok s /\
    len s = 3 + 1 /\
    sequence s !! 0%nat = Some 0 /\
    sequence s !! Z.to_nat (3 - 1) = Some a /\
    sequence s !! Z.to_nat 3 = Some b /\
    rule (take (Z.to_nat 3) (sequence s)) a 3 b /\
    (forall (i : nat) (x y : Z),
        sequence s !! i = Some x -> sequence s !! S i = Some y ->
        rule (take (S i) (sequence s)) x (Z.of_nat (S i)) y) /\
    currentStep s0 = 3 /\
    sequence s0 = take (Z.to_nat 3) (sequence s) /\
    seen s0 = list_to_set (sequence s0) /\
    generateNext s0 = Ok (b, s) /\
    b = select (seen s0) a (currentStep s0).
Proof. apply (selection_rule_holds 3). lia. Defined.

(** The terms after [k] calls from the initial state, by evaluation. *)
Lemma calls_init_sequence (k : nat) (l : list Z) :
  match calls k init with Ok s => sequence s | Raise _ => [] end = l ->
  l <> [] ->
  exists s : t,
    generateTerms init (Z.of_nat (S k)) = Ok s /\ calls k init = Ok s /\
    sequence s = l.
Proof.
  intros Hl Hne.
  destruct (calls_ok k init) as (s & Hc & _ & _); [discriminate|].
  exists s. rewrite Hc in Hl. repeat split; [|assumption|assumption].
  rewrite generateTerms_init_calls by lia.
  replace (Z.to_nat (Z.of_nat (S k) - 1)) with k by lia. exact Hc.
Qed.

(** C2, as the program computes it. Generating from the initial state
    (seed [0], step counter 1) to 10 terms yields
    [0,1,3,6,2,7,13,20,12,21]. *)
Theorem first_ten_terms :
  exists s : t,
    generateTerms init 10 = Ok s /\
    sequence s = [0; 1; 3; 6; 2; 7; 13; 20; 12; 21].
Proof.
  destruct (calls_init_sequence 9 [0; 1; 3; 6; 2; 7; 13; 20; 12; 21])
    as (s & Hs & _ & Hseq); [vm_compute; reflexivity | discriminate |].
  exists s. split; assumption.
Qed.

(** C2, as stated, fails: the 10 terms generated are not
    [0,1,3,2,6,5,10,9,15,8]. *)
Lemma first_ten_terms_not_as_stated :
  ~ exists s : t,
      generateTerms init 10 = Ok s /\
      sequence s = [0; 1; 3; 2; 6; 5; 10; 9; 15; 8].
Proof.
  intros (s & Hs & Hseq).
  destruct (calls_init_sequence 9 [0; 1; 3; 6; 2; 7; 13; 20; 12; 21])
    as (s' & Hs' & _ & Hseq'); [vm_compute; reflexivity | discriminate |].
  change (Z.of_nat 10) with 10 in Hs'.
  rewrite Hs in Hs'. injection Hs' as <-.
  rewrite Hseq in Hseq'. discriminate.
Qed.

Lemma size_add_le (x : Z) (X : gset Z) :
  (size X <= size ({[ x ]} ∪ X) <= S (size X))%nat.
Proof.
  split.
  - apply subseteq_size. apply union_subseteq_r.
  - destruct (decide (x ∈ X)) as [Hin|Hout].
    + replace ({[ x ]} ∪ X) with X; [lia|].
      apply set_eq. intros y. rewrite elem_of_union, elem_of_singleton.
      split; [auto | intros [->|?]; assumption].
    + rewrite size_union.
      * rewrite size_singleton. lia.
      * intros y Hy1 Hy2. apply elem_of_singleton in Hy1. congruence.
Qed.

Lemma size_list_to_set_le (l : list Z) :
  (size (list_to_set l : gset Z) <= length l)%nat.
Proof.
  induction l as [|x l IH].
  - change (size (∅ : gset Z) <= 0)%nat. rewrite size_empty. lia.
  - change (size ({[ x ]} ∪ (list_to_set l : gset Z)) <= S (length l))%nat.
    pose proof (size_add_le x (list_to_set l)). lia.
Qed.

(** C7, as the program behaves. The seen-set is append-only: a call of
    [generateNext] (which succeeds on every non-empty sequence) keeps every
    member and adds the appended term, so the set gains at most one member
    per appended term; in every reachable state the seen-set is exactly the
    set of values of the sequence, so its size is at most the number of
    terms. *)
Theorem seen_append_only (s : t) :
  sequence s <> [] ->
  exists (v : Z) (s' : t),
    generateNext s = Ok (v, s') /\
    seen s ⊆ seen s' /\
    seen s' = {[ v ]} ∪ seen s /\
    sequence s' = sequence s ++ [v] /\
    (size (seen s) <= size (seen s') <= S (size (seen s)))%nat /\
    (reachable s ->
     seen s' = list_to_set (sequence s') /\
     (size (seen s') <= length (sequence s'))%nat).
Proof.
  intros Hne. destruct (generateNext_ok s Hne) as (a & _ & Hnext).
  eexists _, _. split; [exact Hnext|]. simpl. repeat split.
  - apply union_subseteq_r.
  - apply size_add_le.
  - apply size_add_le.
  - pose proof (reachable_invariant _ (reach_next _ _ _ H Hnext)) as Hinv.
    destruct Hinv as [_ _ Hseen _ _ _ _]. exact Hseen.
  - pose proof (reachable_invariant _ (reach_next _ _ _ H Hnext)) as Hinv.
    destruct Hinv as [_ _ Hseen _ _ _ _]. simpl in Hseen. rewrite Hseen.
    apply size_list_to_set_le.
Qed.

Lemma seen_append_only_witness :
  exists (v : Z) (s' : t),
    generateNext init = Ok (v, s') /\
    seen init ⊆ seen s' /\
    seen s' = {[ v ]} ∪ seen init /\
    sequence s' = sequence init ++ [v] /\
    (size (seen init) <= size (seen s') <= S (size (seen init)))%nat /\
    (reachable init ->
     seen s' = list_to_set (sequence s') /\
     (size (seen s') <= length (sequence s'))%nat).
Proof. apply (seen_append_only init). discriminate. Defined.

(** C7, as stated, fails: after 24 calls from the initial state the
    sequence holds 25 terms (42 occurs at indices 20 and 24) while the
    seen-set holds 24 members. *)
Lemma seen_size_not_lockstep :
  exists s : t,
    calls 24 init = Ok s /\ reachable s /\
    length (sequence s) = 25%nat /\ size (seen s) = 24%nat /\
    sequence s !! 20%nat = Some 42 /\ sequence s !! 24%nat = Some 42.
Proof.
  destruct (calls_ok 24 init) as (s & Hc & _ & _); [discriminate|].
  exists s. split; [exact Hc|].
  split; [exact (calls_reachable _ _ _ reach_init Hc)|].
  vm_compute in Hc. injection Hc as <-.
  repeat split; vm_compute; reflexivity.
Qed.

(** C9. [generateTerms] is a total function (its recursion is on the
    distance to the target, and each call of [generateNext] lengthens the
    sequence by exactly one); from every state with a non-empty sequence it
    returns normally, the sequence then holds [max(n, previous length)]
    terms, and it is a no-op when the sequence already holds [n] terms. *)
Theorem generateTerms_length (s : t) (n : Z) :
  sequence s <> [] ->
  (forall s0 v s1, generateNext s0 = Ok (v, s1) -> len s1 = len s0 + 1) /\
  exists s' : t,
    generateTerms s n = Ok s' /\
    len s' = Z.max n (len s) /\
    (n <= len s -> s' = s).
Proof.
  intros Hne. split; [exact generateNext_len|].
  rewrite generateTerms_calls.
  destruct (calls_ok (Z.to_nat (n - len s)) s Hne) as (s' & Hc & _ & Hlen).
  exists s'. repeat split.
  - exact Hc.
  - lia.
  - intros Hle. replace (Z.to_nat (n - len s)) with 0%nat in Hc by lia.
    simpl in Hc. congruence.
Qed.

Lemma generateTerms_length_witness :
  (forall s0 v s1, generateNext s0 = Ok (v, s1) -> len s1 = len s0 + 1) /\
  exists s' : t,
    generateTerms init 5 = Ok s' /\
    len s' = Z.max 5 (len init) /\
    (5 <= len init -> s' = init).
Proof. apply (generateTerms_length init 5). discriminate. Defined.

(** C10. In every reachable state of the generator all terms are
    non-negative and every term at index >= 1 is strictly positive;
    consequently [getMaxValue] is >= 0, and > 0 as soon as the sequence
    holds two terms. *)
Theorem terms_nonnegative (s : t) :
  reachable s ->
  Forall (fun x => 0 <= x) (sequence s) /\
  (forall (i : nat) (x : Z),
      (1 <= i)%nat -> sequence s !! i = Some x -> 0 < x) /\
  0 <= getMaxValue s /\
  (2 <= len s -> 0 < getMaxValue s).
Proof.
  intros Hr. destruct (reachable_invariant _ Hr) as [Hne _ _ Hhead _ Hnn Hpos].
  split; [exact Hnn|]. split.
  { intros [|i] x Hi; [lia|]. apply Hpos. }
  unfold getMaxValue, len. destruct (sequence s) as [|x0 l]; [contradiction|].
  injection Hhead as ->.
  destruct (fold_max_ge l 0) as [H0 Hall]. split; [exact H0|].
  simpl. intros Hlen. destruct l as [|x1 l]; [simpl in Hlen; lia|].
  specialize (Hpos 0%nat x1 eq_refl).
  apply Forall_inv in Hall. lia.
Qed.

Lemma terms_nonnegative_witness :
  exists s : t,
    calls 3 init = Ok s /\
    Forall (fun x => 0 <= x) (sequence s) /\
    (forall (i : nat) (x : Z),
        (1 <= i)%nat -> sequence s !! i = Some x -> 0 < x) /\
    0 <= getMaxValue s /\
    (2 <= len s -> 0 < getMaxValue s).
Proof.
  destruct (calls_ok 3 init) as (s & Hc & _ & _); [discriminate|].
  exists s. split; [exact Hc|].
  apply (terms_nonnegative s).
  exact (calls_reachable _ _ _ reach_init Hc).
Defined.

End SequenceProperties.

(** ** Python arithmetic: which exceptions can occur *)

Section PythonProperties.
Import Binary64 Py.

Lemma to_float_error (x : num) (e : exn) :
  to_float x = Raise e -> e = OverflowError.
Proof.
  destruct x as [z|f]; simpl; [|discriminate].
  destruct (rnd (inject_Z z)); intros [= <-]. reflexivity.
Qed.

Lemma to_float_Int (z : Z) (f : float) :
  to_float (Int z) = Ok f -> f = Fin (round (inject_Z z)).
Proof.
  simpl. unfold rnd.
  destruct (Qle_bool (pow2 emax) (Qabs (round (inject_Z z))));
    [discriminate|]. intros [= <-]. reflexivity.
Qed.

Lemma mul_error (x y : num) (e : exn) :
  Py.mul x y = Raise e -> e = OverflowError.
Proof.
  destruct x as [a|f], y as [b|g]; simpl; try discriminate;
    repeat match goal with
    | |- context [rnd ?q] => destruct (rnd q); simpl
    end; try discriminate; intros [= <-]; reflexivity.
Qed.

Lemma sub_error (x y : num) (e : exn) :
  Py.sub x y = Raise e -> e = OverflowError.
Proof.
  destruct x as [a|f], y as [b|g]; simpl; try discriminate;
    repeat match goal with
    | |- context [rnd ?q] => destruct (rnd q); simpl
    end; try discriminate; intros [= <-]; reflexivity.
Qed.

Lemma round_one_le (m : Z) : 0 < m -> (1 <= round (inject_Z m))%Q.
Proof.
  intros Hm. change 1%Q with (inject_Z 1).
  rewrite <- (round_Z 1) at 1 by (simpl; lia).
  apply round_le. rewrite <- Zle_Qle. lia.
Qed.

(** Dividing by a positive [int] never raises [ZeroDivisionError]. *)
Lemma truediv_pos_error (x : num) (m : Z) (e : exn) :
  0 < m -> Py.truediv x (Int m) = Raise e -> e = OverflowError.
Proof.
  intros Hm. destruct x as [a|f].
  - simpl. destruct (Z.eqb_spec m 0); [lia|].
    destruct (rnd (inject_Z a / inject_Z m)); intros [= <-]; reflexivity.
  - change (Py.truediv (Float f) (Int m))
      with (let! b := to_float (Int m) in
            if is_zero b then Raise ZeroDivisionError
            else Ok (Float (Binary64.div f b))).
    destruct (to_float (Int m)) as [g|e'] eqn:Hg; cbn [bind].
    + apply to_float_Int in Hg. subst g. cbn [is_zero].
      pose proof (round_one_le m Hm) as H1.
      rewrite Qeq_bool_false; [discriminate|].
      intros H0. lra.
    + intros [= <-]. exact (to_float_error _ _ Hg).
Qed.

End PythonProperties.

(** ** RecamanVisualization *)

Section VisualizationProperties.
Import Binary64 Py RecamanVisualization.

Lemma fitScale_error (w : Z) (padding : num) (m : Z) (e : exn) :
  0 < m -> fitScale w padding m = Raise e -> e = OverflowError.
Proof.
  intros Hm. unfold fitScale.
  destruct (Py.mul (Int 2) padding) as [p2|e1] eqn:H1; cbn [bind].
  - destruct (Py.sub (Int w) p2) as [n|e2] eqn:H2; cbn [bind].
    + apply truediv_pos_error. exact Hm.
    + intros [= <-]. exact (sub_error _ _ _ H2).
  - intros [= <-]. exact (mul_error _ _ _ H1).
Qed.

(** C4, as the program behaves. The transform set up by [__init__]: no
    division by zero occurs (the only exception possible is the
    [OverflowError] of a number too large for a float); [offsetY] is
    [viewportHeight * yFraction] in all cases; a maximum value [<= 0] leaves
    [scale = 1.0] and [offsetX = 0.0]; a positive one gives, with
    auto-scaling enabled, [scale = (viewportWidth - 2*padding) / maxValue]
    and [offsetX = padding]; with auto-scaling disabled the defaults
    [scale = 1.0] and [offsetX = 0.0] stay.  The set-up returns whenever the
    product and the quotient it needs are representable. *)
Theorem transform_computed (cfg : Config) (seq : RecamanSequence.t) :
  let maxValue := RecamanSequence.getMaxValue seq in
  let padding := autoScaling_padding cfg in
  let enabled := autoScaling_enabled cfg in
  let offsetY_expr :=
    Py.mul (Int (windowHeight cfg)) (numberLine_yPosition cfg) in
  let scale_expr := fitScale (windowWidth cfg) padding maxValue in
  (forall e, initTransform cfg seq = Raise e -> e = OverflowError) /\
  (forall v, initTransform cfg seq = Ok v ->
     offsetY_expr = Ok (offsetY v) /\
     (maxValue <= 0 ->
      scale v = Float (Fin 1) /\ offsetX v = Float (Fin 0)) /\
     (enabled = true -> 0 < maxValue ->
      scale_expr = Ok (scale v) /\ offsetX v = padding) /\
     (enabled = false ->
      scale v = Float (Fin 1) /\ offsetX v = Float (Fin 0))) /\
  (forall oy, offsetY_expr = Ok oy ->
     (enabled = true -> 0 < maxValue -> exists s, scale_expr = Ok s) ->
     exists v, initTransform cfg seq = Ok v).
Proof.
  intros maxValue padding enabled offsetY_expr scale_expr.
  unfold initTransform, calculateScaling. cbn [config width sequence].
  fold maxValue padding enabled offsetY_expr scale_expr.
  destruct offsetY_expr as [oy|e0] eqn:Hoy; cbn [bind].
  2: { split; [|split]; [|discriminate|discriminate].
       intros e [= <-]. exact (mul_error _ _ _ Hoy). }
  destruct enabled eqn:Hen; cbn [negb].
  - destruct (Z.ltb_spec 0 maxValue) as [Hpos|Hnpos].
    + destruct scale_expr as [s|e1] eqn:Hs; cbn [bind].
      * split; [discriminate|]. split.
        -- intros v [= <-]. cbn. repeat split; try reflexivity; intros; lia.
        -- intros. eexists. reflexivity.
      * split; [|split]; [|discriminate|].
        -- intros e [= <-]. exact (fitScale_error _ _ _ _ Hpos Hs).
        -- intros oy' _ H. destruct (H eq_refl Hpos) as [s Hs']. discriminate.
    + split; [discriminate|]. split.
      * intros v [= <-]. cbn.
        repeat split; try reflexivity; intros; try lia; discriminate.
      * intros. eexists. reflexivity.
  - split; [discriminate|]. split.
    + intros v [= <-]. cbn.
      repeat split; try reflexivity; intros; discriminate.
    + intros. eexists. reflexivity.
Qed.

(** *** Playback *)

Lemma update_paused (v : t) : paused v = true -> update v = v.
Proof. intros H. unfold update. rewrite H. reflexivity. Qed.

Lemma update_frame (v : t) :
  totalArcs (update v) = totalArcs v /\ paused (update v) = paused v.
Proof.
  unfold update.
  destruct (negb (paused v) && (currentArc v <? totalArcs v));
    split; reflexivity.
Qed.

Lemma update_running (v : t) :
  paused v = false ->
  currentArc (update v) =
  if currentArc v <? totalArcs v then currentArc v + 1 else currentArc v.
Proof.
  intros H. unfold update. rewrite H. simpl.
  destruct (currentArc v <? totalArcs v); reflexivity.
Qed.

Lemma ticks_frame (n : nat) (v : t) :
  totalArcs (ticks n v) = totalArcs v /\ paused (ticks n v) = paused v.
Proof.
  revert v. induction n as [|n IH]; intros v; simpl; [split; reflexivity|].
  destruct (IH (update v)) as [H1 H2]. destruct (update_frame v) as [H3 H4].
  split; congruence.
Qed.

Lemma ticks_running (n : nat) (v : t) :
  paused v = false -> currentArc v <= totalArcs v ->
  currentArc (ticks n v) = Z.min (currentArc v + Z.of_nat n) (totalArcs v).
Proof.
  revert v. induction n as [|n IH]; intros v Hp Hle.
  - simpl. lia.
  - destruct (update_frame v) as [Ht Hpa].
    pose proof (update_running v Hp) as Hu.
    change (ticks (S n) v) with (ticks n (update v)).
    rewrite IH; [| congruence |];
      destruct (Z.ltb_spec (currentArc v) (totalArcs v)); lia.
Qed.

Lemma ticks_bounded (n : nat) (v : t) :
  currentArc v <= totalArcs v -> currentArc (ticks n v) <= totalArcs v.
Proof.
  revert v. induction n as [|n IH]; intros v Hle; [exact Hle|].
  change (ticks (S n) v) with (ticks n (update v)).
  destruct (update_frame v) as [Ht _]. rewrite <- Ht. apply IH. rewrite Ht.
  unfold update.
  destruct (negb (paused v)); simpl; [|exact Hle].
  destruct (Z.ltb_spec (currentArc v) (totalArcs v)); simpl; lia.
Qed.

Lemma handleEvent_bounded (v : t) (e : event) :
  0 <= currentArc v <= totalArcs v ->
  0 <= currentArc (handleEvent v e) <= totalArcs (handleEvent v e).
Proof.
  intros H. destruct e as [|[]|]; cbn; try exact H. unfold totalArcs in *.
  cbn. lia.
Qed.

Lemma handleEvents_bounded (events : list event) (v : t) :
  0 <= currentArc v <= totalArcs v ->
  0 <= currentArc (handleEvents v events)
    <= totalArcs (handleEvents v events).
Proof.
  revert v. induction events as [|e events IH]; intros v H; [exact H|].
  apply IH. apply handleEvent_bounded. exact H.
Qed.

Lemma update_bounded (v : t) :
  0 <= currentArc v <= totalArcs v ->
  0 <= currentArc (update v) <= totalArcs (update v).
Proof.
  intros H. unfold update.
  destruct (negb (paused v)); simpl; [|exact H].
  destruct (Z.ltb_spec (currentArc v) (totalArcs v)); [|exact H].
  unfold totalArcs in *. cbn. lia.
Qed.

(** Whatever the input, the reveal index stays within [0, totalArcs]. *)
Lemma frames_bounded (batches : list (list event)) (v : t) :
  0 <= currentArc v <= totalArcs v ->
  0 <= currentArc (frames v batches) <= totalArcs (frames v batches).
Proof.
  revert v. induction batches as [|b batches IH]; intros v H; [exact H|].
  apply IH. apply update_bounded, handleEvents_bounded. exact H.
Qed.

(** The object [__init__] builds starts at arc 0, not paused, over a
    non-empty sequence. *)
Lemma init_state (cfg : Config) (v : t) :
  RecamanVisualization.init cfg = Ok v ->
  currentArc v = 0 /\ paused v = false /\ running v = true /\
  RecamanSequence.reachable (sequence v) /\ 0 <= totalArcs v.
Proof.
  unfold RecamanVisualization.init, initTransform, calculateScaling.
  destruct (RecamanSequence.generateTerms RecamanSequence.init
              (cfg_maxTerms cfg)) as [seq|e] eqn:Hseq; [|discriminate].
  cbn [bind].
  assert (Hr : RecamanSequence.reachable seq).
  { rewrite generateTerms_calls in Hseq.
    exact (calls_reachable _ _ _ RecamanSequence.reach_init Hseq). }
  assert (Hlen : 0 <= RecamanSequence.len seq - 1).
  { destruct (reachable_invariant _ Hr) as [Hne _ _ _ _ _ _].
    unfold RecamanSequence.len.
    destruct (RecamanSequence.sequence seq); [contradiction | simpl; lia]. }
  destruct (Py.mul _ _) as [oy|e]; [|discriminate]. cbn [bind config].
  destruct (negb (autoScaling_enabled cfg)).
  - intros [= <-]. cbn. unfold totalArcs. cbn. auto.
  - cbn [sequence width].
    destruct (0 <? RecamanSequence.getMaxValue seq).
    + destruct (fitScale _ _ _) as [s|e]; [|discriminate].
      intros [= <-]. cbn. unfold totalArcs. cbn. auto.
    + intros [= <-]. cbn. unfold totalArcs. cbn. auto.
Qed.

(** C3. With [totalArcs] the number of terms minus one (the sequence is
    never empty): from [currentArc = 0] and not paused, N ticks bring
    [currentArc] to [min(N, totalArcs)]; a tick while paused changes
    nothing; and ticks never take [currentArc] above [totalArcs]. *)
Theorem ticks_advance (v : t) (N : nat) :
  0 <= totalArcs v ->
  (currentArc v = 0 -> paused v = false ->
   currentArc (ticks N v) = Z.min (Z.of_nat N) (totalArcs v)) /\
  (paused v = true -> update v = v /\ ticks N v = v) /\
  (currentArc v <= totalArcs v ->
   currentArc (ticks N v) <= totalArcs v /\
   currentArc (update v) <= totalArcs v) /\
  totalArcs (ticks N v) = totalArcs v.
Proof.
  intros Hne. repeat split.
  - intros H0 Hp. rewrite ticks_running by (try assumption; lia).
    rewrite H0. reflexivity.
  - apply update_paused. assumption.
  - induction N as [|N IH]; [reflexivity|].
    simpl. rewrite update_paused by assumption. exact IH.
  - apply ticks_bounded. assumption.
  - apply (ticks_bounded 1). assumption.
  - apply ticks_frame.
Qed.

(** *** Reset *)

(** C8. [reset], and so the handling of the reset key, sets [currentArc] to
    0 and leaves everything else as it was: the generated sequence with its
    seen-set and step counter, the paused flag, the screen transform, and
    the remaining attributes. *)
Theorem reset_frame (v : t) :
  currentArc (reset v) = 0 /\
  RecamanSequence.sequence (sequence (reset v))
    = RecamanSequence.sequence (sequence v) /\
  RecamanSequence.seen (sequence (reset v))
    = RecamanSequence.seen (sequence v) /\
  RecamanSequence.currentStep (sequence (reset v))
    = RecamanSequence.currentStep (sequence v) /\
  paused (reset v) = paused v /\
  scale (reset v) = scale v /\
  offsetX (reset v) = offsetX v /\
  offsetY (reset v) = offsetY v /\
  reset v = Build (config v) (width v) (height v) (sequence v) 0
              (maxTerms v) (running v) (paused v)
              (scale v) (offsetX v) (offsetY v) /\
  handleEvents v [KEYDOWN K_r] = reset v.
Proof. repeat split. Qed.

End VisualizationProperties.

(** ** ArcVisualizer: the colour gradient *)

Section ColourProperties.
Import Binary64 Py ArcVisualizer.

(** Channel [k] of the colour list [l] is the 8-bit integer [c]. *)
Definition channel8 (l : list num) (k : nat) (c : Z) : Prop :=
  l !! k = Some (Int c) /\ 0 <= c <= 255.

(** The colour list [l] starts with the three 8-bit channels of [c]. *)
Definition rgb8 (l : list num) (c : Z * Z * Z) : Prop :=
  channel8 l 0 (fst (fst c)) /\ channel8 l 1 (snd (fst c)) /\
  channel8 l 2 (snd c).

(** Value of a channel going from [c0] to [c1], at ratio [r]. *)
Definition gradient (c0 c1 : Z) (r : Q) : Z :=
  trunc (round (inject_Z c0 + round (inject_Z (c1 - c0) * r))).

(** A channel value moves from [x] to [y] in the direction from [c0] to
    [c1]. *)
Definition toward (c0 c1 x y : Z) : Prop :=
  (c0 <= c1 -> x <= y) /\ (c1 <= c0 -> y <= x).

Lemma round_unit_interval (x : Q) :
  (0 <= x <= 1)%Q -> (0 <= round x <= 1)%Q.
Proof.
  intros [H0 H1]. split.
  - apply round_nonneg. exact H0.
  - change 1%Q with (inject_Z 1). rewrite <- (round_Z 1) by (simpl; lia).
    apply round_le. exact H1.
Qed.

Lemma ratio_eval (i d : Z) :
  0 <= i <= d -> 1 <= d ->
  Py.truediv (Int i) (Int d) = Ok (Float (Fin (round (inject_Z i / inject_Z d)))) /\
  (0 <= round (inject_Z i / inject_Z d) <= 1)%Q.
Proof.
  intros Hi Hd.
  assert (Hdq : (0 < inject_Z d)%Q).
  { change 0%Q with (inject_Z 0). rewrite <- Zlt_Qlt. lia. }
  assert (Hx : (0 <= inject_Z i / inject_Z d <= 1)%Q).
  { split.
    - apply Qle_shift_div_l; [exact Hdq|]. rewrite Qmult_0_l.
      change 0%Q with (inject_Z 0). rewrite <- Zle_Qle. lia.
    - apply Qle_shift_div_r; [exact Hdq|]. rewrite Qmult_1_l.
      rewrite <- Zle_Qle. lia. }
  split; [|apply round_unit_interval; exact Hx].
  simpl. destruct (Z.eqb_spec d 0); [lia|].
  rewrite (rnd_finite _ 0); [reflexivity | unfold emin, emax; lia |].
  change (pow2 0) with 1%Q. apply Qabs_Qle_condition. lra.
Qed.

Lemma channel_eval (a : ArcSettings) (k : nat) (c0 c1 : Z) (r : Q) :
  channel8 (colorStart a) k c0 -> channel8 (colorEnd a) k c1 ->
  (0 <= r <= 1)%Q ->
  channel a k (Float (Fin r)) = Ok (gradient c0 c1 r).
Proof.
  intros [Hs Hc0] [He Hc1] Hr.
  assert (Hd : (Qabs (inject_Z (c1 - c0) * r) <= pow2 8)%Q).
  { apply Qabs_Qle_condition. change (pow2 8) with (inject_Z 256).
    assert (H1 : (- inject_Z 256 <= inject_Z (c1 - c0))%Q).
    { rewrite <- inject_Z_opp, <- Zle_Qle. lia. }
    assert (H2 : (inject_Z (c1 - c0) <= inject_Z 256)%Q).
    { rewrite <- Zle_Qle. lia. }
    change (inject_Z 256) with 256%Q in *. nra. }
  assert (Hp : (Qabs (round (inject_Z (c1 - c0) * r)) <= pow2 8)%Q).
  { apply round_abs_le_pow2; [unfold emin; lia | exact Hd]. }
  assert (Hsum : (Qabs (inject_Z c0 + round (inject_Z (c1 - c0) * r))
                  <= pow2 9)%Q).
  { apply Qabs_Qle_condition in Hp. apply Qabs_Qle_condition.
    change (pow2 8) with 256%Q in Hp. change (pow2 9) with 512%Q.
    assert (H1 : (0 <= inject_Z c0)%Q).
    { change 0%Q with (inject_Z 0). rewrite <- Zle_Qle. lia. }
    assert (H2 : (inject_Z c0 <= 255)%Q).
    { change 255%Q with (inject_Z 255). rewrite <- Zle_Qle. lia. }
    lra. }
  unfold channel, getitem. rewrite Hs, He. cbn [bind Py.sub Py.mul to_float].
  rewrite rnd_Z by lia. cbn [bind Binary64.mul].
  rewrite (rnd_finite _ 8) by (unfold emin, emax; try lia; exact Hd).
  cbn [Py.add to_float]. rewrite rnd_Z by lia. cbn [bind Binary64.add].
  rewrite (rnd_finite _ 9) by (unfold emin, emax; try lia; exact Hsum).
  reflexivity.
Qed.

Lemma gradient_start (c0 c1 : Z) (r : Q) :
  Z.abs c0 <= 2 ^ 53 -> (r == 0)%Q -> gradient c0 c1 r = c0.
Proof.
  intros Hc Hr. unfold gradient.
  rewrite (round_proper (inject_Z (c1 - c0) * r) 0) by (rewrite Hr; ring).
  rewrite (round_zero 0) by reflexivity.
  rewrite (round_proper (inject_Z c0 + 0) (inject_Z c0)) by ring.
  rewrite round_Z by exact Hc. apply trunc_Z.
Qed.

Lemma gradient_end (c0 c1 : Z) (r : Q) :
  Z.abs c1 <= 2 ^ 53 -> Z.abs (c1 - c0) <= 2 ^ 53 -> (r == 1)%Q ->
  gradient c0 c1 r = c1.
Proof.
  intros Hc Hd Hr. unfold gradient.
  rewrite (round_proper (inject_Z (c1 - c0) * r) (inject_Z (c1 - c0)))
    by (rewrite Hr; ring).
  rewrite round_Z by exact Hd.
  rewrite (round_proper (inject_Z c0 + inject_Z (c1 - c0)) (inject_Z c1)).
  - rewrite round_Z by exact Hc. apply trunc_Z.
  - rewrite <- inject_Z_plus. replace (c0 + (c1 - c0)) with c1 by lia.
    reflexivity.
Qed.

Lemma gradient_toward (c0 c1 : Z) (r s : Q) :
  (0 <= r)%Q -> (r <= s)%Q ->
  toward c0 c1 (gradient c0 c1 r) (gradient c0 c1 s).
Proof.
  intros H0 Hrs. unfold toward, gradient. split; intros Hc.
  - apply trunc_le, round_le. apply Qplus_le_r. apply round_le.
    assert (Hd : (0 <= inject_Z (c1 - c0))%Q).
    { change 0%Q with (inject_Z 0). rewrite <- Zle_Qle. lia. }
    nra.
  - apply trunc_le, round_le. apply Qplus_le_r. apply round_le.
    assert (Hd : (inject_Z (c1 - c0) <= 0)%Q).
    { change 0%Q with (inject_Z 0). rewrite <- Zle_Qle. lia. }
    nra.
Qed.

Lemma add_error (x y : num) (e : exn) :
  Py.add x y = Raise e -> e = OverflowError.
Proof.
  destruct x as [a|f], y as [b|g]; simpl; try discriminate;
    repeat match goal with
    | |- context [rnd ?q] => destruct (rnd q); simpl
    end; try discriminate; intros [= <-]; reflexivity.
Qed.

Lemma channel_error (a : ArcSettings) (k : nat) (ratio : num) (e : exn) :
  channel a k ratio = Raise e -> e <> ZeroDivisionError.
Proof.
  unfold channel, getitem.
  destruct (colorStart a !! k) as [s|]; cbn [bind]; [|intros [= <-]; discriminate].
  destruct (colorEnd a !! k) as [c|]; cbn [bind]; [|intros [= <-]; discriminate].
  destruct (Py.sub c s) as [d|e1] eqn:H1; cbn [bind].
  2: { intros [= <-]. rewrite (sub_error _ _ _ H1). discriminate. }
  destruct (Py.mul d ratio) as [p|e2] eqn:H2; cbn [bind].
  2: { intros [= <-]. rewrite (mul_error _ _ _ H2). discriminate. }
  destruct (Py.add s p) as [v|e3] eqn:H3; cbn [bind].
  2: { intros [= <-]. rewrite (add_error _ _ _ H3). discriminate. }
  destruct v as [z|[q|sg|]]; simpl; intros [= <-]; discriminate.
Qed.

(** The denominator [max(totalArcs - 1, 1)] is at least 1, so no
    [ZeroDivisionError] can occur, whatever the arguments and settings. *)
Lemma interpolateColor_no_zero_division (a : ArcSettings) (index N : Z)
    (e : exn) :
  interpolateColor a index N = Raise e -> e <> ZeroDivisionError.
Proof.
  unfold interpolateColor.
  destruct (Py.truediv (Int index) (Int (Z.max (N - 1) 1))) as [ratio|e0] eqn:H0;
    cbn [bind].
  2: { intros [= <-]. apply truediv_pos_error in H0; [|lia]. rewrite H0.
       discriminate. }
  destruct (channel a 0 ratio) as [r|e1] eqn:H1; cbn [bind].
  2: { intros [= <-]. exact (channel_error _ _ _ _ H1). }
  destruct (channel a 1 ratio) as [g|e2] eqn:H2; cbn [bind].
  2: { intros [= <-]. exact (channel_error _ _ _ _ H2). }
  destruct (channel a 2 ratio) as [b|e3] eqn:H3; cbn [bind].
  2: { intros [= <-]. exact (channel_error _ _ _ _ H3). }
  discriminate.
Qed.

Lemma interpolateColor_eval (a : ArcSettings) (c0 c1 : Z * Z * Z)
    (index N : Z) :
  rgb8 (colorStart a) c0 -> rgb8 (colorEnd a) c1 ->
  0 <= index <= Z.max (N - 1) 1 ->
  let ratio := round (inject_Z index / inject_Z (Z.max (N - 1) 1)) in
  (0 <= ratio <= 1)%Q /\
  interpolateColor a index N =
  Ok (gradient (fst (fst c0)) (fst (fst c1)) ratio,
      gradient (snd (fst c0)) (snd (fst c1)) ratio,
      gradient (snd c0) (snd c1) ratio).
Proof.
  intros (Hr0 & Hg0 & Hb0) (Hr1 & Hg1 & Hb1) Hi ratio.
  destruct (ratio_eval index (Z.max (N - 1) 1) Hi) as [Hdiv Hratio]; [lia|].
  fold ratio in Hdiv, Hratio. split; [exact Hratio|].
  unfold interpolateColor. rewrite Hdiv. cbn [bind].
  rewrite (channel_eval a 0 _ _ ratio Hr0 Hr1 Hratio). cbn [bind].
  rewrite (channel_eval a 1 _ _ ratio Hg0 Hg1 Hratio). cbn [bind].
  rewrite (channel_eval a 2 _ _ ratio Hb0 Hb1 Hratio). reflexivity.
Qed.

(** C6. For 8-bit integer colours: [interpolateColor(0, N)] is
    [colorStart] for every N > 0; [interpolateColor(N-1, N)] is [colorEnd]
    for every N > 1; over [0 <= index <= N-1] every channel moves
    monotonically from its start value toward its end value; and the
    function is total on [0 <= index <= max(N-1, 1)], in particular when
    there is a single arc, the denominator [max(N-1, 1)] ruling out a
    [ZeroDivisionError] for all arguments. *)
Theorem interpolateColor_gradient (a : ArcSettings) (c0 c1 : Z * Z * Z) :
  rgb8 (colorStart a) c0 -> rgb8 (colorEnd a) c1 ->
  (forall N, 0 < N -> interpolateColor a 0 N = Ok c0) /\
  (forall N, 1 < N -> interpolateColor a (N - 1) N = Ok c1) /\
  (forall N i j, 0 <= i -> i <= j -> j <= N - 1 ->
     exists x y : Z * Z * Z,
       interpolateColor a i N = Ok x /\ interpolateColor a j N = Ok y /\
       toward (fst (fst c0)) (fst (fst c1)) (fst (fst x)) (fst (fst y)) /\
       toward (snd (fst c0)) (snd (fst c1)) (snd (fst x)) (snd (fst y)) /\
       toward (snd c0) (snd c1) (snd x) (snd y)) /\
  (forall N index, 0 <= index <= Z.max (N - 1) 1 ->
     exists x, interpolateColor a index N = Ok x) /\
  interpolateColor a 0 1 = Ok c0 /\
  (forall N index e,
     interpolateColor a index N = Raise e -> e <> ZeroDivisionError).
Proof.
  intros H0 H1.
  assert (Hstart : forall N, interpolateColor a 0 N = Ok c0).
  { intros N.
    destruct (interpolateColor_eval a c0 c1 0 N H0 H1) as [_ He]; [lia|].
    rewrite He. destruct H0 as ((_ & ?) & (_ & ?) & (_ & ?)).
    destruct c0 as [[r0 g0] b0]. cbn [fst snd] in *.
    assert (Hz : (round (inject_Z 0 / inject_Z (Z.max (N - 1) 1)) == 0)%Q).
    { rewrite (round_proper _ 0); [reflexivity|]. unfold Qdiv.
      apply Qmult_0_l. }
    rewrite !gradient_start by (try exact Hz; lia). reflexivity. }
  repeat split.
  - intros N _. apply Hstart.
  - intros N HN.
    destruct (interpolateColor_eval a c0 c1 (N - 1) N H0 H1) as [_ He]; [lia|].
    rewrite He.
    destruct H0 as ((_ & ?) & (_ & ?) & (_ & ?)).
    destruct H1 as ((_ & ?) & (_ & ?) & (_ & ?)).
    destruct c0 as [[r0 g0] b0], c1 as [[r1 g1] b1]. cbn [fst snd] in *.
    assert (Hone : (round (inject_Z (N - 1) / inject_Z (Z.max (N - 1) 1)) == 1)%Q).
    { rewrite (round_proper _ 1); [reflexivity|].
      replace (Z.max (N - 1) 1) with (N - 1) by lia.
      apply Qmult_inv_r. change 0%Q with (inject_Z 0). rewrite inject_Z_injective.
      lia. }
    rewrite !gradient_end by (try exact Hone; lia). reflexivity.
  - intros N i j Hi Hij Hj.
    destruct (interpolateColor_eval a c0 c1 i N H0 H1) as [[Hri _] Hei]; [lia|].
    destruct (interpolateColor_eval a c0 c1 j N H0 H1) as [_ Hej]; [lia|].
    eexists _, _. split; [exact Hei|]. split; [exact Hej|].
    assert (Hd : (0 < inject_Z (Z.max (N - 1) 1))%Q).
    { change 0%Q with (inject_Z 0). rewrite <- Zlt_Qlt. lia. }
    assert (Hle : (round (inject_Z i / inject_Z (Z.max (N - 1) 1))
                   <= round (inject_Z j / inject_Z (Z.max (N - 1) 1)))%Q).
    { apply round_le. apply Qmult_le_r; [apply Qinv_lt_0_compat; exact Hd|].
      rewrite <- Zle_Qle. exact Hij. }
    cbn [fst snd]. repeat split; apply gradient_toward; assumption.
  - intros N index Hi.
    destruct (interpolateColor_eval a c0 c1 index N H0 H1 Hi) as [_ He].
    eexists. exact He.
  - apply Hstart.
  - intros N index e. apply interpolateColor_no_zero_division.
Qed.

End ColourProperties.

(** ** ArcVisualizer: the arc geometry *)

Section ArcProperties.
Import Binary64 Py ArcVisualizer.

(** The C library functions; their results are finite on finite arguments,
    and they have the symmetries of cosine and sine.  Nothing is assumed of
    [pygame.draw.lines]. *)
Variables libm_cos libm_sin : float -> float.
Variable draw_lines : draw_call -> option exn.
Hypothesis cos_finite :
  forall x, is_finite x = true -> is_finite (libm_cos x) = true.
Hypothesis sin_finite :
  forall x, is_finite x = true -> is_finite (libm_sin x) = true.
Hypothesis cos_even : forall x, libm_cos (Binary64.neg x) = libm_cos x.
Hypothesis sin_odd : forall x, libm_sin (Binary64.neg x) = Binary64.neg (libm_sin x).

(** [math.pi * i / segments], in float arithmetic. *)
Definition arc_angle (segments i : Z) : float :=
  Binary64.div (Binary64.mul math_pi (Fin (round (inject_Z i))))
               (Fin (round (inject_Z segments))).

(** Screen abscissa of the centre: [offsetX + (startVal + endVal)/2.0 * scale]. *)
Definition arc_centerX (startVal endVal : Z) (scale offsetX : float) : float :=
  Binary64.add offsetX
    (Binary64.mul
       (Binary64.div (Fin (round (inject_Z (startVal + endVal)))) (Fin 2))
       scale).

(** Screen radius: [abs(endVal - startVal)/2.0 * scale]. *)
Definition arc_radius (startVal endVal : Z) (scale : float) : float :=
  Binary64.mul
    (Binary64.div (Fin (round (inject_Z (Z.abs (endVal - startVal))))) (Fin 2))
    scale.

(** The displacements of a sample from the centre, at angle [theta]. *)
Definition dx (R theta : float) : float := Binary64.mul R (libm_cos theta).
Definition dy (R theta : float) : float := Binary64.mul R (libm_sin theta).

(** The sample at angle [theta] of the circle of centre [(cx, cy)] and
    radius [R]. *)
Definition arc_point (cx cy R theta : float) : num * num :=
  (Float (Binary64.add cx (dx R theta)), Float (Binary64.add cy (dy R theta))).

(** The angle of sample [i]: negated for an odd arc index. *)
Definition sample_angle (arcIndex segments i : Z) : float :=
  if Z.even arcIndex then arc_angle segments i
  else Binary64.neg (arc_angle segments i).

Definition arc_points (cx cy R : float) (arcIndex segments : Z)
  : list (num * num) :=
  map (fun i => arc_point cx cy R (sample_angle arcIndex segments i))
      (range (segments + 1)).

Lemma to_float_small (z : Z) :
  Z.abs z <= 2 ^ 1001 -> to_float (Int z) = Ok (Fin (round (inject_Z z))).
Proof.
  intros Hz. cbn [to_float]. rewrite (rnd_finite _ 1001); [reflexivity | |].
  - unfold emin, emax. lia.
  - rewrite pow2_Z by lia.
    change (Qabs (inject_Z z)) with (inject_Z (Z.abs z)).
    rewrite <- Zle_Qle. exact Hz.
Qed.

Lemma truediv_Int_Float (a : Z) (f g : float) :
  to_float (Int a) = Ok f -> is_zero g = false ->
  Py.truediv (Int a) (Float g) = Ok (Float (Binary64.div f g)).
Proof.
  intros Hf Hg. unfold Py.truediv. rewrite Hf. cbn [bind to_float].
  rewrite Hg. reflexivity.
Qed.

Lemma truediv_Float_Int (f : float) (b : Z) (g : float) :
  to_float (Int b) = Ok g -> is_zero g = false ->
  Py.truediv (Float f) (Int b) = Ok (Float (Binary64.div f g)).
Proof.
  intros Hf Hg. unfold Py.truediv. rewrite Hf. cbn [bind to_float].
  rewrite Hg. reflexivity.
Qed.

Lemma mul_Float_l (f : float) (y : num) (g : float) :
  to_float y = Ok g -> Py.mul (Float f) y = Ok (Float (Binary64.mul f g)).
Proof.
  intros Hg. unfold Py.mul. rewrite Hg. reflexivity.
Qed.

Lemma add_Float_r (x : num) (f g : float) :
  to_float x = Ok f -> Py.add x (Float g) = Ok (Float (Binary64.add f g)).
Proof.
  intros Hf. unfold Py.add. destruct x as [a|h].
  - rewrite Hf. reflexivity.
  - cbn [to_float] in *. injection Hf as ->. reflexivity.
Qed.

Lemma math_1_finite (f : float -> float) (theta : float) :
  is_finite theta = true -> is_finite (f theta) = true ->
  math_1 f (Float theta) = Ok (Float (f theta)).
Proof.
  intros Ht Hr. unfold math_1. cbn [to_float bind].
  destruct (f theta); try discriminate. reflexivity.
Qed.

Lemma arc_angle_finite (segments i : Z) :
  1 <= segments <= 2 ^ 1000 -> 0 <= i <= segments ->
  is_finite (arc_angle segments i) = true.
Proof.
  intros Hs Hi. unfold arc_angle, math_pi.
  set (pi := (884279719003555 # 281474976710656)%Q).
  assert (Hir : (Qabs (round (inject_Z i)) <= pow2 1000)%Q).
  { apply round_abs_le_pow2; [unfold emin; lia|].
    rewrite pow2_Z by lia.
    change (Qabs (inject_Z i)) with (inject_Z (Z.abs i)).
    rewrite <- Zle_Qle. lia. }
  assert (Hp : (Qabs (pi * round (inject_Z i)) <= pow2 1002)%Q).
  { rewrite Qabs_Qmult.
    replace 1002 with (2 + 1000) by lia. rewrite pow2_add.
    change (pow2 2) with 4%Q.
    pose proof (Qabs_nonneg (round (inject_Z i))) as Hn.
    assert (Hpi : (Qabs pi <= 4)%Q) by (unfold pi, Qle; simpl; lia).
    assert (H0 : (0 <= Qabs pi)%Q) by apply Qabs_nonneg.
    nra. }
  cbn [Binary64.mul].
  rewrite (rnd_finite _ 1002) by (unfold emin, emax; try lia; exact Hp).
  pose proof (round_one_le segments) as H1.
  assert (Hs1 : (1 <= round (inject_Z segments))%Q) by (apply H1; lia).
  cbn [Binary64.div].
  rewrite Qeq_bool_false by (intros H0; lra).
  rewrite (rnd_finite _ 1002); [reflexivity | unfold emin, emax; lia |].
  pose proof (round_abs_le_pow2 _ 1002 ltac:(unfold emin; lia) Hp) as Hq.
  unfold Qdiv. rewrite Qabs_Qmult, Qabs_Qinv.
  rewrite (Qabs_pos (round (inject_Z segments))) by lra.
  pose proof (Qabs_nonneg (round (pi * round (inject_Z i)))) as Hn.
  apply Qle_shift_div_r; [lra|].
  pose proof (pow2_pos 1002). nra.
Qed.

Lemma even_mod2 (n : Z) : (n mod 2 =? 0) = Z.even n.
Proof.
  rewrite <- Z.bit0_mod, Z.bit0_odd, <- Z.negb_even.
  destruct (Z.even n); reflexivity.
Qed.

Lemma angle_eval (arcIndex segments i : Z) :
  1 <= segments <= 2 ^ 1000 -> 0 <= i <= segments ->
  angle (direction arcIndex) segments i
  = Ok (Float (sample_angle arcIndex segments i)).
Proof.
  intros Hs Hi. unfold angle.
  rewrite (mul_Float_l _ _ _ (to_float_small i ltac:(lia))). cbn [bind].
  rewrite (truediv_Float_Int _ _ _ (to_float_small segments ltac:(lia))).
  - cbn [bind]. unfold direction, sample_angle. rewrite even_mod2.
    destruct (Z.even arcIndex); reflexivity.
  - cbn [is_zero]. apply Qeq_bool_false.
    pose proof (round_one_le segments ltac:(lia)). intros H0. lra.
Qed.

Lemma sample_angle_finite (arcIndex segments i : Z) :
  1 <= segments <= 2 ^ 1000 -> 0 <= i <= segments ->
  is_finite (sample_angle arcIndex segments i) = true.
Proof.
  intros Hs Hi. pose proof (arc_angle_finite segments i Hs Hi) as H.
  unfold sample_angle. destruct (Z.even arcIndex); [exact H|].
  destruct (arc_angle segments i); try discriminate. reflexivity.
Qed.

Lemma arcPoint_eval (cx R oy : float) (cy : num) (arcIndex segments i : Z) :
  to_float cy = Ok oy ->
  1 <= segments <= 2 ^ 1000 -> 0 <= i <= segments ->
  arcPoint libm_cos libm_sin (Float cx) cy (Float R) (direction arcIndex)
           segments i
  = Ok (arc_point cx oy R (sample_angle arcIndex segments i)).
Proof.
  intros Hy Hs Hi. unfold arcPoint.
  rewrite (angle_eval arcIndex segments i Hs Hi). cbn [bind].
  pose proof (sample_angle_finite arcIndex segments i Hs Hi) as Hfin.
  rewrite (math_1_finite libm_cos _ Hfin (cos_finite _ Hfin)). cbn [bind].
  rewrite (mul_Float_l R (Float _) _ eq_refl). cbn [bind].
  rewrite (add_Float_r (Float cx) cx _ eq_refl). cbn [bind].
  rewrite (math_1_finite libm_sin _ Hfin (sin_finite _ Hfin)). cbn [bind].
  rewrite (mul_Float_l R (Float _) _ eq_refl). cbn [bind].
  rewrite (add_Float_r cy oy _ Hy). reflexivity.
Qed.

Lemma for_each_map {A B : Type} (f : A -> result B) (g : A -> B)
    (l : list A) :
  (forall x, x ∈ l -> f x = Ok (g x)) -> for_each f l = Ok (map g l).
Proof.
  induction l as [|x l IH]; intros H; [reflexivity|].
  cbn [for_each map]. rewrite (H x) by apply list_elem_of_here. cbn [bind].
  rewrite IH; [reflexivity|]. intros y Hy. apply H.
  apply list_elem_of_further. exact Hy.
Qed.

Lemma arc_points_length (cx cy R : float) (arcIndex segments : Z) :
  0 <= segments ->
  Z.of_nat (length (arc_points cx cy R arcIndex segments)) = segments + 1.
Proof.
  intros Hs. unfold arc_points, range. rewrite length_map, length_seqZ. lia.
Qed.

Lemma arc_points_lookup (cx cy R : float) (arcIndex segments i : Z) :
  0 <= i <= segments ->
  arc_points cx cy R arcIndex segments !! Z.to_nat i
  = Some (arc_point cx cy R (sample_angle arcIndex segments i)).
Proof.
  intros Hi. unfold arc_points, range. rewrite list_lookup_fmap.
  rewrite (lookup_seqZ_lt 0 (segments + 1) (Z.to_nat i)) by lia.
  simpl. do 3 f_equal. lia.
Qed.

Lemma drawArc_eval (a : ArcSettings) (surf : surface)
    (startVal endVal arcIndex totalArcs : Z) (scale offsetX offsetY : num)
    (sc ox oy : float) :
  startVal <> endVal ->
  1 <= segments a <= 2 ^ 1000 ->
  Z.abs startVal <= 2 ^ 1000 -> Z.abs endVal <= 2 ^ 1000 ->
  to_float scale = Ok sc -> to_float offsetX = Ok ox ->
  to_float offsetY = Ok oy ->
  drawArc libm_cos libm_sin draw_lines a surf startVal endVal arcIndex
          totalArcs scale offsetX offsetY
  = let! color := interpolateColor a arcIndex totalArcs in
    emit draw_lines
      (Lines color false
         (arc_points (arc_centerX startVal endVal sc ox) oy
            (arc_radius startVal endVal sc) arcIndex (segments a))
         (strokeWeight a)) surf.
Proof.
  intros Hne Hseg Hs He Hsc Hox Hoy. unfold drawArc.
  destruct (Z.eqb_spec startVal endVal) as [|_]; [contradiction|].
  assert (Hp : 2 ^ 1001 = 2 * 2 ^ 1000) by reflexivity.
  rewrite (truediv_Int_Float _ _ (Fin 2)
             (to_float_small (startVal + endVal) ltac:(lia)) eq_refl).
  cbn [bind].
  rewrite (truediv_Int_Float _ _ (Fin 2)
             (to_float_small (Z.abs (endVal - startVal)) ltac:(lia)) eq_refl).
  cbn [bind].
  rewrite (mul_Float_l _ scale sc Hsc). cbn [bind].
  rewrite (add_Float_r offsetX ox _ Hox). cbn [bind].
  rewrite (mul_Float_l _ scale sc Hsc). cbn [bind].
  fold (arc_centerX startVal endVal sc ox).
  fold (arc_radius startVal endVal sc).
  rewrite (for_each_map _
             (fun i => arc_point (arc_centerX startVal endVal sc ox) oy
                         (arc_radius startVal endVal sc)
                         (sample_angle arcIndex (segments a) i))).
  - cbn [bind]. fold (arc_points (arc_centerX startVal endVal sc ox) oy
                        (arc_radius startVal endVal sc) arcIndex (segments a)).
    rewrite arc_points_length by lia.
    destruct (Z.ltb_spec 1 (segments a + 1)); [reflexivity | lia].
  - intros i Hi. unfold range in Hi. apply elem_of_seqZ in Hi.
    apply arcPoint_eval; [exact Hoy | exact Hseg | lia].
Qed.

(** C5. When [startVal == endVal], [drawArc] returns without a draw call.
    Otherwise (for [segments >= 2], operands within the range of a float)
    it makes one call of [pygame.draw.lines], for an open polyline of
    exactly [segments + 1] points, which pygame accepts or refuses; point
    [i] is the sample of the circle at angle [pi*i/segments] for an even
    [arcIndex] and at the negated angle for an odd one, the centre and the
    radius not depending on [arcIndex].  So for the same value pair an even
    and an odd arc have the same x-coordinates, and their y-coordinates are
    the centre line plus a displacement and the centre line plus the negated
    displacement, each sum rounded to a float: what is added to the centre
    line is exactly negated, the distance of the rounded sum to the centre
    line need not be. *)
Theorem drawArc_semicircle (a : ArcSettings) (surf : surface)
    (startVal endVal arcIndex totalArcs : Z) (scale offsetX offsetY : num) :
  (startVal = endVal ->
   drawArc libm_cos libm_sin draw_lines a surf startVal endVal arcIndex
           totalArcs scale offsetX offsetY = Ok surf) /\
  (startVal <> endVal ->
   2 <= segments a <= 2 ^ 1000 ->
   Z.abs startVal <= 2 ^ 1000 -> Z.abs endVal <= 2 ^ 1000 ->
   forall sc ox oy : float,
     to_float scale = Ok sc -> to_float offsetX = Ok ox ->
     to_float offsetY = Ok oy ->
     let cx := arc_centerX startVal endVal sc ox in
     let R := arc_radius startVal endVal sc in
     let points := arc_points cx oy R arcIndex (segments a) in
     drawArc libm_cos libm_sin draw_lines a surf startVal endVal arcIndex
             totalArcs scale offsetX offsetY
     = (let! color := interpolateColor a arcIndex totalArcs in
        emit draw_lines (Lines color false points (strokeWeight a)) surf) /\
     (forall c0 c1 : Z * Z * Z,
        rgb8 (colorStart a) c0 -> rgb8 (colorEnd a) c1 ->
        0 <= arcIndex <= Z.max (totalArcs - 1) 1 ->
        exists color,
          interpolateColor a arcIndex totalArcs = Ok color /\
          drawArc libm_cos libm_sin draw_lines a surf startVal endVal
                  arcIndex totalArcs scale offsetX offsetY
          = emit draw_lines (Lines color false points (strokeWeight a))
              surf) /\
     Z.of_nat (length points) = segments a + 1 /\
     (forall i, 0 <= i <= segments a ->
        points !! Z.to_nat i
        = Some (arc_point cx oy R
                  (if Z.even arcIndex then arc_angle (segments a) i
                   else Binary64.neg (arc_angle (segments a) i)))) /\
     (forall (evenIndex oddIndex i : Z),
        Z.even evenIndex = true -> Z.even oddIndex = false ->
        0 <= i <= segments a ->
        let theta := arc_angle (segments a) i in
        arc_points cx oy R evenIndex (segments a) !! Z.to_nat i
        = Some (Float (Binary64.add cx (dx R theta)),
                Float (Binary64.add oy (dy R theta))) /\
        arc_points cx oy R oddIndex (segments a) !! Z.to_nat i
        = Some (Float (Binary64.add cx (dx R theta)),
                Float (Binary64.add oy (Binary64.neg (dy R theta)))))).
Proof.
  split.
  - intros ->. unfold drawArc. rewrite Z.eqb_refl. reflexivity.
  - intros Hne Hseg Hs He sc ox oy Hsc Hox Hoy cx R points.
    assert (Heval := drawArc_eval a surf startVal endVal arcIndex totalArcs
                       scale offsetX offsetY sc ox oy Hne ltac:(lia)
                       Hs He Hsc Hox Hoy).
    fold cx R points in Heval.
    split; [exact Heval|]. split; [|split; [|split]].
    + intros c0 c1 H0 H1 Hidx.
      destruct (interpolateColor_eval a c0 c1 arcIndex totalArcs H0 H1 Hidx)
        as [_ Hcol].
      eexists. split; [exact Hcol|]. rewrite Heval, Hcol. reflexivity.
    + apply arc_points_length. lia.
    + intros i Hi. apply arc_points_lookup. exact Hi.
    + intros evenIndex oddIndex i Hev Hod Hi theta. split.
      * rewrite arc_points_lookup by exact Hi.
        unfold sample_angle. rewrite Hev. reflexivity.
      * rewrite arc_points_lookup by exact Hi.
        unfold sample_angle, arc_point, dx, dy. rewrite Hod.
        fold theta. rewrite cos_even, sin_odd, mul_neg_r. reflexivity.
Qed.

End ArcProperties.

(** ** A concrete run *)

Section Examples.
Import Binary64 Py ArcVisualizer RecamanVisualization.

(** *** The rounding against the Standard Library's binary64

    [SpecFloat] is the Standard Library's executable specification of IEEE
    754 arithmetic on significand and exponent pairs.  On a grid of
    operands, its division, multiplication and addition at precision 53
    give the values [round] gives. *)

Definition spec_value (f : spec_float) : option Q :=
  match f with
  | S754_zero _ => Some 0%Q
  | S754_finite s m e =>
      Some (Qred ((if s then -1 else 1) * inject_Z (Z.pos m) * pow2 e))%Q
  | _ => None
  end.

Definition spec_of_Z (z : Z) : spec_float :=
  match z with
  | Z0 => S754_zero false
  | Z.pos p => S754_finite false p 0
  | Z.neg p => S754_finite true p 0
  end.

Definition spec_quotient (a b : Z) : spec_float :=
  SFdiv prec emax (spec_of_Z a) (spec_of_Z b).

Definition agree (f : spec_float) (q : Q) : bool :=
  match spec_value f with
  | Some v => Qeq_bool v q
  | None => false
  end.

Definition agree_div (a b : Z) : bool :=
  agree (spec_quotient a b) (round (inject_Z a / inject_Z b)).

Definition agree_mul_add (a b c d : Z) : bool :=
  let x := round (inject_Z a / inject_Z b) in
  let y := round (inject_Z c / inject_Z d) in
  agree (SFmul prec emax (spec_quotient a b) (spec_quotient c d))
        (round (x * y)) &&
  agree (SFadd prec emax (spec_quotient a b) (spec_quotient c d))
        (round (x + y)).

Definition grid (n : nat) : list Z := map Z.of_nat (seq 1 n).

Example round_agrees_with_SpecFloat :
  forallb (fun a => forallb (fun b =>
     agree_div a b && agree_div (- a) (2 ^ 1060 + b) &&
     agree_div (2 ^ a + 12345) (3 ^ b + 7) &&
     agree_mul_add a b (a + b) (7 * b + 1) &&
     agree_mul_add (- a) (2 ^ b) (b + 3) (a * 1000 + 1))
     (grid 5)) (grid 5) = true.
Proof. vm_compute. reflexivity. Qed.

(** Rational functions with the symmetries of cosine and sine (the point
    of the unit circle at angle [2 atan(x/2)]), standing in for the C
    library where a concrete one is needed. *)
Definition rational_cos (x : float) : float :=
  match x with
  | Fin q => Fin (round ((4 - q * q) / (4 + q * q)))
  | _ => NaN
  end.

Definition rational_sin (x : float) : float :=
  match x with
  | Fin q => Fin (round (4 * q / (4 + q * q)))
  | _ => NaN
  end.

Lemma rational_cos_finite (x : float) :
  is_finite x = true -> is_finite (rational_cos x) = true.
Proof. destruct x; [reflexivity | discriminate | discriminate]. Qed.

Lemma rational_sin_finite (x : float) :
  is_finite x = true -> is_finite (rational_sin x) = true.
Proof. destruct x; [reflexivity | discriminate | discriminate]. Qed.

Lemma rational_cos_even (x : float) :
  rational_cos (Binary64.neg x) = rational_cos x.
Proof.
  destruct x as [q| |]; try reflexivity. simpl. f_equal.
  apply round_proper. assert (H : (- q * - q == q * q)%Q) by ring.
  rewrite H. reflexivity.
Qed.

Lemma rational_sin_odd (x : float) :
  rational_sin (Binary64.neg x) = Binary64.neg (rational_sin x).
Proof.
  destruct x as [q| |]; try reflexivity. simpl. f_equal.
  rewrite <- round_opp. apply round_proper.
  assert (H : (0 < 4 + q * q)%Q) by nra.
  field. lra.
Qed.

(** Arc settings: a gradient from red to blue, 4 segments. *)
Definition settings : ArcSettings :=
  {| colorStart := [Int 255; Int 0; Int 0];
     colorEnd := [Int 0; Int 0; Int 255];
     segments := 4;
     strokeWeight := 2 |}.

Lemma settings_rgb8 :
  rgb8 (colorStart settings) (255, 0, 0) /\
  rgb8 (colorEnd settings) (0, 0, 255).
Proof. unfold rgb8, channel8. simpl. repeat split; lia. Qed.

Example interpolateColor_run :
  interpolateColor settings 3 10 = Ok (170, 0, 85) /\
  interpolateColor settings 1 50 = Ok (249, 0, 5) /\
  interpolateColor settings 0 1 = Ok (255, 0, 0).
Proof. repeat split; vm_compute; reflexivity. Qed.

(** Rounding shows: with a channel going from 0 to 49 and ratio [1/49], the
    product is [0.9999999999999999] and truncates to 0. *)
Example interpolateColor_rounding :
  interpolateColor
    {| colorStart := [Int 0; Int 0; Int 0];
       colorEnd := [Int 49; Int 0; Int 0];
       segments := 4; strokeWeight := 2 |} 1 50
  = Ok (0, 0, 0).
Proof. vm_compute. reflexivity. Qed.

Lemma interpolateColor_gradient_witness :
  (forall N, 0 < N -> interpolateColor settings 0 N = Ok (255, 0, 0)) /\
  (forall N, 1 < N -> interpolateColor settings (N - 1) N = Ok (0, 0, 255)) /\
  (forall N i j, 0 <= i -> i <= j -> j <= N - 1 ->
     exists x y : Z * Z * Z,
       interpolateColor settings i N = Ok x /\
       interpolateColor settings j N = Ok y /\
       toward 255 0 (fst (fst x)) (fst (fst y)) /\
       toward 0 0 (snd (fst x)) (snd (fst y)) /\
       toward 0 255 (snd x) (snd y)) /\
  (forall N index, 0 <= index <= Z.max (N - 1) 1 ->
     exists x, interpolateColor settings index N = Ok x) /\
  interpolateColor settings 0 1 = Ok (255, 0, 0) /\
  (forall N index e,
     interpolateColor settings index N = Raise e -> e <> ZeroDivisionError).
Proof.
  apply (interpolateColor_gradient settings (255, 0, 0) (0, 0, 255)).
  - unfold rgb8, channel8. simpl. repeat split; lia.
  - unfold rgb8, channel8. simpl. repeat split; lia.
Defined.

(** A stand-in for [pygame.draw.lines] that refuses, with [ValueError], a
    colour with a channel outside 0..255, and accepts every other call. *)
Definition channel_ok (c : Z) : bool := (0 <=? c) && (c <=? 255).

Definition lines_checked (c : draw_call) : option exn :=
  match c with
  | Lines (r, g, b) _ _ _ =>
      if channel_ok r && channel_ok g && channel_ok b then None
      else Some ValueError
  end.

(** The arc from 3 to 6 (arc index 2) with the identity transform and the
    centre line at 300. *)
Lemma drawArc_semicircle_witness :
  let cx := arc_centerX 3 6 (Fin 1) (Fin 0) in
  let R := arc_radius 3 6 (Fin 1) in
  let points := arc_points rational_cos rational_sin cx (Fin 300) R 2 4 in
  drawArc rational_cos rational_sin lines_checked settings [] 3 6 2 9
          (Float (Fin 1)) (Float (Fin 0)) (Float (Fin 300))
  = (let! color := interpolateColor settings 2 9 in
     emit lines_checked (Lines color false points 2) []) /\
  (forall c0 c1 : Z * Z * Z,
     rgb8 (colorStart settings) c0 -> rgb8 (colorEnd settings) c1 ->
     0 <= 2 <= Z.max (9 - 1) 1 ->
     exists color,
       interpolateColor settings 2 9 = Ok color /\
       drawArc rational_cos rational_sin lines_checked settings [] 3 6 2 9
               (Float (Fin 1)) (Float (Fin 0)) (Float (Fin 300))
       = emit lines_checked (Lines color false points 2) []) /\
  Z.of_nat (length points) = 4 + 1 /\
  (forall i, 0 <= i <= 4 ->
     points !! Z.to_nat i
     = Some (arc_point rational_cos rational_sin cx (Fin 300) R
               (if Z.even 2 then arc_angle 4 i
                else Binary64.neg (arc_angle 4 i)))) /\
  (forall (evenIndex oddIndex i : Z),
     Z.even evenIndex = true -> Z.even oddIndex = false ->
     0 <= i <= 4 ->
     let theta := arc_angle 4 i in
     arc_points rational_cos rational_sin cx (Fin 300) R evenIndex 4
       !! Z.to_nat i
     = Some (Float (Binary64.add cx (dx rational_cos R theta)),
             Float (Binary64.add (Fin 300) (dy rational_sin R theta))) /\
     arc_points rational_cos rational_sin cx (Fin 300) R oddIndex 4
       !! Z.to_nat i
     = Some (Float (Binary64.add cx (dx rational_cos R theta)),
             Float (Binary64.add (Fin 300)
                      (Binary64.neg (dy rational_sin R theta))))).
Proof.
  apply (proj2 (drawArc_semicircle rational_cos rational_sin lines_checked
                  rational_cos_finite rational_sin_finite
                  rational_cos_even rational_sin_odd
                  settings [] 3 6 2 9
                  (Float (Fin 1)) (Float (Fin 0)) (Float (Fin 300))));
    try reflexivity; simpl; lia.
Defined.

(** The centre of that arc is at 4.5, its radius is 1.5, and the middle
    sample is straight above or below the centre. *)
Example drawArc_run :
  arc_centerX 3 6 (Fin 1) (Fin 0) = Fin (9 # 2) /\
  arc_radius 3 6 (Fin 1) = Fin (3 # 2) /\
  arc_points rational_cos rational_sin (Fin (9 # 2)) (Fin 300) (Fin (3 # 2))
    2 4 !! 0%nat
  = Some (Float (Fin 6), Float (Fin 300)).
Proof. repeat split; vm_compute; reflexivity. Qed.

(** With an index past the last arc the gradient leaves the range of a
    colour, and the stand-in for [pygame.draw.lines] refuses the call. *)
Example drawArc_colour_refused :
  interpolateColor settings 5 2 = Ok (-1020, 0, 1275) /\
  drawArc rational_cos rational_sin lines_checked settings [] 3 6 5 2
          (Float (Fin 1)) (Float (Fin 0)) (Float (Fin 300))
  = Raise ValueError.
Proof. split; vm_compute; reflexivity. Qed.

(** [math.cos] and [math.sin] at the angles [math.pi * i / 4] of the
    samples of a four-segment arc, as CPython returns them: the angle, its
    cosine and its sine.  The cosine of the negated angle is the same and
    its sine the negated one. *)
Definition quarter_table : list (Q * (Q * Q)) :=
  [ (0, (1, 0));
    (884279719003555 # 1125899906842624,
     (6369051672525773 # 9007199254740992,
      1592262918131443 # 2251799813685248));
    (884279719003555 # 562949953421312,
     (4967757600021511 # 81129638414606681695789005144064, 1));
    (2652839157010665 # 1125899906842624,
     (- (1592262918131443 # 2251799813685248),
      6369051672525773 # 9007199254740992));
    (884279719003555 # 281474976710656,
     (- (1), 4967757600021511 # 40564819207303340847894502572032)) ]%Q.

Definition quarter_entry (q : Q) : option (Q * Q) :=
  match List.find (fun e => Qeq_bool (fst e) (Qabs q)) quarter_table with
  | Some e => Some (snd e)
  | None => None
  end.

(** The C library on these angles; no value elsewhere. *)
Definition table_cos (x : float) : float :=
  match x with
  | Fin q =>
      match quarter_entry q with
      | Some (c, _) => Fin (Qred c)
      | None => NaN
      end
  | _ => NaN
  end.

Definition table_sin (x : float) : float :=
  match x with
  | Fin q =>
      match quarter_entry q with
      | Some (_, s) => Fin (Qred (if negative q then - s else s))
      | None => NaN
      end
  | _ => NaN
  end.

(** C5, as stated, fails: the y-offsets from the centre line are not
    exactly negated between an even and an odd arc index.  Take the arc
    between the terms 20 and 12 with the scale [700 / 21], the offset 50,
    the centre line at 300 and four segments.  The middle sample has the
    sine 1, and the radius is [133.33333333333334]: with an even index
    [y = 433.33333333333337], the float nearest to the sum, with an odd
    index [y = 166.66666666666666]; the first lies [133.33333333333337]
    below the centre line and the second [133.33333333333334] above it,
    whether the offsets are taken exactly or by a float subtraction.  The
    x-coordinates are the same. *)
Lemma mirror_not_exact :
  let sc := Fin (4691249611844267 # 140737488355328) in
  let cx := arc_centerX 20 12 sc (Fin 50) in
  let R := arc_radius 20 12 sc in
  let x := 5131054262954667 # 8796093022208 in
  let y_even := 3811640309623467 # 8796093022208 in
  let y_odd := 5864062014805333 # 35184372088832 in
  Py.truediv (Int 700) (Int 21) = Ok (Float sc) /\
  R = Fin (4691249611844267 # 35184372088832) /\
  table_sin (arc_angle 4 2) = Fin 1 /\
  (exists color points,
     drawArc table_cos table_sin lines_checked settings [] 20 12 6 9
             (Float sc) (Int 50) (Float (Fin 300))
     = Ok [Lines color false points 2] /\
     points !! 2%nat = Some (Float (Fin x), Float (Fin y_even))) /\
  (exists color points,
     drawArc table_cos table_sin lines_checked settings [] 20 12 7 9
             (Float sc) (Int 50) (Float (Fin 300))
     = Ok [Lines color false points 2] /\
     points !! 2%nat = Some (Float (Fin x), Float (Fin y_odd))) /\
  Qeq_bool (y_even - 300) (- (y_odd - 300)) = false /\
  Binary64.sub (Fin y_even) (Fin 300)
    = Fin (1172812402961067 # 8796093022208) /\
  Binary64.neg (Binary64.sub (Fin y_odd) (Fin 300))
    = Fin (4691249611844267 # 35184372088832).
Proof.
  cbv zeta. split; [vm_compute; reflexivity|].
  split; [vm_compute; reflexivity|].
  split; [vm_compute; reflexivity|].
  split; [eexists _, _; split; vm_compute; reflexivity|].
  split; [eexists _, _; split; vm_compute; reflexivity|].
  split; [vm_compute; reflexivity|].
  split; vm_compute; reflexivity.
Qed.

(** A configuration: an 800 x 600 window, 10 terms, padding 50, the
    number line at half height. *)
Definition config0 : Config :=
  {| windowWidth := 800; windowHeight := 600; cfg_maxTerms := 10;
     autoScaling_enabled := true; autoScaling_padding := Int 50;
     numberLine_yPosition := Float (Fin (1 # 2));
     arcSettings := settings |}.

(** [__init__] on it: 10 terms with maximum 21, so [scale = 700 / 21]. *)
Example init_run :
  exists v : RecamanVisualization.t,
    RecamanVisualization.init config0 = Ok v /\
    RecamanSequence.sequence (sequence v)
      = [0; 1; 3; 6; 2; 7; 13; 20; 12; 21] /\
    Py.truediv (Int 700) (Int 21) = Ok (scale v) /\
    scale v = Float (Fin (4691249611844267 # 140737488355328)) /\
    offsetX v = Int 50 /\ offsetY v = Float (Fin 300) /\
    currentArc v = 0 /\ paused v = false /\ totalArcs v = 9.
Proof.
  destruct (RecamanVisualization.init config0) as [v|e] eqn:Hv;
    [|vm_compute in Hv; discriminate].
  exists v. split; [reflexivity|].
  vm_compute in Hv. injection Hv as <-.
  repeat split; vm_compute; reflexivity.
Qed.

(** The same configuration with auto-scaling switched off. *)
Definition config_off : Config :=
  {| windowWidth := 800; windowHeight := 600; cfg_maxTerms := 10;
     autoScaling_enabled := false; autoScaling_padding := Int 50;
     numberLine_yPosition := Float (Fin (1 # 2));
     arcSettings := settings |}.

(** C4, as stated, fails: with auto-scaling disabled and a positive maximum
    value (21 here), [calculateScaling] returns at once, so [scale] stays
    [1.0] and [offsetX] stays [0.0]; they are not
    [(viewportWidth - 2*padding) / maxValue = 700/21] and [padding = 50]. *)
Lemma scaling_disabled_keeps_defaults :
  exists v : RecamanVisualization.t,
    RecamanVisualization.init config_off = Ok v /\
    RecamanSequence.getMaxValue (sequence v) = 21 /\
    fitScale (windowWidth config_off) (autoScaling_padding config_off) 21
      = Ok (Float (Fin (4691249611844267 # 140737488355328))) /\
    scale v = Float (Fin 1) /\ offsetX v = Float (Fin 0) /\
    offsetY v = Float (Fin 300) /\
    fitScale (windowWidth config_off) (autoScaling_padding config_off) 21
      <> Ok (scale v) /\
    offsetX v <> autoScaling_padding config_off.
Proof.
  destruct (RecamanVisualization.init config_off) as [v|e] eqn:Hv;
    [|vm_compute in Hv; discriminate].
  exists v. split; [reflexivity|].
  vm_compute in Hv. injection Hv as <-.
  repeat split; try (vm_compute; reflexivity); vm_compute; discriminate.
Qed.

(** A player state over the first five terms, before the first tick. *)
Definition player0 : RecamanVisualization.t :=
  {| config := config0; width := 800; height := 600;
     sequence :=
       {| RecamanSequence.sequence := [0; 1; 3; 6; 2];
          RecamanSequence.seen := list_to_set [0; 1; 3; 6; 2];
          RecamanSequence.currentStep := 5 |};
     currentArc := 0; maxTerms := 5; running := true; paused := false;
     scale := Float (Fin 1); offsetX := Float (Fin 0);
     offsetY := Float (Fin 300) |}.

Lemma ticks_advance_witness :
  (currentArc player0 = 0 -> paused player0 = false ->
   currentArc (ticks 7 player0) = Z.min (Z.of_nat 7) (totalArcs player0)) /\
  (paused player0 = true -> update player0 = player0 /\
   ticks 7 player0 = player0) /\
  (currentArc player0 <= totalArcs player0 ->
   currentArc (ticks 7 player0) <= totalArcs player0 /\
   currentArc (update player0) <= totalArcs player0) /\
  totalArcs (ticks 7 player0) = totalArcs player0.
Proof.
  apply (ticks_advance player0 7).
  unfold totalArcs, RecamanSequence.len. simpl. lia.
Defined.

Example ticks_run :
  currentArc (ticks 3 player0) = 3 /\ currentArc (ticks 7 player0) = 4 /\
  currentArc (ticks 7 (handleEvents player0 [KEYDOWN K_SPACE])) = 0 /\
  currentArc (reset (ticks 3 player0)) = 0.
Proof. repeat split. Qed.

End Examples.

(** * Part III. Further properties of the program *)

(** ** RecamanSequence: more about the generated terms *)

Section SequenceFurther.
Import RecamanSequence.

Lemma rule_cases (earlier : list Z) (a n b : Z) :
  rule earlier a n b ->
  (b = a - n /\ 0 < b /\ b ∉ earlier) \/ b = a + n.
Proof.
  intros [(Hpos & Hnew & ->) | [_ -> ] ]; [left | right]; auto.
Qed.

Lemma step_difference (s : t) :
  reachable s ->
  forall (i : nat) (a b : Z),
    sequence s !! i = Some a -> sequence s !! S i = Some b ->
    Z.abs (b - a) = Z.of_nat (S i) /\ a <> b /\
    (b < a -> b ∉ take (S i) (sequence s)).
Proof.
  intros Hr i a b Ha Hb.
  destruct (reachable_invariant _ Hr) as [_ _ _ _ Hrule _ _].
  destruct (rule_cases _ _ _ _ (Hrule i a b Ha Hb)) as [(-> & _ & Hnew) | -> ].
  - repeat split; [lia | lia | intros _; exact Hnew].
  - repeat split; lia.
Qed.

(** X1. Consecutive terms differ by exactly the index of the later one, so they
    are never equal; and a term smaller than its predecessor is a value that
    did not occur before. *)
Theorem consecutive_terms_differ (s : t) :
  reachable s ->
  forall (i : nat) (a b : Z),
    sequence s !! i = Some a -> sequence s !! S i = Some b ->
    Z.abs (b - a) = Z.of_nat (S i) /\ a <> b /\
    (b < a -> b ∉ take (S i) (sequence s)).
Proof. exact (step_difference s). Qed.

Lemma consecutive_terms_differ_witness :
  exists s : t,
    calls 4 init = Ok s /\
    forall (i : nat) (a b : Z),
      sequence s !! i = Some a -> sequence s !! S i = Some b ->
      Z.abs (b - a) = Z.of_nat (S i) /\ a <> b /\
      (b < a -> b ∉ take (S i) (sequence s)).
Proof.
  destruct (calls_ok 4 init) as (s & Hc & _ & _); [discriminate|].
  exists s. split; [exact Hc|].
  apply (consecutive_terms_differ s).
  exact (calls_reachable _ _ _ reach_init Hc).
Defined.

(** Term [i] is at most the triangular number [i (i + 1) / 2]. *)
Lemma term_triangular (s : t) :
  reachable s ->
  forall (i : nat) (x : Z),
    sequence s !! i = Some x -> 2 * x <= Z.of_nat i * (Z.of_nat i + 1).
Proof.
  intros Hr. pose proof (reachable_invariant _ Hr) as Hinv.
  induction i as [|i IH]; intros x Hx.
  - rewrite (inv_head _ Hinv) in Hx. injection Hx as <-. lia.
  - destruct (sequence s !! i) as [a|] eqn:Ha.
    + destruct (step_difference s Hr i a x Ha Hx) as (Hd & _ & _).
      specialize (IH a eq_refl). lia.
    + apply lookup_ge_None in Ha. apply lookup_lt_Some in Hx. lia.
Qed.

Lemma fold_max_in (l : list Z) (x : Z) :
  fold_left Z.max l x = x \/ fold_left Z.max l x ∈ l.
Proof.
  revert x. induction l as [|y l IH]; intros x; simpl; [left; reflexivity|].
  destruct (IH (Z.max x y)) as [H|H].
  - rewrite H. destruct (Z.max_spec x y) as [[_ ->]|[_ ->]].
    + right. apply list_elem_of_here.
    + left. reflexivity.
  - right. apply list_elem_of_further. exact H.
Qed.

Lemma getMaxValue_spec (s : t) :
  (sequence s = [] -> getMaxValue s = 0) /\
  (sequence s <> [] ->
   getMaxValue s ∈ sequence s /\
   forall x, x ∈ sequence s -> x <= getMaxValue s).
Proof.
  unfold getMaxValue. destruct (sequence s) as [|x0 l].
  - split; [reflexivity | contradiction].
  - split; [discriminate|]. intros _.
    destruct (fold_max_ge l x0) as [H0 Hall]. split.
    + destruct (fold_max_in l x0) as [->|H].
      * apply list_elem_of_here.
      * apply list_elem_of_further. exact H.
    + intros x Hx. apply elem_of_cons in Hx. destruct Hx as [->|Hx].
      * exact H0.
      * rewrite Forall_forall in Hall. apply Hall. exact Hx.
Qed.

(** X2. [getMaxValue] is 0 on an empty sequence; otherwise it is a term of the
    sequence and no term exceeds it. *)
Theorem getMaxValue_is_maximum (s : t) :
  (sequence s = [] -> getMaxValue s = 0) /\
  (sequence s <> [] ->
   getMaxValue s ∈ sequence s /\
   forall x, x ∈ sequence s -> x <= getMaxValue s).
Proof. exact (getMaxValue_spec s). Qed.

(** X3. With [n] terms generated, the maximum is at most [(n - 1) n / 2]. *)
Theorem getMaxValue_triangular (s : t) :
  reachable s -> 2 * getMaxValue s <= (len s - 1) * len s.
Proof.
  intros Hr. pose proof (reachable_invariant _ Hr) as Hinv.
  destruct (getMaxValue_spec s) as [_ H].
  destruct (H (inv_nonempty _ Hinv)) as [Hin _].
  apply list_elem_of_lookup in Hin. destruct Hin as [i Hi].
  pose proof (term_triangular s Hr i _ Hi) as Hb.
  apply lookup_lt_Some in Hi. unfold len. nia.
Qed.

Lemma getMaxValue_triangular_witness :
  exists s : t,
    calls 9 init = Ok s /\ 2 * getMaxValue s <= (len s - 1) * len s.
Proof.
  destruct (calls_ok 9 init) as (s & Hc & _ & _); [discriminate|].
  exists s. split; [exact Hc|].
  apply (getMaxValue_triangular s).
  exact (calls_reachable _ _ _ reach_init Hc).
Defined.

Lemma calls_add (a b : nat) (s : t) :
  calls (a + b) s = let! s1 := calls a s in calls b s1.
Proof.
  revert s. induction a as [|a IH]; intros s; [reflexivity|].
  cbn [Nat.add calls]. destruct (generateNext s) as [[v s']|e]; [|reflexivity].
  cbn [bind snd]. apply IH.
Qed.

Lemma calls_prefix (k : nat) (s s' : t) :
  calls k s = Ok s' -> sequence s `prefix_of` sequence s'.
Proof.
  revert s. induction k as [|k IH]; intros s; cbn [calls].
  - intros [= <-]. reflexivity.
  - destruct (generateNext s) as [[v s1]|e] eqn:Hn; [|discriminate].
    cbn [bind snd]. intros Hc.
    destruct (generateNext_inv _ _ _ Hn) as (_ & _ & _ & Hseq & _).
    transitivity (sequence s1); [|exact (IH _ Hc)].
    rewrite Hseq. apply prefix_app_r. reflexivity.
Qed.

Lemma getMaxValue_prefix (s s' : t) :
  sequence s <> [] -> sequence s `prefix_of` sequence s' ->
  getMaxValue s <= getMaxValue s'.
Proof.
  intros Hne [k Hk].
  destruct (getMaxValue_spec s) as [_ H1].
  destruct (H1 Hne) as [Hin _].
  destruct (getMaxValue_spec s') as [_ H2].
  destruct H2 as [_ Hmax].
  - rewrite Hk. destruct (sequence s); [contradiction | discriminate].
  - apply Hmax. rewrite Hk. apply elem_of_app. left. exact Hin.
Qed.

(** X4. Generating to [m] terms and then to [n] terms is generating to
    [max(m, n)] terms; the terms already there are kept as a prefix, so the
    maximum never decreases; and a second [generateTerms(n)] changes
    nothing. *)
Theorem generateTerms_compose (s : t) (m n : Z) :
  sequence s <> [] ->
  exists s1 s2 : t,
    generateTerms s m = Ok s1 /\
    generateTerms s1 n = Ok s2 /\
    generateTerms s (Z.max m n) = Ok s2 /\
    sequence s `prefix_of` sequence s1 /\
    sequence s1 `prefix_of` sequence s2 /\
    getMaxValue s <= getMaxValue s1 <= getMaxValue s2 /\
    (n <= m -> s2 = s1).
Proof.
  intros Hne.
  destruct (calls_ok (Z.to_nat (m - len s)) s Hne) as (s1 & Hc1 & Hne1 & Hl1).
  destruct (calls_ok (Z.to_nat (n - len s1)) s1 Hne1) as (s2 & Hc2 & _ & _).
  exists s1, s2.
  pose proof (calls_prefix _ _ _ Hc1) as Hp1.
  pose proof (calls_prefix _ _ _ Hc2) as Hp2.
  repeat split; try assumption.
  - rewrite generateTerms_calls. exact Hc1.
  - rewrite generateTerms_calls. exact Hc2.
  - rewrite generateTerms_calls.
    replace (Z.to_nat (Z.max m n - len s))
      with (Z.to_nat (m - len s) + Z.to_nat (n - len s1))%nat by lia.
    rewrite calls_add, Hc1. exact Hc2.
  - apply getMaxValue_prefix; assumption.
  - apply getMaxValue_prefix; assumption.
  - intros Hnm. replace (Z.to_nat (n - len s1)) with 0%nat in Hc2 by lia.
    cbn in Hc2. congruence.
Qed.

Lemma generateTerms_compose_witness :
  exists s1 s2 : t,
    generateTerms init 4 = Ok s1 /\
    generateTerms s1 7 = Ok s2 /\
    generateTerms init (Z.max 4 7) = Ok s2 /\
    sequence init `prefix_of` sequence s1 /\
    sequence s1 `prefix_of` sequence s2 /\
    getMaxValue init <= getMaxValue s1 <= getMaxValue s2 /\
    (7 <= 4 -> s2 = s1).
Proof. apply (generateTerms_compose init 4 7). discriminate. Defined.

(** X5. An object whose sequence is empty: [generateNext] raises [IndexError]
    (there is no last term), so [generateTerms] raises it as soon as a term
    is asked for, and returns at once otherwise; [getMaxValue] is 0.  The
    object is left as it was. *)
Theorem empty_sequence (s : t) (n : Z) :
  sequence s = [] ->
  generateNext s = Raise IndexError /\
  (0 < n -> generateTerms s n = Raise IndexError) /\
  (n <= 0 -> generateTerms s n = Ok s) /\
  getMaxValue s = 0.
Proof.
  intros He.
  assert (Hn : generateNext s = Raise IndexError).
  { unfold generateNext, lastValue. rewrite He. reflexivity. }
  assert (Hl : len s = 0) by (unfold len; rewrite He; reflexivity).
  split; [exact Hn|]. split; [|split].
  - intros Hpos. rewrite generateTerms_calls, Hl.
    destruct (Z.to_nat (n - 0)) as [|k] eqn:Hk; [lia|].
    cbn [calls]. rewrite Hn. reflexivity.
  - intros Hle. rewrite generateTerms_calls, Hl.
    replace (Z.to_nat (n - 0)) with 0%nat by lia. reflexivity.
  - unfold getMaxValue. rewrite He. reflexivity.
Qed.

Lemma empty_sequence_witness :
  let s := {| sequence := []; seen := ∅; currentStep := 1 |} in
  generateNext s = Raise IndexError /\
  (0 < 3 -> generateTerms s 3 = Raise IndexError) /\
  (3 <= 0 -> generateTerms s 3 = Ok s) /\
  getMaxValue s = 0.
Proof.
  apply (empty_sequence {| sequence := []; seen := ∅; currentStep := 1 |} 3).
  reflexivity.
Defined.

End SequenceFurther.

(** ** RecamanVisualization: input handling *)

Section EventProperties.
Import Binary64 Py RecamanVisualization.

(** The events that end the run: closing the window, or the escape key. *)
Definition is_quit (e : event) : bool :=
  match e with
  | QUIT | KEYDOWN K_ESCAPE => true
  | _ => false
  end.

Definition is_pause_key (e : event) : bool :=
  match e with
  | KEYDOWN K_SPACE => true
  | _ => false
  end.

Definition is_reset_key (e : event) : bool :=
  match e with
  | KEYDOWN K_r => true
  | _ => false
  end.

Lemma handleEvents_fields (events : list event) (v : t) :
  let v' := handleEvents v events in
  running v' = running v && forallb (fun e => negb (is_quit e)) events /\
  paused v' =
    xorb (paused v) (Nat.odd (length (List.filter is_pause_key events))) /\
  currentArc v' = (if existsb is_reset_key events then 0 else currentArc v) /\
  sequence v' = sequence v /\
  scale v' = scale v /\ offsetX v' = offsetX v /\ offsetY v' = offsetY v /\
  config v' = config v /\ width v' = width v /\ height v' = height v /\
  maxTerms v' = maxTerms v.
Proof.
  revert v. induction events as [|e events IH]; intros v.
  - cbn. rewrite andb_true_r, xorb_false_r. repeat split.
  - specialize (IH (handleEvent v e)). cbn zeta in IH |- *.
    change (handleEvents v (e :: events))
      with (handleEvents (handleEvent v e) events).
    destruct IH as (Hr & Hp & Hc & Hs & H1 & H2 & H3 & H4 & H5 & H6 & H7).
    rewrite Hr, Hp, Hc, Hs, H1, H2, H3, H4, H5, H6, H7.
    destruct e as [|[]|]; cbn; repeat split;
      rewrite ?andb_false_r, ?andb_true_r; try reflexivity.
    + rewrite Nat.odd_succ, <- Nat.negb_odd.
      destruct (paused v), (Nat.odd (length (List.filter is_pause_key events)));
        reflexivity.
    + destruct (existsb is_reset_key events); reflexivity.
Qed.

(** X6. What a batch of events does: the run goes on only if it was going on
    and no quit event came; the pause flag is flipped once per space key;
    a reset key anywhere in the batch rewinds to arc 0; other events are
    ignored; the sequence, the transform and the settings are never
    touched. *)
Theorem handleEvents_effect (events : list event) (v : t) :
  let v' := handleEvents v events in
  running v' = running v && forallb (fun e => negb (is_quit e)) events /\
  paused v' =
    xorb (paused v) (Nat.odd (length (List.filter is_pause_key events))) /\
  currentArc v' = (if existsb is_reset_key events then 0 else currentArc v) /\
  sequence v' = sequence v /\
  scale v' = scale v /\ offsetX v' = offsetX v /\ offsetY v' = offsetY v /\
  config v' = config v /\ width v' = width v /\ height v' = height v /\
  maxTerms v' = maxTerms v.
Proof. exact (handleEvents_fields events v). Qed.

End EventProperties.

(** ** ArcVisualizer: more about colours *)

Section ColourFurther.
Import Binary64 Py ArcVisualizer.

Lemma gradient_between (c0 c1 : Z) (r : Q) :
  Z.abs c0 <= 2 ^ 53 -> Z.abs c1 <= 2 ^ 53 -> Z.abs (c1 - c0) <= 2 ^ 53 ->
  (0 <= r <= 1)%Q ->
  Z.min c0 c1 <= gradient c0 c1 r <= Z.max c0 c1.
Proof.
  intros H0 H1 Hd [Hr0 Hr1].
  pose proof (gradient_toward c0 c1 0 r ltac:(lra) Hr0) as [Ha Hb].
  pose proof (gradient_toward c0 c1 r 1 Hr0 Hr1) as [Hc He].
  rewrite (gradient_start c0 c1 0 H0) in Ha, Hb by reflexivity.
  rewrite (gradient_end c0 c1 1 H1 Hd) in Hc, He by reflexivity.
  destruct (Z.le_ge_cases c0 c1); lia.
Qed.

(** X7. For 8-bit integer colours and an index between 0 and
    [max(totalArcs - 1, 1)], every channel of the colour returned lies
    between its start and end values, so the colour is again made of 8-bit
    channels. *)
Theorem interpolateColor_in_range (a : ArcSettings) (c0 c1 : Z * Z * Z) :
  rgb8 (colorStart a) c0 -> rgb8 (colorEnd a) c1 ->
  forall N index, 0 <= index <= Z.max (N - 1) 1 ->
    exists r g b : Z,
      interpolateColor a index N = Ok (r, g, b) /\
      Z.min (fst (fst c0)) (fst (fst c1)) <= r
        <= Z.max (fst (fst c0)) (fst (fst c1)) /\
      Z.min (snd (fst c0)) (snd (fst c1)) <= g
        <= Z.max (snd (fst c0)) (snd (fst c1)) /\
      Z.min (snd c0) (snd c1) <= b <= Z.max (snd c0) (snd c1) /\
      0 <= r <= 255 /\ 0 <= g <= 255 /\ 0 <= b <= 255.
Proof.
  intros H0 H1 N index Hi.
  destruct (interpolateColor_eval a c0 c1 index N H0 H1 Hi) as [Hr He].
  destruct H0 as ((_ & ?) & (_ & ?) & (_ & ?)).
  destruct H1 as ((_ & ?) & (_ & ?) & (_ & ?)).
  destruct c0 as [[r0 g0] b0], c1 as [[r1 g1] b1]. cbn [fst snd] in *.
  set (ratio := round (inject_Z index / inject_Z (Z.max (N - 1) 1))) in *.
  pose proof (gradient_between r0 r1 ratio ltac:(lia) ltac:(lia) ltac:(lia) Hr).
  pose proof (gradient_between g0 g1 ratio ltac:(lia) ltac:(lia) ltac:(lia) Hr).
  pose proof (gradient_between b0 b1 ratio ltac:(lia) ltac:(lia) ltac:(lia) Hr).
  eexists _, _, _. split; [exact He|]. repeat split; lia.
Qed.

Lemma interpolateColor_in_range_witness :
  exists r g b : Z,
    interpolateColor settings 3 10 = Ok (r, g, b) /\
    Z.min 255 0 <= r <= Z.max 255 0 /\
    Z.min 0 0 <= g <= Z.max 0 0 /\
    Z.min 0 255 <= b <= Z.max 0 255 /\
    0 <= r <= 255 /\ 0 <= g <= 255 /\ 0 <= b <= 255.
Proof.
  apply (interpolateColor_in_range settings (255, 0, 0) (0, 0, 255)
           (proj1 settings_rgb8) (proj2 settings_rgb8) 10 3).
  lia.
Defined.

Lemma channel_ok_length (a : ArcSettings) (k : nat) (ratio : num) (x : Z) :
  channel a k ratio = Ok x ->
  (k < length (colorStart a))%nat /\ (k < length (colorEnd a))%nat.
Proof.
  unfold channel, getitem.
  destruct (colorStart a !! k) as [s|] eqn:Hs; cbn [bind]; [|discriminate].
  destruct (colorEnd a !! k) as [c|] eqn:Hc; cbn [bind]; [|discriminate].
  intros _. split; eapply lookup_lt_Some; eassumption.
Qed.

(** X8. A colour list with fewer than three channels makes [interpolateColor]
    fail: it returns a colour only if both lists have three channels, and
    with an empty start or end colour it raises [IndexError] for every
    index between 0 and [max(totalArcs - 1, 1)]. *)
Theorem interpolateColor_short_colour (a : ArcSettings) (index N : Z) :
  (forall x, interpolateColor a index N = Ok x ->
     (3 <= length (colorStart a))%nat /\ (3 <= length (colorEnd a))%nat) /\
  (colorStart a = [] \/ colorEnd a = [] ->
   0 <= index <= Z.max (N - 1) 1 ->
   interpolateColor a index N = Raise IndexError).
Proof.
  split.
  - intros x. unfold interpolateColor.
    destruct (Py.truediv _ _) as [ratio|]; cbn [bind]; [|discriminate].
    destruct (channel a 0 ratio); cbn [bind]; [|discriminate].
    destruct (channel a 1 ratio); cbn [bind]; [|discriminate].
    destruct (channel a 2 ratio) as [b|] eqn:Hb; cbn [bind]; [|discriminate].
    intros _. destruct (channel_ok_length _ _ _ _ Hb). lia.
  - intros Hempty Hi. unfold interpolateColor.
    destruct (ratio_eval index (Z.max (N - 1) 1) Hi ltac:(lia)) as [-> _].
    cbn [bind]. unfold channel, getitem.
    destruct Hempty as [-> | He]; [reflexivity|].
    destruct (colorStart a !! 0%nat); cbn [bind]; [|reflexivity].
    rewrite He. reflexivity.
Qed.

End ColourFurther.

(** ** ArcVisualizer: more about [drawArc] *)

Section DrawArcFurther.
Import Binary64 Py ArcVisualizer.

Variables libm_cos libm_sin : float -> float.
Variable draw_lines : draw_call -> option exn.

(** X9. The arc does not depend on the order of its two values: the centre is
    their mean and the radius half their distance, so only the parity of
    the arc index decides on which side the arc is drawn. *)
Theorem drawArc_endpoints_swap (a : ArcSettings) (surf : surface)
    (startVal endVal arcIndex totalArcs : Z) (scale offsetX offsetY : num) :
  drawArc libm_cos libm_sin draw_lines a surf endVal startVal arcIndex
          totalArcs scale offsetX offsetY
  = drawArc libm_cos libm_sin draw_lines a surf startVal endVal arcIndex
            totalArcs scale offsetX offsetY.
Proof.
  unfold drawArc. rewrite (Z.eqb_sym endVal startVal).
  rewrite (Z.add_comm endVal startVal).
  replace (Z.abs (startVal - endVal)) with (Z.abs (endVal - startVal)) by lia.
  reflexivity.
Qed.

(** X10. [drawArc] never alters what is already on the surface: its outcome is
    that on an empty surface, appended; and it adds at most one call.  This
    holds whatever [pygame.draw.lines] accepts. *)
Theorem drawArc_appends (a : ArcSettings) (surf : surface)
    (startVal endVal arcIndex totalArcs : Z) (scale offsetX offsetY : num) :
  drawArc libm_cos libm_sin draw_lines a surf startVal endVal arcIndex
          totalArcs scale offsetX offsetY
  = (let! added := drawArc libm_cos libm_sin draw_lines a [] startVal
                     endVal arcIndex totalArcs scale offsetX offsetY in
     Ok (surf ++ added)) /\
  (forall added,
     drawArc libm_cos libm_sin draw_lines a [] startVal endVal arcIndex
             totalArcs scale offsetX offsetY = Ok added ->
     (length added <= 1)%nat).
Proof.
  unfold drawArc. destruct (startVal =? endVal).
  { split; [cbn; rewrite app_nil_r; reflexivity|].
    intros added [= <-]. simpl. lia. }
  destruct (Py.truediv (Int (startVal + endVal)) _) as [center|];
    cbn [bind]; [|split; [reflexivity | discriminate]].
  destruct (Py.truediv (Int (Z.abs (endVal - startVal))) _) as [radius|];
    cbn [bind]; [|split; [reflexivity | discriminate]].
  destruct (Py.mul center scale) as [cs|];
    cbn [bind]; [|split; [reflexivity | discriminate]].
  destruct (Py.add offsetX cs) as [cx|];
    cbn [bind]; [|split; [reflexivity | discriminate]].
  destruct (Py.mul radius scale) as [R|];
    cbn [bind]; [|split; [reflexivity | discriminate]].
  destruct (for_each _ _) as [points|];
    cbn [bind]; [|split; [reflexivity | discriminate]].
  destruct (1 <? Z.of_nat (length points)).
  - destruct (interpolateColor a arcIndex totalArcs) as [color|];
      cbn [bind]; [|split; [reflexivity | discriminate]].
    unfold emit. destruct (draw_lines _); cbn [bind app];
      [split; [reflexivity | discriminate]|].
    split; [reflexivity|]. intros added [= <-]. simpl. lia.
  - split; [cbn; rewrite app_nil_r; reflexivity|].
    intros added [= <-]. simpl. lia.
Qed.

(** X11. The segment count at its edges, for two distinct values within float
    range and a transform that converts to floats: with [segments = 0] the
    only sample divides [pi * 0] by zero and [drawArc] raises
    [ZeroDivisionError]; with a negative count there is no sample and
    nothing is drawn. *)
Theorem drawArc_segments_edge (a : ArcSettings) (surf : surface)
    (startVal endVal arcIndex totalArcs : Z) (scale offsetX offsetY : num)
    (sc ox : float) :
  startVal <> endVal ->
  Z.abs startVal <= 2 ^ 1000 -> Z.abs endVal <= 2 ^ 1000 ->
  to_float scale = Ok sc -> to_float offsetX = Ok ox ->
  (segments a = 0 ->
   drawArc libm_cos libm_sin draw_lines a surf startVal endVal arcIndex
           totalArcs scale offsetX offsetY = Raise ZeroDivisionError) /\
  (segments a < 0 ->
   drawArc libm_cos libm_sin draw_lines a surf startVal endVal arcIndex
           totalArcs scale offsetX offsetY = Ok surf).
Proof.
  intros Hne Hs He Hsc Hox. unfold drawArc.
  destruct (Z.eqb_spec startVal endVal) as [|_]; [contradiction|].
  assert (Hp : 2 ^ 1001 = 2 * 2 ^ 1000) by reflexivity.
  rewrite (truediv_Int_Float _ _ (Fin 2)
             (to_float_small (startVal + endVal) ltac:(lia)) eq_refl).
  cbn [bind].
  rewrite (truediv_Int_Float _ _ (Fin 2)
             (to_float_small (Z.abs (endVal - startVal)) ltac:(lia)) eq_refl).
  cbn [bind].
  rewrite (mul_Float_l _ scale sc Hsc). cbn [bind].
  rewrite (add_Float_r offsetX ox _ Hox). cbn [bind].
  rewrite (mul_Float_l _ scale sc Hsc). cbn [bind].
  split.
  - intros ->. reflexivity.
  - intros Hneg. unfold range. rewrite seqZ_nil by lia. reflexivity.
Qed.

End DrawArcFurther.

(** ** Binary64: the error of one rounding *)

Section RoundingError.
Import Binary64.
Local Open Scope Q_scope.

Lemma rne_error (y : Q) : Qabs (inject_Z (rne y) - y) <= 1 # 2.
Proof.
  destruct (Qfloor_bounds y) as [H1 H2].
  apply Qabs_Qle_condition.
  destruct (rne_cases y) as [[H ->]|[[H ->]|[H ->]]].
  - lra.
  - rewrite inject_Z_plus. change (inject_Z 1) with 1. lra.
  - destruct (Z.even (Qfloor y)).
    + lra.
    + rewrite inject_Z_plus. change (inject_Z 1) with 1. lra.
Qed.

(** The result of a rounding is within half a unit in the last place. *)
Lemma round_error (x : Q) :
  Qabs (round x - x) <= pow2 (exponent x) * (1 # 2).
Proof.
  destruct (Qeq_dec x 0) as [Hz|Hnz].
  - rewrite (round_zero x Hz).
    assert (Ha : Qabs (0 - x) == 0) by (rewrite Hz; reflexivity).
    rewrite Ha. pose proof (pow2_pos (exponent x)). lra.
  - rewrite round_value by exact Hnz.
    set (e := exponent x). pose proof (pow2_pos e) as Hp.
    pose proof (rne_error (x / pow2 e)) as He.
    apply Qabs_Qle_condition in He. apply Qabs_Qle_condition.
    assert (Hx : x == x / pow2 e * pow2 e) by (field; lra).
    set (m := inject_Z (rne (x / pow2 e))) in *.
    set (y := x / pow2 e) in *. set (P := pow2 e) in *.
    destruct He as [He1 He2].
    assert (H1 : 0 <= (m - y + (1 # 2)) * P) by (apply Qmult_le_0_compat; lra).
    assert (H2 : 0 <= ((1 # 2) - (m - y)) * P) by (apply Qmult_le_0_compat; lra).
    split; lra.
Qed.

(** In the normal range the relative error is at most [2^-53]. *)
Lemma round_relative_error (x : Q) :
  pow2 (-1022) <= x -> Qabs (round x - x) <= x * pow2 (-53).
Proof.
  intros Hx. pose proof (pow2_pos (-1022)) as Hp.
  assert (H0 : 0 < x) by lra.
  destruct (ilog2_spec x H0) as [Hl _].
  assert (Hk : (-1022 <= ilog2 x)%Z).
  { destruct (ilog2_spec x H0) as [_ Hu].
    assert (-1022 < ilog2 x + 1)%Z by (apply pow2_lt_inv; lra). lia. }
  assert (He : exponent x = (ilog2 x - 52)%Z).
  { unfold exponent, prec, emin.
    rewrite (ilog2_proper (Qabs x) x); [lia | |apply Qabs_pos; lra].
    rewrite Qabs_pos by lra. exact H0. }
  apply Qle_trans with (pow2 (exponent x) * (1 # 2)); [apply round_error|].
  rewrite He.
  assert (Hs : pow2 (ilog2 x - 52) * (1 # 2) == pow2 (ilog2 x) * pow2 (-53)).
  { replace (ilog2 x - 52)%Z with (ilog2 x + -53 + 1)%Z by lia.
    rewrite pow2_succ, pow2_add. ring. }
  rewrite Hs. pose proof (pow2_pos (-53)). nra.
Qed.

End RoundingError.

(** ** Rendering: the number line *)

Section NumberLineProperties.
Import Binary64 Py ArcVisualizer RecamanVisualization Rendering.

Variable pygame : call -> option exn.

(** The pixel column of the marker of [value], for a scale [sc] and an
    offset [ox]: [int(ox + value * sc)] in float arithmetic. *)
Definition marker_x (sc ox : Q) (value : Z) : Z :=
  trunc (round (ox + round (round (inject_Z value) * sc))).

Lemma pow2_abs_Z (z k : Z) :
  0 <= k -> Z.abs z <= 2 ^ k -> (Qabs (inject_Z z) <= pow2 k)%Q.
Proof.
  intros Hk Hz. rewrite pow2_Z by exact Hk.
  change (Qabs (inject_Z z)) with (inject_Z (Z.abs z)).
  rewrite <- Zle_Qle. exact Hz.
Qed.

Lemma Qabs_mult_le (x y a b : Q) :
  (Qabs x <= a)%Q -> (Qabs y <= b)%Q -> (Qabs (x * y) <= a * b)%Q.
Proof.
  intros Hx Hy. rewrite Qabs_Qmult.
  pose proof (Qabs_nonneg x). pose proof (Qabs_nonneg y). nra.
Qed.

Lemma marker_eval (d : DrawSettings) (v : RecamanVisualization.t)
    (scr : screen) (sc ox : Q) (py value : Z) :
  scale v = Float (Fin sc) -> (Qabs sc <= pow2 100)%Q ->
  to_float (offsetX v) = Ok (Fin ox) -> (Qabs ox <= pow2 100)%Q ->
  Py.int (offsetY v) = Ok py ->
  Z.abs value <= 2 ^ 800 ->
  marker pygame d v scr value
  = emit pygame
      (Circle (numberLine_color d) (marker_x sc ox value, py)
         (numberLine_markerSize d)) scr.
Proof.
  intros Hsc Hscb Hox Hoxb Hpy Hval. unfold marker. rewrite Hsc.
  pose proof (pow2_abs_Z value 800 ltac:(lia) Hval) as Hv.
  assert (Hrv : (Qabs (round (inject_Z value)) <= pow2 800)%Q).
  { apply round_abs_le_pow2; [unfold emin; lia | exact Hv]. }
  assert (Hprod : (Qabs (round (inject_Z value) * sc) <= pow2 900)%Q).
  { replace 900 with (800 + 100) by lia. rewrite pow2_add.
    apply Qabs_mult_le; assumption. }
  assert (Hrp : (Qabs (round (round (inject_Z value) * sc)) <= pow2 900)%Q).
  { apply round_abs_le_pow2; [unfold emin; lia | exact Hprod]. }
  assert (Hsum : (Qabs (ox + round (round (inject_Z value) * sc))
                  <= pow2 901)%Q).
  { apply Qle_trans with (Qabs ox + Qabs (round (round (inject_Z value) * sc)))%Q;
      [apply Qabs_triangle|].
    replace 901 with (900 + 1) by lia. rewrite pow2_succ.
    assert (pow2 100 <= pow2 900)%Q by (apply pow2_le; lia). lra. }
  unfold Py.mul. cbn [to_float bind].
  rewrite (rnd_finite _ 800) by (unfold emin, emax; try lia; exact Hv).
  cbn [bind Binary64.mul].
  rewrite (rnd_finite _ 900) by (unfold emin, emax; try lia; exact Hprod).
  rewrite (add_Float_r _ _ _ Hox). cbn [bind Binary64.add].
  rewrite (rnd_finite _ 901) by (unfold emin, emax; try lia; exact Hsum).
  cbn [Py.int bind]. rewrite Hpy. reflexivity.
Qed.

Lemma slice_to_take {A : Type} (l : list A) (n : Z) :
  0 <= n -> slice_to l n = take (Z.to_nat n) l.
Proof.
  intros Hn. unfold slice_to. destruct (Z.leb_spec 0 n); [reflexivity | lia].
Qed.

End NumberLineProperties.

(** ** Rendering: one frame *)

Section EmitProperties.

Context {C : Type}.
Variable library : C -> option exn.

Lemma emit_all_cons (c : C) (cs made : list C) :
  emit_all library (c :: cs) made
  = let! made := emit library c made in emit_all library cs made.
Proof. reflexivity. Qed.

Lemma emit_all_app (a b made : list C) :
  emit_all library (a ++ b) made
  = let! made := emit_all library a made in emit_all library b made.
Proof.
  revert made. induction a as [|c a IH]; intros made; [reflexivity|].
  cbn [app]. rewrite !emit_all_cons.
  destruct (emit library c made); cbn [bind]; [apply IH | reflexivity].
Qed.

Lemma emit_all_one (c : C) (made : list C) :
  emit_all library [c] made = emit library c made.
Proof.
  rewrite emit_all_cons. destruct (emit library c made); reflexivity.
Qed.

(** Calls that the library accepts are all made. *)
Lemma emit_all_accepted (cs made : list C) :
  (forall c, c ∈ cs -> library c = None) ->
  emit_all library cs made = Ok (made ++ cs).
Proof.
  revert made. induction cs as [|c cs IH]; intros made H.
  - cbn. rewrite app_nil_r. reflexivity.
  - rewrite emit_all_cons. unfold emit at 1.
    rewrite (H c) by apply list_elem_of_here. cbn [bind].
    rewrite IH by (intros c' Hc'; apply H, list_elem_of_further, Hc').
    rewrite <- app_assoc. reflexivity.
Qed.

(** Calls that are all made were all accepted. *)
Lemma emit_all_ok (cs made made' : list C) :
  emit_all library cs made = Ok made' ->
  made' = made ++ cs /\ forall c, c ∈ cs -> library c = None.
Proof.
  revert made. induction cs as [|c cs IH]; intros made.
  - cbn. intros [= <-]. rewrite app_nil_r. split; [reflexivity|].
    intros c Hc. apply elem_of_nil in Hc. contradiction.
  - rewrite emit_all_cons. unfold emit at 1.
    destruct (library c) eqn:Hc; cbn [bind]; [discriminate|].
    intros H. destruct (IH _ H) as [-> Hall]. split.
    + rewrite <- app_assoc. reflexivity.
    + intros c' Hc'. apply elem_of_cons in Hc'.
      destruct Hc' as [->|Hc']; [exact Hc | exact (Hall c' Hc')].
Qed.

Lemma for_fold_emit {A : Type} (f : list C -> A -> result (list C))
    (g : A -> C) (l : list A) (made : list C) :
  (forall made x, x ∈ l -> f made x = emit library (g x) made) ->
  for_fold f l made = emit_all library (map g l) made.
Proof.
  revert made. induction l as [|x l IH]; intros made H; [reflexivity|].
  cbn [for_fold map]. rewrite emit_all_cons.
  rewrite (H made x) by apply list_elem_of_here.
  destruct (emit library (g x) made); cbn [bind]; [|reflexivity].
  apply IH. intros made' y Hy. apply H. apply list_elem_of_further. exact Hy.
Qed.

End EmitProperties.

Section FrameStatic.
Import Binary64 Py ArcVisualizer RecamanVisualization Rendering.

Variable pygame : call -> option exn.

(** What a frame needs of an object, apart from the playback state: a
    generated sequence of at most [2^400] terms, a transform of bounded
    finite floats ([sc], [ox] and [oy] are the scale and the offsets as
    floats), 8-bit colours [c0] and [c1], and at least one segment. *)
Record drawable (v : RecamanVisualization.t) (sc ox oy : Q)
    (c0 c1 : Z * Z * Z) : Prop := {
  dr_sequence : RecamanSequence.reachable (sequence v);
  dr_length : RecamanSequence.len (sequence v) <= 2 ^ 400;
  dr_scale : scale v = Float (Fin sc);
  dr_scale_bound : (Qabs sc <= pow2 100)%Q;
  dr_offsetX : to_float (offsetX v) = Ok (Fin ox);
  dr_offsetX_bound : (Qabs ox <= pow2 100)%Q;
  dr_offsetY : to_float (offsetY v) = Ok (Fin oy);
  dr_colorStart : rgb8 (colorStart (arcSettings (config v))) c0;
  dr_colorEnd : rgb8 (colorEnd (arcSettings (config v))) c1;
  dr_segments : 1 <= segments (arcSettings (config v)) <= 2 ^ 1000
}.

(** [int(x)] for a number that converts to a finite float. *)
Definition int_value (x : num) : Z :=
  match x with
  | Int z => z
  | Float (Fin q) => trunc q
  | Float _ => 0
  end.

(** The colour of arc [i], black if [interpolateColor] fails. *)
Definition colour_at (v : RecamanVisualization.t) (i : Z) : Z * Z * Z :=
  match interpolateColor (arcSettings (config v)) i
          (RecamanSequence.len (sequence v) - 1) with
  | Ok c => c
  | Raise _ => (0, 0, 0)
  end.

(** The call for the number line. *)
Definition line_call (d : DrawSettings) (v : RecamanVisualization.t) : call :=
  Line (numberLine_color d) (Int 0, offsetY v) (Int (width v), offsetY v) 2.

(** The call for the marker of a value. *)
Definition marker_call (d : DrawSettings) (v : RecamanVisualization.t)
    (sc ox : Q) (value : Z) : call :=
  Circle (numberLine_color d) (marker_x sc ox value, int_value (offsetY v))
         (numberLine_markerSize d).

(** The calls for the markers of the terms [0 .. currentArc]. *)
Definition marker_calls (d : DrawSettings) (v : RecamanVisualization.t)
    (sc ox : Q) : list call :=
  map (marker_call d v sc ox)
      (take (Z.to_nat (currentArc v + 1))
         (RecamanSequence.sequence (sequence v))).

(** The calls for the overlay: the font, then each line of text rendered
    and copied to the screen. *)
Definition overlay (v : RecamanVisualization.t) : list call :=
  let counter :=
    ("Arc: " +:+ pretty (currentArc v) +:+ "/" +:+ pretty (totalArcs v))
      %string in
  [ Font 24;
    Render "SPACE: Pause/Resume" true (200, 200, 200);
    Blit "SPACE: Pause/Resume" (10, 10);
    Render "R: Reset" true (200, 200, 200);
    Blit "R: Reset" (10, 35);
    Render "ESC: Exit" true (200, 200, 200);
    Blit "ESC: Exit" (10, 60);
    Render counter true (200, 200, 200);
    Blit counter (10, 85) ].

Lemma int_value_finite (x : num) (q : Q) :
  to_float x = Ok (Fin q) -> Py.int x = Ok (int_value x).
Proof.
  destruct x as [z|[r|s|]]; cbn; try discriminate; reflexivity.
Qed.

Lemma term_bounds (s : RecamanSequence.t) (i : nat) (x : Z) :
  RecamanSequence.reachable s -> RecamanSequence.len s <= 2 ^ 400 ->
  RecamanSequence.sequence s !! i = Some x -> 0 <= x <= 2 ^ 800.
Proof.
  intros Hr Hlen Hx. pose proof (reachable_invariant _ Hr) as Hinv.
  split.
  - exact (Forall_lookup_1 _ _ _ _ (inv_nonneg _ Hinv) Hx).
  - pose proof (term_triangular s Hr i x Hx) as Hb.
    apply lookup_lt_Some in Hx. unfold RecamanSequence.len in Hlen.
    assert (Hp : 2 ^ 800 = 2 ^ 400 * 2 ^ 400) by reflexivity.
    rewrite Hp. set (L := 2 ^ 400) in *.
    assert (0 < L) by (unfold L; lia). nia.
Qed.

Lemma drawNumberLine_eval (d : DrawSettings) (v : RecamanVisualization.t)
    (scr : screen) (sc ox oy : Q) (c0 c1 : Z * Z * Z) :
  drawable v sc ox oy c0 c1 -> 0 <= currentArc v ->
  drawNumberLine pygame d v scr
  = emit_all pygame (line_call d v :: marker_calls d v sc ox) scr.
Proof.
  intros Hd Hc. unfold drawNumberLine. rewrite emit_all_cons.
  fold (line_call d v).
  destruct (emit pygame (line_call d v) scr) as [scr1|e]; cbn [bind];
    [|reflexivity].
  rewrite slice_to_take by lia.
  apply for_fold_emit.
  intros made value Hin. apply list_elem_of_lookup in Hin.
  destruct Hin as [i Hi].
  apply lookup_take_Some in Hi. destruct Hi as [Hi _].
  destruct (term_bounds _ i value (dr_sequence _ _ _ _ _ _ Hd)
              (dr_length _ _ _ _ _ _ Hd) Hi) as [H0 H1].
  apply marker_eval.
  - exact (dr_scale _ _ _ _ _ _ Hd).
  - exact (dr_scale_bound _ _ _ _ _ _ Hd).
  - exact (dr_offsetX _ _ _ _ _ _ Hd).
  - exact (dr_offsetX_bound _ _ _ _ _ _ Hd).
  - exact (int_value_finite _ _ (dr_offsetY _ _ _ _ _ _ Hd)).
  - lia.
Qed.

Lemma drawInstructions_eval (v : RecamanVisualization.t) (scr : screen) :
  drawInstructions pygame v scr = emit_all pygame (overlay v) scr.
Proof.
  unfold drawInstructions, instructions, overlay, totalArcs.
  cbv zeta. cbn [for_fold instruction].
  repeat (rewrite emit_all_cons;
          repeat match goal with
                 | |- context [Z.pos ?a + Z.pos ?b] =>
                     let r := eval compute in (Z.pos a + Z.pos b) in
                     change (Z.pos a + Z.pos b) with r
                 end;
          match goal with
          | |- context [emit pygame ?c ?s] =>
              destruct (emit pygame c s); cbn [bind for_fold instruction];
                [|reflexivity]
          end).
  reflexivity.
Qed.

End FrameStatic.

Section FrameProperties.
Import Binary64 Py ArcVisualizer RecamanVisualization Rendering.

Variables libm_cos libm_sin : float -> float.
Variable pygame : call -> option exn.
Hypothesis cos_finite :
  forall x, is_finite x = true -> is_finite (libm_cos x) = true.
Hypothesis sin_finite :
  forall x, is_finite x = true -> is_finite (libm_sin x) = true.

(** The call for arc [i], between terms [i] and [i + 1]. *)
Definition arc_call (v : RecamanVisualization.t) (sc ox oy : Q) (i : Z)
  : call :=
  let seq := RecamanSequence.sequence (sequence v) in
  let a := seq !!! Z.to_nat i in
  let b := seq !!! Z.to_nat (i + 1) in
  let s := arcSettings (config v) in
  Arc (Lines (colour_at v i) false
         (arc_points libm_cos libm_sin (arc_centerX a b (Fin sc) (Fin ox))
            (Fin oy) (arc_radius a b (Fin sc)) i (segments s))
         (strokeWeight s)).

(** The calls for the arcs [0 .. currentArc - 1]. *)
Definition arc_calls (v : RecamanVisualization.t) (sc ox oy : Q)
  : list call :=
  map (arc_call v sc ox oy) (range (currentArc v)).

(** The calls of a frame, in the order of [draw]. *)
Definition frame_calls (d : DrawSettings) (v : RecamanVisualization.t)
    (sc ox oy : Q) : list call :=
  Fill (backgroundColor d) :: line_call d v :: marker_calls d v sc ox
    ++ arc_calls v sc ox oy ++ overlay v ++ [Flip].

Lemma drawArcAt_eval (v : RecamanVisualization.t) (scr : screen)
    (sc ox oy : Q) (c0 c1 : Z * Z * Z) (i : Z) :
  drawable v sc ox oy c0 c1 -> 0 <= i < totalArcs v ->
  drawArcAt libm_cos libm_sin pygame v scr i
    = emit pygame (arc_call v sc ox oy i) scr /\
  interpolateColor (arcSettings (config v)) i (totalArcs v)
    = Ok (colour_at v i).
Proof.
  intros Hd Hi. unfold totalArcs, RecamanSequence.len in Hi.
  set (seq := RecamanSequence.sequence (sequence v)) in *.
  destruct (lookup_lt_is_Some_2 seq (Z.to_nat i) ltac:(lia)) as [a Ha].
  destruct (lookup_lt_is_Some_2 seq (S (Z.to_nat i)) ltac:(lia)) as [b Hb].
  pose proof (dr_sequence _ _ _ _ _ _ Hd) as Hr.
  pose proof (dr_length _ _ _ _ _ _ Hd) as Hlen.
  destruct (step_difference _ Hr _ a b Ha Hb) as (_ & Hne & _).
  destruct (term_bounds _ _ a Hr Hlen Ha) as [Ha0 Ha1].
  destruct (term_bounds _ _ b Hr Hlen Hb) as [Hb0 Hb1].
  assert (H800 : 2 ^ 800 <= 2 ^ 1000) by (apply Z.pow_le_mono_r; lia).
  destruct (interpolateColor_eval (arcSettings (config v)) c0 c1 i
              (RecamanSequence.len (sequence v) - 1)
              (dr_colorStart _ _ _ _ _ _ Hd) (dr_colorEnd _ _ _ _ _ _ Hd))
    as [_ Hcol].
  { unfold RecamanSequence.len. fold seq. lia. }
  assert (Hcolour : interpolateColor (arcSettings (config v)) i
                      (RecamanSequence.len (sequence v) - 1)
                    = Ok (colour_at v i)).
  { unfold colour_at. rewrite Hcol. reflexivity. }
  split; [|exact Hcolour].
  unfold drawArcAt, getitem. fold seq.
  replace (Z.to_nat (i + 1)) with (S (Z.to_nat i)) by lia.
  rewrite Ha, Hb. cbn [bind].
  rewrite (drawArc_eval libm_cos libm_sin (fun c => pygame (Arc c))
             cos_finite sin_finite
             (arcSettings (config v)) [] a b i _ (scale v) (offsetX v)
             (offsetY v) (Fin sc) (Fin ox) (Fin oy) Hne
             (dr_segments _ _ _ _ _ _ Hd) ltac:(lia) ltac:(lia)).
  - rewrite Hcolour. cbn [bind]. unfold arc_call. fold seq.
    replace (Z.to_nat (i + 1)) with (S (Z.to_nat i)) by lia.
    rewrite (list_lookup_total_correct _ _ _ Ha).
    rewrite (list_lookup_total_correct _ _ _ Hb).
    unfold emit. destruct (pygame _); reflexivity.
  - rewrite (dr_scale _ _ _ _ _ _ Hd). reflexivity.
  - exact (dr_offsetX _ _ _ _ _ _ Hd).
  - exact (dr_offsetY _ _ _ _ _ _ Hd).
Qed.

Lemma draw_eval (d : DrawSettings) (v : RecamanVisualization.t)
    (scr : screen) (sc ox oy : Q) (c0 c1 : Z * Z * Z) :
  drawable v sc ox oy c0 c1 -> 0 <= currentArc v <= totalArcs v ->
  draw libm_cos libm_sin pygame d v scr
  = emit_all pygame (frame_calls d v sc ox oy) scr.
Proof.
  intros Hd Hc. unfold draw, frame_calls.
  rewrite emit_all_cons.
  destruct (emit pygame (Fill (backgroundColor d)) scr) as [s0|];
    cbn [bind]; [|reflexivity].
  rewrite (drawNumberLine_eval pygame d v _ sc ox oy c0 c1 Hd) by lia.
  rewrite (app_comm_cons (marker_calls d v sc ox)), emit_all_app.
  destruct (emit_all pygame (line_call d v :: marker_calls d v sc ox) s0)
    as [s1|]; cbn [bind]; [|reflexivity].
  rewrite emit_all_app.
  rewrite (for_fold_emit pygame _ (arc_call v sc ox oy)).
  - fold (arc_calls v sc ox oy).
    destruct (emit_all pygame (arc_calls v sc ox oy) s1) as [s2|];
      cbn [bind]; [|reflexivity].
    rewrite emit_all_app, drawInstructions_eval.
    destruct (emit_all pygame (overlay v) s2) as [s3|]; cbn [bind];
      [|reflexivity].
    rewrite emit_all_one. reflexivity.
  - intros s i Hi. unfold range in Hi. apply elem_of_seqZ in Hi.
    apply (drawArcAt_eval v s sc ox oy c0 c1 i Hd). lia.
Qed.

(** X12. A frame.  For an object that can be drawn and a reveal index within
    range, the computations of [draw] raise nothing: [draw] makes, in this
    order and as far as pygame accepts them, the calls for the background
    fill, the number line, one marker for each of the terms
    [0 .. currentArc], one polyline for each of the arcs
    [0 .. currentArc - 1] in ascending order (no pair of consecutive terms
    is degenerate), the font and the four lines of the overlay, and the
    flip.  It raises what pygame raises on the first call it refuses, and
    returns the screen with all the calls added when pygame accepts them
    all.  Each polyline has [segments + 1] points and the colour of its
    index. *)
Theorem draw_frame (d : DrawSettings) (v : RecamanVisualization.t)
    (scr : screen) (sc ox oy : Q) (c0 c1 : Z * Z * Z) :
  drawable v sc ox oy c0 c1 -> 0 <= currentArc v <= totalArcs v ->
  draw libm_cos libm_sin pygame d v scr
  = emit_all pygame (frame_calls d v sc ox oy) scr /\
  ((forall c, c ∈ frame_calls d v sc ox oy -> pygame c = None) ->
   draw libm_cos libm_sin pygame d v scr
   = Ok (scr ++ frame_calls d v sc ox oy)) /\
  (forall scr',
     draw libm_cos libm_sin pygame d v scr = Ok scr' ->
     scr' = scr ++ frame_calls d v sc ox oy) /\
  Z.of_nat (length (marker_calls d v sc ox)) = currentArc v + 1 /\
  Z.of_nat (length (arc_calls v sc ox oy)) = currentArc v /\
  (forall i, 0 <= i < currentArc v ->
     exists color points,
       arc_calls v sc ox oy !! Z.to_nat i
         = Some (Arc (Lines color false points
                        (strokeWeight (arcSettings (config v))))) /\
       interpolateColor (arcSettings (config v)) i (totalArcs v) = Ok color /\
       Z.of_nat (length points) = segments (arcSettings (config v)) + 1).
Proof.
  intros Hd Hc.
  pose proof (draw_eval d v scr sc ox oy c0 c1 Hd Hc) as Heval.
  assert (Hlen : Z.of_nat (length (RecamanSequence.sequence (sequence v)))
                 = totalArcs v + 1).
  { unfold totalArcs, RecamanSequence.len. lia. }
  split; [exact Heval|]. split; [|split; [|split; [|split]]].
  - intros Hall. rewrite Heval. apply emit_all_accepted. exact Hall.
  - intros scr' Hok. rewrite Heval in Hok.
    exact (proj1 (emit_all_ok _ _ _ _ Hok)).
  - unfold marker_calls. rewrite length_map, length_take. lia.
  - unfold arc_calls, range. rewrite length_map, length_seqZ. lia.
  - intros i Hi. unfold arc_calls, range. rewrite list_lookup_fmap.
    rewrite (lookup_seqZ_lt 0 (currentArc v) (Z.to_nat i)) by lia.
    replace (0 + Z.of_nat (Z.to_nat i)) with i by lia.
    destruct (drawArcAt_eval v [] sc ox oy c0 c1 i Hd ltac:(lia))
      as [_ Hcol].
    eexists _, _. split; [reflexivity|]. split; [exact Hcol|].
    apply arc_points_length. pose proof (dr_segments _ _ _ _ _ _ Hd). lia.
Qed.

End FrameProperties.

(** ** The fit of the transform *)

Section FitArithmetic.
Import Binary64.
Local Open Scope Q_scope.

Lemma round_upper (x : Q) :
  pow2 (-1022) <= x -> round x <= x * (1 + pow2 (-53)).
Proof.
  intros Hx. pose proof (round_relative_error x Hx) as H.
  apply Qabs_Qle_condition in H. lra.
Qed.

Lemma round_lower (x : Q) :
  pow2 (-1022) <= x -> x * (1 - pow2 (-53)) <= round x.
Proof.
  intros Hx. pose proof (round_relative_error x Hx) as H.
  apply Qabs_Qle_condition in H. lra.
Qed.

Lemma pow2_tiny : pow2 (-1022) <= pow2 (-53) /\ pow2 (-53) == 1 # (2 ^ 53).
Proof. split; [apply pow2_le; lia | reflexivity]. Qed.

(** The pixel column of a marker, for the scale [round (q / M)] that fits
    the maximum [M] into [q] pixels after a padding of [p] pixels: a value
    between 0 and [M] lands between [p] and [p + q]. *)
Lemma marker_x_fit (p q M value : Z) :
  (0 <= p)%Z -> (1 <= q)%Z -> (p + q <= 2 ^ 30)%Z ->
  (1 <= M <= 2 ^ 51)%Z -> (0 <= value <= M)%Z ->
  (p <= marker_x (round (inject_Z q / inject_Z M)) (inject_Z p) value
     <= p + q)%Z.
Proof.
  intros Hp Hq Hpq HM Hv. unfold marker_x.
  rewrite (round_Z value) by lia.
  destruct pow2_tiny as [Ht Hu].
  set (u := pow2 (-53)) in *. set (tiny := pow2 (-1022)) in *.
  assert (Hu0 : 0 < u) by (unfold u; apply pow2_pos).
  assert (Ht0 : 0 < tiny) by (unfold tiny; apply pow2_pos).
  assert (Hu1 : u <= 1 # 9007199254740992) by (rewrite Hu; apply Qle_refl).
  assert (HQp : 0 <= inject_Z p) by (rewrite Zle_Qle in Hp; exact Hp).
  assert (HQq : 1 <= inject_Z q) by (rewrite Zle_Qle in Hq; exact Hq).
  assert (HQpq : inject_Z p + inject_Z q <= 1073741824).
  { rewrite <- inject_Z_plus. rewrite Zle_Qle in Hpq. exact Hpq. }
  assert (HQM1 : 1 <= inject_Z M).
  { destruct HM as [H _]. rewrite Zle_Qle in H. exact H. }
  assert (HQM2 : inject_Z M <= 2251799813685248).
  { destruct HM as [_ H]. rewrite Zle_Qle in H. exact H. }
  assert (HQv1 : 0 <= inject_Z value).
  { destruct Hv as [H _]. rewrite Zle_Qle in H. exact H. }
  assert (HQv2 : inject_Z value <= inject_Z M).
  { destruct Hv as [_ H]. rewrite Zle_Qle in H. exact H. }
  set (Qp := inject_Z p) in *. set (Qq := inject_Z q) in *.
  set (QM := inject_Z M) in *. set (Qv := inject_Z value) in *.
  set (r := Qq / QM).
  assert (Hr : r * QM == Qq) by (unfold r; field; lra).
  assert (Hr0 : 0 < r).
  { unfold r. apply Qlt_shift_div_l; lra. }
  assert (Hr1 : 1 # 2251799813685248 <= r).
  { unfold r. apply Qle_shift_div_l; [lra|]. nra. }
  assert (Htiny : tiny <= 1 # 9007199254740992) by lra.
  assert (Hrt : tiny <= r) by lra.
  pose proof (round_upper r Hrt) as Hs2. pose proof (round_lower r Hrt) as Hs1.
  fold u in Hs1, Hs2. set (s := round r) in *.
  assert (Hs0 : 0 <= s) by nra.
  (* the largest product *)
  assert (Hm2 : QM * s <= Qq * (1 + u)) by nra.
  assert (Hm1 : Qq * (1 - u) <= QM * s) by nra.
  assert (Hmt : tiny <= QM * s) by nra.
  pose proof (round_upper (QM * s) Hmt) as Hrm. fold u in Hrm.
  assert (Hprod : Qv * s <= QM * s) by nra.
  pose proof (round_le _ _ Hprod) as Ht2.
  assert (Ht1 : 0 <= round (Qv * s)).
  { apply round_nonneg. nra. }
  set (t := round (Qv * s)) in *.
  assert (Hq30 : Qq <= 1073741824) by lra.
  assert (Htq : t <= Qq + (1 # 4)).
  { apply Qle_trans with (round (QM * s)); [exact Ht2|].
    apply Qle_trans with (QM * s * (1 + u)); [exact Hrm|].
    apply Qle_trans with (Qq * (1 + u) * (1 + u)); [nra|]. nra. }
  (* the sum *)
  assert (Hlow : Qp <= round (Qp + t)).
  { unfold Qp at 1. rewrite <- (round_Z p) by lia. fold Qp.
    apply round_le. lra. }
  set (W := Qp + Qq + (1 # 4)).
  assert (HW : tiny <= W) by (unfold W; lra).
  pose proof (round_upper W HW) as HrW. fold u in HrW.
  assert (Hup : round (Qp + t) < Qp + Qq + 1).
  { apply Qle_lt_trans with (round W); [apply round_le; unfold W; lra|].
    apply Qle_lt_trans with (W * (1 + u)); [exact HrW|].
    unfold W. nra. }
  set (x := round (Qp + t)) in *.
  split.
  - rewrite <- (trunc_Z p). apply trunc_le. exact Hlow.
  - unfold trunc. assert (H0 : 0 <= x) by lra.
    apply Qle_bool_iff in H0. rewrite H0.
    pose proof (Qfloor_le x) as Hf.
    assert (Hlt : inject_Z (Qfloor x) < inject_Z (p + q + 1)).
    { rewrite !inject_Z_plus. fold Qp Qq. change (inject_Z 1) with 1. lra. }
    rewrite <- Zlt_Qlt in Hlt. lia.
Qed.

End FitArithmetic.

(** ** Start-up: [__init__] on a sane configuration *)

Section InitProperties.
Import Binary64 Py ArcVisualizer RecamanVisualization Rendering.

Variable pygame : call -> option exn.

(** A configuration as [config.json] is meant to be: a window of at most
    [2^30] pixels a side, at most [2^26] terms, an integer padding [p] that
    leaves room for the sequence, a vertical position [y] between 0.0 and
    1.0, 8-bit colours [c0] and [c1] and at least one segment. *)
Record sane (cfg : Config) (p : Z) (y : Q) (c0 c1 : Z * Z * Z) : Prop := {
  sane_width : 0 < windowWidth cfg <= 2 ^ 30;
  sane_height : 0 < windowHeight cfg <= 2 ^ 30;
  sane_maxTerms : cfg_maxTerms cfg <= 2 ^ 26;
  sane_padding : autoScaling_padding cfg = Int p;
  sane_padding_range : 0 <= p /\ 2 * p < windowWidth cfg;
  sane_yPosition : numberLine_yPosition cfg = Float (Fin y);
  sane_yPosition_range : (0 <= y <= 1)%Q;
  sane_colorStart : rgb8 (colorStart (arcSettings cfg)) c0;
  sane_colorEnd : rgb8 (colorEnd (arcSettings cfg)) c1;
  sane_segments : 1 <= segments (arcSettings cfg) <= 2 ^ 1000
}.

(** Whether [calculateScaling] sets the transform. *)
Definition scaled (cfg : Config) (seq : RecamanSequence.t) : bool :=
  autoScaling_enabled cfg && (0 <? RecamanSequence.getMaxValue seq).

Definition fit_scale (cfg : Config) (seq : RecamanSequence.t) (p : Z) : Q :=
  if scaled cfg seq
  then round (inject_Z (windowWidth cfg - 2 * p)
              / inject_Z (RecamanSequence.getMaxValue seq))
  else 1.

Definition fit_offset (cfg : Config) (seq : RecamanSequence.t) (p : Z) : Q :=
  if scaled cfg seq then inject_Z p else 0.

(** The object [__init__] returns for the sequence [seq], under a sane
    configuration. *)
Definition started (cfg : Config) (seq : RecamanSequence.t) (p : Z) (y : Q)
  : RecamanVisualization.t :=
  {| config := cfg; width := windowWidth cfg; height := windowHeight cfg;
     sequence := seq; currentArc := 0; maxTerms := cfg_maxTerms cfg;
     running := true; paused := false;
     scale := Float (Fin (fit_scale cfg seq p));
     offsetX := if scaled cfg seq then Int p else Float (Fin 0);
     offsetY := Float (Fin (round (inject_Z (windowHeight cfg) * y))) |}.

Lemma Qabs_le_of_range (x b : Q) : (0 <= x <= b)%Q -> (Qabs x <= b)%Q.
Proof. intros [H0 H1]. rewrite Qabs_pos by exact H0. exact H1. Qed.

Lemma inject_Z_pow2 (z k : Z) :
  0 <= k -> z <= 2 ^ k -> (inject_Z z <= pow2 k)%Q.
Proof.
  intros Hk Hz. rewrite pow2_Z by exact Hk. rewrite <- Zle_Qle. exact Hz.
Qed.

Lemma sequence_bounds (seq : RecamanSequence.t) :
  RecamanSequence.reachable seq -> RecamanSequence.len seq <= 2 ^ 26 ->
  0 <= RecamanSequence.getMaxValue seq <= 2 ^ 51 /\
  forall x, x ∈ RecamanSequence.sequence seq ->
    0 <= x <= RecamanSequence.getMaxValue seq.
Proof.
  intros Hr Hlen. pose proof (reachable_invariant _ Hr) as Hinv.
  destruct (getMaxValue_spec seq) as [_ Hmax].
  destruct (Hmax (inv_nonempty _ Hinv)) as [Hin Hle].
  pose proof (inv_nonneg _ Hinv) as Hnn. rewrite Forall_forall in Hnn.
  split.
  - split; [apply Hnn; exact Hin|].
    apply list_elem_of_lookup in Hin. destruct Hin as [i Hi].
    pose proof (term_triangular seq Hr i _ Hi) as Hb.
    apply lookup_lt_Some in Hi. unfold RecamanSequence.len in Hlen.
    assert (Hp : 2 ^ 51 * 2 = 2 ^ 26 * 2 ^ 26 / 2 * 2) by reflexivity.
    assert (H26 : 2 ^ 26 = 67108864) by reflexivity.
    rewrite H26 in *. nia.
  - intros x Hx. split; [apply Hnn; exact Hx | apply Hle; exact Hx].
Qed.

Lemma init_eval (cfg : Config) (p : Z) (y : Q) (c0 c1 : Z * Z * Z) :
  sane cfg p y c0 c1 ->
  exists seq,
    RecamanSequence.calls (Z.to_nat (cfg_maxTerms cfg - 1))
      RecamanSequence.init = Ok seq /\
    RecamanSequence.reachable seq /\
    RecamanSequence.len seq = Z.max 1 (cfg_maxTerms cfg) /\
    RecamanVisualization.init cfg = Ok (started cfg seq p y).
Proof.
  intros Hs.
  destruct (calls_ok (Z.to_nat (cfg_maxTerms cfg - 1)) RecamanSequence.init)
    as (seq & Hc & _ & Hlen); [discriminate|].
  change (RecamanSequence.len RecamanSequence.init) with 1 in Hlen.
  pose proof (sane_maxTerms _ _ _ _ _ Hs) as Hn.
  pose proof (sane_width _ _ _ _ _ Hs) as Hw.
  pose proof (sane_height _ _ _ _ _ Hs) as Hh.
  destruct (sane_padding_range _ _ _ _ _ Hs) as [Hp0 Hp1].
  pose proof (sane_yPosition_range _ _ _ _ _ Hs) as Hy.
  assert (Hr : RecamanSequence.reachable seq)
    by exact (calls_reachable _ _ _ RecamanSequence.reach_init Hc).
  exists seq. split; [exact Hc|]. split; [exact Hr|]. split; [lia|].
  unfold RecamanVisualization.init. rewrite generateTerms_calls.
  change (RecamanSequence.len RecamanSequence.init) with 1.
  rewrite Hc. cbn [bind]. unfold initTransform.
  rewrite (sane_yPosition _ _ _ _ _ Hs).
  assert (H30 : 2 ^ 30 <= 2 ^ 53) by (apply Z.pow_le_mono_r; lia).
  change (Py.mul (Int (windowHeight cfg)) (Float (Fin y)))
    with (let! a := to_float (Int (windowHeight cfg)) in
          Ok (Float (Binary64.mul a (Fin y)))).
  cbn [to_float]. rewrite rnd_Z by lia. cbn [bind Binary64.mul].
  assert (Hhy : (Qabs (inject_Z (windowHeight cfg) * y) <= pow2 30)%Q).
  { pose proof (inject_Z_pow2 (windowHeight cfg) 30 ltac:(lia) ltac:(lia)).
    assert (0 <= inject_Z (windowHeight cfg))%Q
      by (change 0%Q with (inject_Z 0); rewrite <- Zle_Qle; lia).
    apply Qabs_le_of_range. split; nra. }
  rewrite (rnd_finite _ 30) by (unfold emin, emax; try lia; exact Hhy).
  unfold calculateScaling, started, fit_scale, scaled.
  cbn [config sequence width].
  destruct (autoScaling_enabled cfg); cbn [negb andb]; [|reflexivity].
  destruct (Z.ltb_spec 0 (RecamanSequence.getMaxValue seq)) as [HM|HM];
    [|reflexivity].
  unfold fitScale. rewrite (sane_padding _ _ _ _ _ Hs).
  cbn [Py.mul Py.sub bind Py.truediv].
  destruct (Z.eqb_spec (RecamanSequence.getMaxValue seq) 0) as [|_]; [lia|].
  assert (Hq : (Qabs (inject_Z (windowWidth cfg - 2 * p)
                      / inject_Z (RecamanSequence.getMaxValue seq))
                <= pow2 30)%Q).
  { pose proof (inject_Z_pow2 (windowWidth cfg - 2 * p) 30
                  ltac:(lia) ltac:(lia)) as Hb.
    assert (H0 : (0 <= inject_Z (windowWidth cfg - 2 * p))%Q)
      by (change 0%Q with (inject_Z 0); rewrite <- Zle_Qle; lia).
    assert (H1 : (1 <= inject_Z (RecamanSequence.getMaxValue seq))%Q)
      by (change 1%Q with (inject_Z 1); rewrite <- Zle_Qle; lia).
    pose proof (pow2_pos 30) as Hp30.
    apply Qabs_le_of_range. split.
    - apply Qle_shift_div_l; [lra|]. lra.
    - apply Qle_shift_div_r; [lra|]. nra. }
  rewrite (rnd_finite _ 30) by (unfold emin, emax; try lia; exact Hq).
  reflexivity.
Qed.

Lemma started_drawable (cfg : Config) (seq : RecamanSequence.t)
    (p : Z) (y : Q) (c0 c1 : Z * Z * Z) :
  sane cfg p y c0 c1 ->
  RecamanSequence.reachable seq -> RecamanSequence.len seq <= 2 ^ 26 ->
  drawable (started cfg seq p y) (fit_scale cfg seq p) (fit_offset cfg seq p)
           (round (inject_Z (windowHeight cfg) * y)) c0 c1.
Proof.
  intros Hs Hr Hlen.
  pose proof (sane_width _ _ _ _ _ Hs) as Hw.
  destruct (sane_padding_range _ _ _ _ _ Hs) as [Hp0 Hp1].
  destruct (sequence_bounds seq Hr Hlen) as [[HM0 HM1] _].
  assert (H30 : 2 ^ 30 <= 2 ^ 53) by (apply Z.pow_le_mono_r; lia).
  assert (H26 : 2 ^ 26 <= 2 ^ 400) by (apply Z.pow_le_mono_r; lia).
  pose proof (pow2_le 0 100 ltac:(lia)) as H1.
  change (pow2 0) with 1%Q in H1.
  constructor; cbn [started config sequence scale offsetX offsetY].
  - exact Hr.
  - lia.
  - reflexivity.
  - unfold fit_scale, scaled.
    destruct (autoScaling_enabled cfg); cbn [andb];
      [|apply Qabs_le_of_range; lra].
    destruct (Z.ltb_spec 0 (RecamanSequence.getMaxValue seq)) as [HM|HM];
      [|apply Qabs_le_of_range; lra].
    apply round_abs_le_pow2; [unfold emin; lia|].
    pose proof (inject_Z_pow2 (windowWidth cfg - 2 * p) 100
                  ltac:(lia) ltac:(apply Z.le_trans with (2 ^ 30);
                    [lia | apply Z.pow_le_mono_r; lia])) as Hb.
    assert (Hq0 : (0 <= inject_Z (windowWidth cfg - 2 * p))%Q)
      by (change 0%Q with (inject_Z 0); rewrite <- Zle_Qle; lia).
    assert (HM1' : (1 <= inject_Z (RecamanSequence.getMaxValue seq))%Q)
      by (change 1%Q with (inject_Z 1); rewrite <- Zle_Qle; lia).
    apply Qabs_le_of_range. split.
    + apply Qle_shift_div_l; [lra|]. lra.
    + apply Qle_shift_div_r; [lra|]. nra.
  - unfold fit_offset. destruct (scaled cfg seq); [|reflexivity].
    cbn [to_float]. rewrite rnd_Z by lia. reflexivity.
  - unfold fit_offset. destruct (scaled cfg seq);
      [|apply Qabs_le_of_range; lra].
    apply pow2_abs_Z; [lia|].
    apply Z.le_trans with (2 ^ 30); [lia | apply Z.pow_le_mono_r; lia].
  - reflexivity.
  - exact (sane_colorStart _ _ _ _ _ Hs).
  - exact (sane_colorEnd _ _ _ _ _ Hs).
  - exact (sane_segments _ _ _ _ _ Hs).
Qed.

(** The calls of [__init__], in its order. *)
Definition startup (cfg : Config) : list call :=
  [ PygameInit; SetMode (windowWidth cfg, windowHeight cfg);
    SetCaption caption; NewClock ].

Lemma construct_eval (cfg : Config) (p : Z) (y : Q) (c0 c1 : Z * Z * Z) :
  sane cfg p y c0 c1 ->
  exists seq,
    RecamanSequence.reachable seq /\
    RecamanSequence.len seq = Z.max 1 (cfg_maxTerms cfg) /\
    construct pygame (Ok cfg)
    = let! scr := emit_all pygame (startup cfg) [] in
      Ok (started cfg seq p y, scr).
Proof.
  intros Hs.
  destruct (init_eval cfg p y c0 c1 Hs) as (seq & _ & Hr & Hlen & Hinit).
  exists seq. split; [exact Hr|]. split; [exact Hlen|].
  unfold construct, startup. cbn [bind].
  repeat (rewrite emit_all_cons;
          match goal with
          | |- context [emit pygame ?c ?s] =>
              destruct (emit pygame c s); cbn [bind]; [|reflexivity]
          end).
  rewrite Hinit. reflexivity.
Qed.

(** X13. The markers fit.  For a sane configuration with auto-scaling
    enabled and at least two terms, [__init__] makes its four calls of
    pygame and, when pygame accepts them, returns an object; no computation
    of its own raises.  For any term of the sequence of that object, the
    marker of [drawNumberLine] is one call of [pygame.draw.circle] whose
    centre is at a pixel column between [padding] and
    [windowWidth - padding], on the pixel row [int(offsetY)], which lies
    between 0 and [windowHeight]. *)
Theorem markers_fit (cfg : Config) (p : Z) (y : Q) (c0 c1 : Z * Z * Z)
    (d : DrawSettings) :
  sane cfg p y c0 c1 -> autoScaling_enabled cfg = true ->
  2 <= cfg_maxTerms cfg ->
  exists v row,
    construct pygame (Ok cfg)
    = (let! scr := emit_all pygame (startup cfg) [] in Ok (v, scr)) /\
    0 <= row <= windowHeight cfg /\
    forall value, value ∈ RecamanSequence.sequence (sequence v) ->
      exists column,
        (forall scr,
           marker pygame d v scr value
           = emit pygame
               (Circle (numberLine_color d) (column, row)
                  (numberLine_markerSize d)) scr) /\
        p <= column <= windowWidth cfg - p.
Proof.
  intros Hs Hen Hn.
  destruct (construct_eval cfg p y c0 c1 Hs) as (seq & Hr & Hlen & Hinit).
  pose proof (sane_maxTerms _ _ _ _ _ Hs) as Hmt.
  pose proof (sane_width _ _ _ _ _ Hs) as Hw.
  pose proof (sane_height _ _ _ _ _ Hs) as Hh.
  destruct (sane_padding_range _ _ _ _ _ Hs) as [Hp0 Hp1].
  pose proof (sane_yPosition_range _ _ _ _ _ Hs) as Hy.
  assert (Hlen26 : RecamanSequence.len seq <= 2 ^ 26) by lia.
  destruct (sequence_bounds seq Hr Hlen26) as [[HM0 HM1] Hval].
  pose proof (started_drawable cfg seq p y c0 c1 Hs Hr Hlen26) as Hd.
  (* the maximum is positive: the second term is 1 *)
  assert (HM : 0 < RecamanSequence.getMaxValue seq).
  { pose proof (reachable_invariant _ Hr) as Hinv.
    destruct (lookup_lt_is_Some_2 (RecamanSequence.sequence seq) 1)
      as [x Hx]; [unfold RecamanSequence.len in Hlen; lia|].
    pose proof (inv_pos _ Hinv 0%nat x Hx).
    pose proof (Hval x (list_elem_of_lookup_2 _ _ _ Hx)). lia. }
  assert (Hsc : scaled cfg seq = true).
  { unfold scaled. rewrite Hen. apply Z.ltb_lt in HM. rewrite HM.
    reflexivity. }
  exists (started cfg seq p y),
         (trunc (round (inject_Z (windowHeight cfg) * y))).
  split; [exact Hinit|]. split.
  - assert (H30 : 2 ^ 30 <= 2 ^ 53) by (apply Z.pow_le_mono_r; lia).
    assert (H0 : (0 <= inject_Z (windowHeight cfg))%Q)
      by (change 0%Q with (inject_Z 0); rewrite <- Zle_Qle; lia).
    split.
    + rewrite <- (trunc_Z 0). apply trunc_le.
      change (inject_Z 0) with 0%Q. apply round_nonneg. nra.
    + rewrite <- (trunc_Z (windowHeight cfg)) at 2. apply trunc_le.
      rewrite <- (round_Z (windowHeight cfg)) at 2 by lia.
      apply round_le. nra.
  - intros value Hin. cbn [started sequence] in Hin.
    destruct (Hval value Hin) as [Hv0 Hv1].
    exists (marker_x (fit_scale cfg seq p) (fit_offset cfg seq p) value).
    split.
    + intros scr. apply marker_eval.
      * exact (dr_scale _ _ _ _ _ _ Hd).
      * exact (dr_scale_bound _ _ _ _ _ _ Hd).
      * exact (dr_offsetX _ _ _ _ _ _ Hd).
      * exact (dr_offsetX_bound _ _ _ _ _ _ Hd).
      * reflexivity.
      * assert (2 ^ 51 <= 2 ^ 800) by (apply Z.pow_le_mono_r; lia). lia.
    + unfold fit_scale, fit_offset. rewrite Hsc.
      pose proof (marker_x_fit p (windowWidth cfg - 2 * p)
                    (RecamanSequence.getMaxValue seq) value
                    Hp0 ltac:(lia) ltac:(lia) ltac:(lia) ltac:(lia)) as Hfit.
      lia.
Qed.

End InitProperties.

(** ** The run loop *)

Section RunProperties.
Import Binary64 Py ArcVisualizer RecamanVisualization Rendering.

Variables libm_cos libm_sin : float -> float.
Variable pygame : call -> option exn.
Hypothesis cos_finite :
  forall x, is_finite x = true -> is_finite (libm_cos x) = true.
Hypothesis sin_finite :
  forall x, is_finite x = true -> is_finite (libm_sin x) = true.


Definition is_flip (c : call) : bool :=
  match c with Flip => true | _ => false end.

(** The number of frames presented among some calls. *)
Definition presented (cs : list call) : nat := length (List.filter is_flip cs).














End RunProperties.

(** ** Further examples *)

Section FurtherExamples.
Import Binary64 Py ArcVisualizer RecamanVisualization Rendering.

(** Arc settings without segments. *)
Definition settings_flat : ArcSettings :=
  {| colorStart := [Int 255; Int 0; Int 0];
     colorEnd := [Int 0; Int 0; Int 255];
     segments := 0;
     strokeWeight := 2 |}.

Lemma drawArc_segments_edge_witness :
  drawArc rational_cos rational_sin lines_checked settings_flat [] 3 6 2 9
          (Float (Fin 1)) (Float (Fin 0)) (Float (Fin 300))
  = Raise ZeroDivisionError.
Proof.
  apply (proj1 (drawArc_segments_edge rational_cos rational_sin
                  lines_checked settings_flat [] 3 6 2 9
                  (Float (Fin 1)) (Float (Fin 0)) (Float (Fin 300))
                  (Fin 1) (Fin 0)
                  ltac:(lia) ltac:(simpl; lia) ltac:(simpl; lia)
                  eq_refl eq_refl)).
  reflexivity.
Defined.

(** A stand-in for pygame.  It refuses a polyline whose colour has a
    channel outside 0..255 ([ValueError]), a circle whose centre does not
    fit a 32-bit integer ([TypeError]) and a window with a negative side or
    a side of 16384 pixels or more ([pygame.error]); it accepts every
    other call. *)
Definition fits_int (z : Z) : bool := (- 2 ^ 31 <=? z) && (z <? 2 ^ 31).

Definition fits_window (z : Z) : bool := (0 <=? z) && (z <? 16384).

Definition pygame_checked (c : call) : option exn :=
  match c with
  | Arc polyline => lines_checked polyline
  | Circle _ (x, y) _ =>
      if fits_int x && fits_int y then None else Some TypeError
  | SetMode (w, h) =>
      if fits_window w && fits_window h then None else Some PygameError
  | _ => None
  end.

(** The drawing settings of a configuration. *)
Definition draw0 : DrawSettings :=
  {| backgroundColor := [Int 20; Int 20; Int 30];
     numberLine_color := [Int 100; Int 100; Int 100];
     numberLine_markerSize := Int 3;
     animationSpeed := Int 10 |}.

Lemma sane_config0 : sane config0 50 (1 # 2) (255, 0, 0) (0, 0, 255).
Proof.
  constructor; cbn; try lia; try reflexivity.
  - split; discriminate.
  - exact (proj1 settings_rgb8).
  - exact (proj2 settings_rgb8).
Qed.

Lemma started_at_drawable (cfg : Config) (seq : RecamanSequence.t)
    (p : Z) (y : Q) (c0 c1 : Z * Z * Z) (i : Z) :
  sane cfg p y c0 c1 ->
  RecamanSequence.reachable seq -> RecamanSequence.len seq <= 2 ^ 26 ->
  drawable (set_currentArc (started cfg seq p y) i)
           (fit_scale cfg seq p) (fit_offset cfg seq p)
           (round (inject_Z (windowHeight cfg) * y)) c0 c1.
Proof.
  intros Hs Hr Hlen.
  destruct (started_drawable cfg seq p y c0 c1 Hs Hr Hlen).
  constructor; assumption.
Qed.

(** The frame of the object of [config0] with three arcs revealed. *)
Lemma draw_frame_witness :
  exists (v : RecamanVisualization.t) (sc ox oy : Q),
    RecamanVisualization.init config0 = Ok v /\
    let v := set_currentArc v 3 in
    let frame := frame_calls rational_cos rational_sin draw0 v sc ox oy in
    draw rational_cos rational_sin pygame_checked draw0 v []
    = emit_all pygame_checked frame [] /\
    ((forall c, c ∈ frame -> pygame_checked c = None) ->
     draw rational_cos rational_sin pygame_checked draw0 v []
     = Ok ([] ++ frame)) /\
    (forall scr',
       draw rational_cos rational_sin pygame_checked draw0 v [] = Ok scr' ->
       scr' = [] ++ frame) /\
    Z.of_nat (length (marker_calls draw0 v sc ox)) = currentArc v + 1 /\
    Z.of_nat (length (arc_calls rational_cos rational_sin v sc ox oy))
      = currentArc v /\
    (forall i, 0 <= i < currentArc v ->
       exists color points,
         arc_calls rational_cos rational_sin v sc ox oy !! Z.to_nat i
           = Some (Arc (Lines color false points
                          (strokeWeight (arcSettings (config v))))) /\
         interpolateColor (arcSettings (config v)) i (totalArcs v)
           = Ok color /\
         Z.of_nat (length points) = segments (arcSettings (config v)) + 1).
Proof.
  destruct (init_eval config0 50 (1 # 2) _ _ sane_config0)
    as (seq & _ & Hr & Hlen & Hinit).
  assert (Hlen26 : RecamanSequence.len seq <= 2 ^ 26)
    by (rewrite Hlen; cbn; lia).
  exists (started config0 seq 50 (1 # 2)).
  exists (fit_scale config0 seq 50), (fit_offset config0 seq 50),
         (round (inject_Z (windowHeight config0) * (1 # 2))).
  split; [exact Hinit|].
  apply (draw_frame rational_cos rational_sin pygame_checked
           rational_cos_finite rational_sin_finite draw0
           (set_currentArc (started config0 seq 50 (1 # 2)) 3) []
           (fit_scale config0 seq 50) (fit_offset config0 seq 50)
           (round (inject_Z (windowHeight config0) * (1 # 2)))
           (255, 0, 0) (0, 0, 255)).
  - exact (started_at_drawable _ _ _ _ _ _ 3 sane_config0 Hr Hlen26).
  - unfold totalArcs. cbn [set_currentArc started currentArc sequence].
    rewrite Hlen. cbn. lia.
Defined.

Lemma markers_fit_witness :
  exists (v : RecamanVisualization.t) (row : Z),
    construct pygame_checked (Ok config0)
    = (let! scr := emit_all pygame_checked (startup config0) [] in
       Ok (v, scr)) /\
    0 <= row <= 600 /\
    forall value, value ∈ RecamanSequence.sequence (sequence v) ->
      exists column,
        (forall scr,
           marker pygame_checked draw0 v scr value
           = emit pygame_checked
               (Circle (numberLine_color draw0) (column, row)
                  (numberLine_markerSize draw0)) scr) /\
        50 <= column <= 800 - 50.
Proof.
  apply (markers_fit pygame_checked config0 50 (1 # 2) (255, 0, 0)
           (0, 0, 255) draw0 sane_config0); [reflexivity | cbn; lia].
Defined.

(** Four batches of events: nothing, a pause, a quit, a reset.  The loop
    presents three frames and never reads the fourth batch. *)
Definition batches0 : list (list event) :=
  [ []; [KEYDOWN K_SPACE]; [OtherEvent; QUIT]; [KEYDOWN K_r] ].



(** A scale of [2^100] is within what a frame needs of an object, and the
    marker of the term 1 is then a circle at column [2^100], which the
    stand-in for pygame refuses: the frame ends with [TypeError]. *)
Example marker_refused :
  let v := set_scaling player0 (Float (Fin (inject_Z (2 ^ 100))))
             (Float (Fin 0)) in
  marker pygame_checked draw0 v [] 1 = Raise TypeError /\
  draw rational_cos rational_sin pygame_checked draw0
       (set_currentArc v 1) [] = Raise TypeError.
Proof. split; vm_compute; reflexivity. Qed.

(** A window of 32768 by 32768 pixels: the stand-in for pygame refuses it,
    and [__init__] ends with [pygame.error] before anything is computed. *)
Example window_refused :
  construct pygame_checked
    (Ok {| windowWidth := 32768; windowHeight := 32768; cfg_maxTerms := 10;
           autoScaling_enabled := true; autoScaling_padding := Int 50;
           numberLine_yPosition := Float (Fin (1 # 2));
           arcSettings := settings |})
  = Raise PygameError.
Proof. reflexivity. Qed.

(** The program on [config0] and the four batches: every call is accepted,
    53 calls are made, three frames are presented and [pygame.quit] comes
    last. *)
Example main_run :
  exists (v : RecamanVisualization.t) (scr : screen),
    main rational_cos rational_sin pygame_checked (Ok config0) draw0 batches0
    = Ok (v, scr) /\
    currentArc v = 1 /\ paused v = true /\ running v = false /\
    length scr = 53%nat /\ presented scr = 3%nat /\ last scr = Some Quit.
Proof.
  eexists _, _. split; [vm_compute; reflexivity|].
  repeat split; vm_compute; reflexivity.
Qed.

End FurtherExamples.
